(** * prolame: the parsing library (parser.py)

    The module lexes and parses a prolame program with PLY and stores the
    facts, rules, queries and predicate declarations in the class-level
    attributes of [Program].  This development embeds

    - the Python values the grammar actions build ([obj]),
    - the [Program] store and the arithmetic table,
    - the token rules ([t_*]) as the scanner PLY runs on them,
    - the grammar of the [p_*] docstrings with the [precedence] table,
    - the grammar actions ([p_*]) over the value slice [p],
    - the shift/reduce loop that [yacc.parse] runs over that grammar,
    - [parseProgram].

    Sequences are Python lists, rendered as Rocq lists; the states of the
    parser are carried as sets of LR(1) items over the productions, so that
    every shift, reduction and precedence decision is computed from the
    grammar as it is written in the source. *)

From Stdlib Require Import List String Ascii ZArith Bool Arith Lia.
Import ListNotations.

Local Open Scope string_scope.
Local Open Scope list_scope.
Local Open Scope nat_scope.

(* ================================================================== *)
(** ** Python values *)
(* ================================================================== *)

(** The objects that flow through the grammar actions: [None], integers,
    strings, tuples and lists.  Lists are only ever built fresh ([p[1] +
    [p[3]]], [p[3][:]]) and never mutated after they are stored in a tuple,
    so a list is modelled by its contents. *)
Unset Elimination Schemes.
Inductive obj : Type :=
| PyNone
| PyInt (z : Z)
| PyStr (s : string)
| PyTuple (items : list obj)
| PyList (items : list obj).
Set Elimination Schemes.

(** Python's [==] on these objects. *)
Fixpoint obj_eqb (a b : obj) : bool :=
  let fix all2 (xs ys : list obj) : bool :=
    match xs, ys with
    | [], [] => true
    | x :: xs', y :: ys' => obj_eqb x y && all2 xs' ys'
    | _, _ => false
    end in
  match a, b with
  | PyNone, PyNone => true
  | PyInt x, PyInt y => Z.eqb x y
  | PyStr x, PyStr y => String.eqb x y
  | PyTuple xs, PyTuple ys => all2 xs ys
  | PyList xs, PyList ys => all2 xs ys
  | _, _ => false
  end.

(** Exceptions a grammar action can raise. *)
Inductive PyExc : Type :=
| TypeError | ValueError | IndexError | AttributeError | KeyError.

Inductive result (A : Type) : Type :=
| Ok (a : A)
| Raise (e : PyExc).
Arguments Ok {A} a.
Arguments Raise {A} e.

(* ================================================================== *)
(** ** The Program store *)
(* ================================================================== *)

(** A Python [dict]: keys in insertion order, each key once. *)
Definition dict : Type := list (obj * obj).

Fixpoint dict_get (d : dict) (k : obj) : option obj :=
  match d with
  | [] => None
  | (k', v) :: d' => if obj_eqb k' k then Some v else dict_get d' k
  end.

(** [d[k] = v]: an existing key keeps its place and takes the new value, a
    new key goes to the end. *)
Fixpoint dict_set (d : dict) (k v : obj) : dict :=
  match d with
  | [] => [(k, v)]
  | (k', v') :: d' =>
      if obj_eqb k' k then (k', v) :: d' else (k', v') :: dict_set d' k v
  end.

(** Lists (and tuples that hold one) cannot be keys. *)
Fixpoint hashable (k : obj) : bool :=
  match k with
  | PyList _ => false
  | PyTuple items => forallb hashable items
  | _ => true
  end.

(** [class Program]: the attributes the parser and [next_var] touch.
    ([max], [clauses], [predicateToVariable] and [variableToStatement] are
    constants of the class that nothing in this module reads or writes.) *)
Record Program : Type := {
  next_variable : Z;
  predicates : dict;
  rules : list obj;
  facts : list obj;
  queries : list obj
}.

(** The class as it is when the module is loaded. *)
Definition Program_initial : Program :=
  {| next_variable := 1; predicates := []; rules := []; facts := []; queries := [] |}.

(** [Program.next_var()] *)
Definition next_var (st : Program) : Z * Program :=
  let st' := {| next_variable := next_variable st + 1;
                predicates := predicates st; rules := rules st;
                facts := facts st; queries := queries st |} in
  (next_variable st' - 1, st')%Z.

(** [Program.arithmetics]: the lambdas, on integers.  [%] by zero raises
    ZeroDivisionError, rendered as [None]; [int(x * y)] on an integer
    product is the product. *)
Definition py_int_of_int (z : Z) : Z := z.

Definition arithmetics (op : string) : option (Z -> Z -> option Z) :=
  if (op =? "+")%string then Some (fun x y => Some (x + y)%Z)
  else if (op =? "-")%string then Some (fun x y => Some (x - y)%Z)
  else if (op =? "%")%string then
    Some (fun x y => if (y =? 0)%Z then None else Some (x mod y)%Z)
  else if (op =? "*")%string then Some (fun x y => Some (py_int_of_int (x * y))%Z)
  else None.

(** Grammar actions read and write the store and may raise. *)
Definition M (A : Type) : Type := Program -> result (A * Program).

Definition ret {A} (a : A) : M A := fun st => Ok (a, st).
Definition raise {A} (e : PyExc) : M A := fun _ => Raise e.
Definition bind {A B} (m : M A) (f : A -> M B) : M B :=
  fun st => match m st with
            | Ok (a, st') => f a st'
            | Raise e => Raise e
            end.

Notation "x <- m ;; k" := (bind m (fun x => k))
  (at level 61, m at next level, right associativity).
Notation "m ;;; k" := (bind m (fun _ => k))
  (at level 61, right associativity).

(** The store after [Program.facts.append(x)], [Program.rules.append(x)],
    [Program.queries.append(x)] and [Program.predicates[k] = v]. *)
Definition add_fact (x : obj) (st : Program) : Program :=
  {| next_variable := next_variable st; predicates := predicates st;
     rules := rules st; facts := facts st ++ [x]; queries := queries st |}.

Definition add_rule (x : obj) (st : Program) : Program :=
  {| next_variable := next_variable st; predicates := predicates st;
     rules := rules st ++ [x]; facts := facts st; queries := queries st |}.

Definition add_query (x : obj) (st : Program) : Program :=
  {| next_variable := next_variable st; predicates := predicates st;
     rules := rules st; facts := facts st; queries := queries st ++ [x] |}.

Definition set_predicate (k v : obj) (st : Program) : Program :=
  {| next_variable := next_variable st;
     predicates := dict_set (predicates st) k v;
     rules := rules st; facts := facts st; queries := queries st |}.

Definition facts_append (x : obj) : M unit :=
  fun st => Ok (tt, add_fact x st).

Definition rules_append (x : obj) : M unit :=
  fun st => Ok (tt, add_rule x st).

Definition queries_append (x : obj) : M unit :=
  fun st => Ok (tt, add_query x st).

(** A key that cannot be hashed raises TypeError. *)
Definition predicates_setitem (k v : obj) : M unit :=
  fun st => if hashable k then Ok (tt, set_predicate k v st)
            else Raise TypeError.

(* ================================================================== *)
(** ** The lexer *)
(* ================================================================== *)

(** The [tokens] tuple, and ["$end"], which the parser supplies when the
    lexer has no more tokens. *)
Inductive terminal : Type :=
| LPAREN | RPAREN | NOT | VAR | NUMBER | PERIOD | ENTAILED
| IDENT | COMMA | PLUS | MINUS | TIMES | MOD | QUESTION
| END.

Definition terminal_eqb (a b : terminal) : bool :=
  match a, b with
  | LPAREN, LPAREN | RPAREN, RPAREN | NOT, NOT | VAR, VAR
  | NUMBER, NUMBER | PERIOD, PERIOD | ENTAILED, ENTAILED
  | IDENT, IDENT | COMMA, COMMA | PLUS, PLUS | MINUS, MINUS
  | TIMES, TIMES | MOD, MOD | QUESTION, QUESTION | END, END => true
  | _, _ => false
  end.

Record LexToken : Type := {
  type : terminal;
  value : string;
  lineno : nat
}.

(** The lexer object: the text not yet scanned and the line counter. *)
Record Lexer : Type := {
  lexdata : string;
  lexlineno : nat
}.

Definition code (c : ascii) : nat := nat_of_ascii c.

(** [a-z], [A-Z], [\d] and [A-Za-z0-9_] on 8-bit characters *)
Definition is_lower (c : ascii) : bool := (97 <=? code c) && (code c <=? 122).
Definition is_upper (c : ascii) : bool := (65 <=? code c) && (code c <=? 90).
Definition is_digit (c : ascii) : bool := (48 <=? code c) && (code c <=? 57).
Definition is_word (c : ascii) : bool :=
  is_lower c || is_upper c || is_digit c || (code c =? 95).

(** [t_ignore = ' \t'] *)
Definition t_ignore (c : ascii) : bool := (code c =? 32) || (code c =? 9).

(** The longest prefix of [s] made of characters in [f], and the rest: what
    a starred character class matches. *)
Fixpoint span (f : ascii -> bool) (s : string) : string * string :=
  match s with
  | EmptyString => (EmptyString, EmptyString)
  | String c r =>
      if f c then let (a, b) := span f r in (String c a, b)
      else (EmptyString, s)
  end.

Inductive lexres (L : Type) : Type :=
| LexTok (t : LexToken) (rest : L)
| LexEOF
| LexIllegal (c : ascii) (line : nat).
Arguments LexTok {L} t rest.
Arguments LexEOF {L}.
Arguments LexIllegal {L} c line.

(** [t_IDENT]: the rule function reclassifies the text [not]. *)
Definition t_IDENT (t : LexToken) : LexToken :=
  if (value t =? "not")%string
  then {| type := NOT; value := value t; lineno := lineno t |}
  else t.

(** The one-character rules: [t_LPAREN], [t_RPAREN], [t_PERIOD],
    [t_QUESTION], [t_PLUS], [t_TIMES], [t_COMMA], [t_MINUS], [t_MOD]. *)
Definition single (c : ascii) : option terminal :=
  match code c with
  | 40 => Some LPAREN
  | 41 => Some RPAREN
  | 46 => Some PERIOD
  | 63 => Some QUESTION
  | 43 => Some PLUS
  | 42 => Some TIMES
  | 44 => Some COMMA
  | 45 => Some MINUS
  | 37 => Some MOD
  | _ => None
  end.

(** [Lexer.token()]: the next token from the text [s] at line [line].
    Characters of [t_ignore] are skipped.  PLY then tries the rules given as
    functions in source order ([t_newline], [t_IDENT]) and after them the
    rules given as strings; the first rule that matches wins.  [t_IDENT]
    therefore takes every word that starts with a lower-case letter, also
    [not], and the string rule [t_NOT] never fires.  The other rules start
    on different characters.  [t_newline] returns no token: a run of [n]
    newlines adds [n] to the line counter, here one newline at a time.
    When no rule matches, [t_error] prints the character and exits. *)
Fixpoint token_from (s : string) (line : nat) : lexres Lexer :=
  match s with
  | EmptyString => LexEOF
  | String c rest =>
      if t_ignore c then token_from rest line
      else if code c =? 10 then token_from rest (S line)
      else if is_lower c then
        let (w, r) := span is_word rest in
        LexTok (t_IDENT {| type := IDENT; value := String c w; lineno := line |})
               {| lexdata := r; lexlineno := line |}
      else if is_upper c then
        let (w, r) := span is_word rest in
        LexTok {| type := VAR; value := String c w; lineno := line |}
               {| lexdata := r; lexlineno := line |}
      else if is_digit c then
        let (w, r) := span is_digit rest in
        LexTok {| type := NUMBER; value := String c w; lineno := line |}
               {| lexdata := r; lexlineno := line |}
      else match single c with
      | Some ty =>
        LexTok {| type := ty; value := String c EmptyString; lineno := line |}
               {| lexdata := rest; lexlineno := line |}
      | None =>
        if code c =? 58 then
          match rest with
          | String d r =>
              if code d =? 45 then
                LexTok {| type := ENTAILED; value := ":-"; lineno := line |}
                       {| lexdata := r; lexlineno := line |}
              else LexIllegal c line
          | EmptyString => LexIllegal c line
          end
        else LexIllegal c line
      end
  end.

Definition token (l : Lexer) : lexres Lexer :=
  token_from (lexdata l) (lexlineno l).

(** [lex.lex()] followed by [lexer.input(program)]: a new lexer on line 1. *)
Definition lex_input (program : string) : Lexer :=
  {| lexdata := program; lexlineno := 1 |}.

(* ================================================================== *)
(** ** What the grammar actions call *)
(* ================================================================== *)

(** [p[i]] on the slice of a production. *)
Definition getitem (p : list obj) (i : nat) : M obj :=
  match nth_error p i with
  | Some v => ret v
  | None => raise IndexError
  end.

Fixpoint all_chars (f : ascii -> bool) (s : string) : bool :=
  match s with
  | EmptyString => true
  | String c r => f c && all_chars f r
  end.

(** [str.isdigit()] on the texts the lexer produces (words over
    [A-Za-z0-9_]): true for a non-empty run of [0-9]. *)
Definition str_isdigit (s : string) : bool :=
  match s with
  | EmptyString => false
  | _ => all_chars is_digit s
  end.

Fixpoint digits_value (s : string) (acc : Z) : Z :=
  match s with
  | EmptyString => acc
  | String c r => digits_value r (10 * acc + Z.of_nat (code c - 48))%Z
  end.

(** [x.isdigit()] *)
Definition isdigit (x : obj) : M bool :=
  match x with
  | PyStr s => ret (str_isdigit s)
  | _ => raise AttributeError
  end.

(** [int(x)]: a decimal digit string is read in base ten; any other string
    the lexer can produce raises ValueError. *)
Definition py_int (x : obj) : M obj :=
  match x with
  | PyStr s => if str_isdigit s then ret (PyInt (digits_value s 0))
               else raise ValueError
  | PyInt z => ret (PyInt z)
  | _ => raise TypeError
  end.

(** [x + y] *)
Definition py_add (x y : obj) : M obj :=
  match x, y with
  | PyList a, PyList b => ret (PyList (a ++ b))
  | PyTuple a, PyTuple b => ret (PyTuple (a ++ b))
  | PyStr a, PyStr b => ret (PyStr (a ++ b)%string)
  | PyInt a, PyInt b => ret (PyInt (a + b))
  | _, _ => raise TypeError
  end.

(** [x[:]] *)
Definition slice_all (x : obj) : M obj :=
  match x with
  | PyList a => ret (PyList a)
  | PyTuple a => ret (PyTuple a)
  | PyStr a => ret (PyStr a)
  | _ => raise TypeError
  end.

(** [x.append(y)], returning the list after the call. *)
Definition list_append (x y : obj) : M obj :=
  match x with
  | PyList a => ret (PyList (a ++ [y]))
  | _ => raise AttributeError
  end.

(* ================================================================== *)
(** ** The grammar actions *)
(* ================================================================== *)

(** Each action receives the slice [p]: [p[0]] is [None] on entry, [p[1]],
    ..., [p[n]] are the values of the symbols of the right-hand side, and
    [len(p)] is [n + 1].  The action returns the value [p[0]] holds when the
    Python function returns. *)

Definition p_program (p : list obj) : M obj :=
  ret PyNone.

Definition p_declaration (p : list obj) : M obj :=
  p1 <- getitem p 1 ;;
  p2 <- getitem p 2 ;;
  n <- py_int p2 ;;
  predicates_setitem p1 n ;;;
  ret PyNone.

Definition p_fact (p : list obj) : M obj :=
  p1 <- getitem p 1 ;;
  if obj_eqb p1 (PyStr "not") then
    p2 <- getitem p 2 ;;
    p4 <- getitem p 4 ;;
    facts_append (PyTuple [PyInt (-1); p2; p4]) ;;;
    ret PyNone
  else
    p3 <- getitem p 3 ;;
    facts_append (PyTuple [PyInt 1; p1; p3]) ;;;
    ret PyNone.

Definition p_query (p : list obj) : M obj :=
  p2 <- getitem p 2 ;;
  p4 <- getitem p 4 ;;
  queries_append (PyTuple [p2; p4]) ;;;
  ret PyNone.

Definition p_params (p : list obj) : M obj :=
  if 2 <? List.length p then
    p1 <- getitem p 1 ;;
    p3 <- getitem p 3 ;;
    py_add p1 (PyList [p3])
  else
    p1 <- getitem p 1 ;;
    ret (PyList [p1]).

Definition p_var_expr (p : list obj) : M obj :=
  if 2 <? List.length p then
    p1 <- getitem p 1 ;;
    p2 <- getitem p 2 ;;
    p3 <- getitem p 3 ;;
    ret (PyTuple [p1; p2; p3])
  else
    p1 <- getitem p 1 ;;
    d <- isdigit p1 ;;
    if d then py_int p1 else ret p1.

Definition p_predicate (p : list obj) : M obj :=
  p1 <- getitem p 1 ;;
  if obj_eqb p1 (PyStr "not") then
    p2 <- getitem p 2 ;;
    p4 <- getitem p 4 ;;
    ret (PyTuple [PyInt (-1); p2; p4])
  else
    p3 <- getitem p 3 ;;
    ret (PyTuple [PyInt 1; p1; p3]).

Definition p_antecedents (p : list obj) : M obj :=
  if List.length p <? 3 then
    p1 <- getitem p 1 ;;
    ret (PyList [p1])
  else
    p3 <- getitem p 3 ;;
    copy <- slice_all p3 ;;
    p1 <- getitem p 1 ;;
    list_append copy p1.

Definition p_rule (p : list obj) : M obj :=
  p1 <- getitem p 1 ;;
  p3 <- getitem p 3 ;;
  rules_append (PyTuple [p1; p3]) ;;;
  ret PyNone.

(* ================================================================== *)
(** ** The grammar *)
(* ================================================================== *)

(** The nonterminals of the docstrings, and [S'], the start symbol yacc
    puts above [program], the left-hand side of the first rule. *)
Inductive nonterminal : Type :=
| S' | program | declaration | fact | query | params | var_expr
| predicate | antecedents | rule.

Definition nonterminal_eqb (a b : nonterminal) : bool :=
  match a, b with
  | S', S' | program, program | declaration, declaration | fact, fact
  | query, query | params, params | var_expr, var_expr
  | predicate, predicate | antecedents, antecedents | rule, rule => true
  | _, _ => false
  end.

Inductive symbol : Type :=
| T (t : terminal)
| N (n : nonterminal).

Definition symbol_eqb (a b : symbol) : bool :=
  match a, b with
  | T x, T y => terminal_eqb x y
  | N x, N y => nonterminal_eqb x y
  | _, _ => false
  end.

Record Production : Type := {
  name : nonterminal;
  prod : list symbol;
  callable : list obj -> M obj
}.

Definition mk (n : nonterminal) (rhs : list symbol)
    (f : list obj -> M obj) : Production :=
  {| name := n; prod := rhs; callable := f |}.

(** The productions, numbered as yacc numbers them: production 0 is
    [S' -> program], then the alternatives of each docstring in the order of
    the functions in the file. *)
Definition Productions : list Production := [
  (* 0 *)  mk S' [N program] p_program;
  (* 1 *)  mk program [N program; N rule] p_program;
  (* 2 *)  mk program [N program; N fact] p_program;
  (* 3 *)  mk program [N program; N query] p_program;
  (* 4 *)  mk program [N program; N declaration] p_program;
  (* 5 *)  mk program [] p_program;
  (* 6 *)  mk declaration [T IDENT; T NUMBER; T PERIOD] p_declaration;
  (* 7 *)  mk fact [T IDENT; T LPAREN; N params; T RPAREN; T PERIOD] p_fact;
  (* 8 *)  mk fact [T NOT; T IDENT; T LPAREN; N params; T RPAREN; T PERIOD]
              p_fact;
  (* 9 *)  mk query [T QUESTION; T IDENT; T LPAREN; N params; T RPAREN;
                     T PERIOD] p_query;
  (* 10 *) mk params [N var_expr] p_params;
  (* 11 *) mk params [N params; T COMMA; N var_expr] p_params;
  (* 12 *) mk var_expr [T VAR] p_var_expr;
  (* 13 *) mk var_expr [T NUMBER] p_var_expr;
  (* 14 *) mk var_expr [N var_expr; T PLUS; N var_expr] p_var_expr;
  (* 15 *) mk var_expr [N var_expr; T MINUS; N var_expr] p_var_expr;
  (* 16 *) mk var_expr [N var_expr; T MOD; N var_expr] p_var_expr;
  (* 17 *) mk var_expr [N var_expr; T TIMES; N var_expr] p_var_expr;
  (* 18 *) mk predicate [T IDENT; T LPAREN; N params; T RPAREN] p_predicate;
  (* 19 *) mk predicate [T NOT; T IDENT; T LPAREN; N params; T RPAREN]
              p_predicate;
  (* 20 *) mk antecedents [N predicate] p_antecedents;
  (* 21 *) mk antecedents [N predicate; T COMMA; N antecedents] p_antecedents;
  (* 22 *) mk rule [N predicate; T ENTAILED; N antecedents; T PERIOD] p_rule
].

Inductive assoc : Type := assoc_left | assoc_right | assoc_nonassoc.

(** [precedence]: one level, left associative, for the four operators. *)
Definition precedence : list (assoc * list terminal) :=
  [ (assoc_left, [PLUS; MINUS; MOD; TIMES]) ].

(** The level of a terminal: its 1-based row in [precedence], or
    [('right', 0)] when it has none. *)
Fixpoint prec_lookup (rows : list (assoc * list terminal)) (level : nat)
    (t : terminal) : assoc * nat :=
  match rows with
  | [] => (assoc_right, 0)
  | (a, ts) :: rows' =>
      if existsb (terminal_eqb t) ts then (a, level)
      else prec_lookup rows' (S level) t
  end.

Definition Precedence (t : terminal) : assoc * nat :=
  prec_lookup precedence 1 t.

Fixpoint rightmost_terminal (syms : list symbol) : option terminal :=
  match syms with
  | [] => None
  | x :: rest =>
      match rightmost_terminal rest with
      | Some t => Some t
      | None => match x with T t => Some t | N _ => None end
      end
  end.

(** A production takes the precedence of its rightmost terminal. *)
Definition prod_prec (p : Production) : assoc * nat :=
  match rightmost_terminal (prod p) with
  | Some t => Precedence t
  | None => (assoc_right, 0)
  end.

(* ================================================================== *)
(** ** The parsing table: LR(1) items over the grammar *)
(* ================================================================== *)

Definition nonterminals : list nonterminal :=
  [S'; program; declaration; fact; query; params; var_expr; predicate;
   antecedents; rule].

Definition add_terminal (l : list terminal) (t : terminal) : list terminal :=
  if existsb (terminal_eqb t) l then l else l ++ [t].

Definition union (a b : list terminal) : list terminal :=
  fold_left add_terminal b a.

(** For every nonterminal: whether it derives the empty string, and the
    terminals its derivations can start with. *)
Definition first_table : Type := list (nonterminal * (bool * list terminal)).

Fixpoint table_get (t : first_table) (n : nonterminal) : bool * list terminal :=
  match t with
  | [] => (false, [])
  | (m, r) :: t' => if nonterminal_eqb m n then r else table_get t' n
  end.

Fixpoint first_of (t : first_table) (beta : list symbol)
    : bool * list terminal :=
  match beta with
  | [] => (true, [])
  | T a :: _ => (false, [a])
  | N n :: rest =>
      let (e, f) := table_get t n in
      if e then let (e', f') := first_of t rest in (e', union f f')
      else (false, f)
  end.

Definition first_round (t : first_table) : first_table :=
  map (fun n =>
         (n, fold_left
               (fun acc p =>
                  if nonterminal_eqb (name p) n then
                    let (e, f) := first_of t (prod p) in
                    (fst acc || e, union (snd acc) f)
                  else acc)
               Productions (table_get t n)))
      nonterminals.

Fixpoint iterate {A} (n : nat) (f : A -> A) (x : A) : A :=
  match n with
  | 0 => x
  | S k => iterate k f (f x)
  end.

(** The table is stable after as many rounds as there are nonterminals;
    twice as many are run. *)
Definition First : first_table :=
  Eval vm_compute in
    iterate (2 * List.length nonterminals) first_round
            (map (fun n => (n, (false, []))) nonterminals).

(** The terminals that can start [beta] followed by [a]. *)
Definition first_seq (beta : list symbol) (a : terminal) : list terminal :=
  let (e, f) := first_of First beta in
  if e then union f [a] else f.

(** An item: production [number] with the dot before position [lr_index]
    of its right-hand side, and one lookahead terminal. *)
Record item : Type := {
  number : nat;
  lr_index : nat;
  look : terminal
}.

Definition item_eqb (i j : item) : bool :=
  (number i =? number j) && (lr_index i =? lr_index j)
  && terminal_eqb (look i) (look j).

Definition state : Type := list item.

Definition add_item (I : state) (i : item) : state :=
  if existsb (item_eqb i) I then I else I ++ [i].

Fixpoint numbered {A} (k : nat) (l : list A) : list (nat * A) :=
  match l with
  | [] => []
  | x :: r => (k, x) :: numbered (S k) r
  end.

(** The items [B -> . gamma, b] an item [A -> alpha . B beta, a] brings
    into its state, for every production of [B] and every [b] that can start
    [beta a]. *)
Definition expand (i : item) : list item :=
  match nth_error Productions (number i) with
  | None => []
  | Some p =>
      match skipn (lr_index i) (prod p) with
      | N B :: beta =>
          flat_map
            (fun q =>
               if nonterminal_eqb (name (snd q)) B then
                 map (fun b => {| number := fst q; lr_index := 0; look := b |})
                     (first_seq beta (look i))
               else [])
            (numbered 0 Productions)
      | _ => []
      end
  end.

Definition closure_round (I : state) : state :=
  fold_left add_item (flat_map expand I) I.

Fixpoint closure_loop (fuel : nat) (I : state) : state :=
  match fuel with
  | 0 => I
  | S k =>
      let I' := closure_round I in
      if List.length I' =? List.length I then I else closure_loop k I'
  end.

(** The closure of a set of items.  Every round that changes the set adds
    an item with the dot in front, and there are at most
    [|Productions| * |terminals|] of those. *)
Definition closure (I : state) : state :=
  closure_loop (List.length Productions * 15) I.

(** Moving the dot of an item over [X]. *)
Definition advance (X : symbol) (i : item) : list item :=
  match nth_error Productions (number i) with
  | None => []
  | Some p =>
      match nth_error (prod p) (lr_index i) with
      | Some Y =>
          if symbol_eqb X Y
          then [{| number := number i; lr_index := S (lr_index i);
                   look := look i |}]
          else []
      | None => []
      end
  end.

Definition goto (I : state) (X : symbol) : state :=
  closure (flat_map (advance X) I).

(** State 0. *)
Definition state0 : state :=
  closure [{| number := 0; lr_index := 0; look := END |}].

Inductive action : Type :=
| Shift
| Reduce (n : nat)
| Accept
| Error.

Definition complete (i : item) : bool :=
  match nth_error Productions (number i) with
  | Some p => lr_index i =? List.length (prod p)
  | None => false
  end.

(** The productions state [I] can reduce by on lookahead [a]. *)
Definition reductions (I : state) (a : terminal) : list nat :=
  map number
      (filter (fun i => complete i && terminal_eqb (look i) a
                        && negb (number i =? 0)) I).

Definition can_shift (I : state) (a : terminal) : bool :=
  existsb (fun i => match nth_error Productions (number i) with
                    | Some p => match nth_error (prod p) (lr_index i) with
                                | Some (T b) => terminal_eqb a b
                                | _ => false
                                end
                    | None => false
                    end) I.

Definition can_accept (I : state) (a : terminal) : bool :=
  terminal_eqb a END
  && existsb (fun i => (number i =? 0) && complete i) I.

(** The entry of the table for state [I] and lookahead [a].  Between two
    reductions the production defined first wins.  Between a shift and a
    reduction yacc compares the level of the lookahead with the level of
    the production: the reduction wins when its level is higher, or equal
    with associativity [left]; equal with [nonassoc] is an error; otherwise
    the shift wins. *)
Definition lr_action (I : state) (a : terminal) : action :=
  if can_accept I a then Accept
  else
    match reductions I a with
    | [] => if can_shift I a then Shift else Error
    | r :: rs =>
        let n := fold_left Nat.min rs r in
        if can_shift I a then
          match nth_error Productions n with
          | None => Shift
          | Some p =>
              let (rprec, rlevel) := prod_prec p in
              let (sprec, slevel) := Precedence a in
              if slevel <? rlevel then Reduce n
              else if slevel =? rlevel then
                match rprec with
                | assoc_left => Reduce n
                | assoc_nonassoc => Error
                | assoc_right => Shift
                end
              else Shift
          end
        else Reduce n
    end.

(* ================================================================== *)
(** ** The parser loop *)
(* ================================================================== *)

(** How a run of [parseProgram] ends. *)
Inductive outcome : Type :=
| Parsed (st : Program)
    (** [yacc.parse] returned; the store is as the actions left it *)
| IllegalCharacter (c : ascii) (line : nat)
    (** [t_error]: the message is printed, then [exit(1)] *)
| SyntaxError (tok : option LexToken)
    (** [p_error]: at a token, or at EOF for [None]; then [exit()] *)
| Uncaught (e : PyExc)
    (** an action raised *)
| OutOfFuel.

(** The lookahead symbol: a token of the lexer, or ["$end"]. *)
Inductive lookahead_sym : Type :=
| LaTok (t : LexToken)
| LaEnd.

Definition la_type (l : lookahead_sym) : terminal :=
  match l with
  | LaTok t => type t
  | LaEnd => END
  end.

Definition la_value (l : lookahead_sym) : obj :=
  match l with
  | LaTok t => PyStr (value t)
  | LaEnd => PyNone
  end.

(** One cell of [statestack] and [symstack]: the state, the symbol and the
    value of the symbol. *)
Record entry : Type := {
  st_of : state;
  sym : symbol;
  val : obj
}.

(** The cell both stacks start with: state 0 under ["$end"]. *)
Definition bottom : entry :=
  {| st_of := state0; sym := T END; val := PyNone |}.

Section Loop.

(** The loop is written over any source of tokens [L] with its
    [get_token]; [parseProgram] runs it on the lexer. *)
Variable L : Type.
Variable get_token : L -> lexres L.

Record config : Type := {
  stack : list entry;
  lookahead : option lookahead_sym;
  lexer : L;
  store : Program
}.

Inductive step_result : Type :=
| Continue (c : config)
| Done (o : outcome).

(** [if not lookahead: lookahead = get_token()], and ["$end"] when the
    lexer has nothing left. *)
Definition fetch (c : config) : outcome + (lookahead_sym * L) :=
  match lookahead c with
  | Some l => inr (l, lexer c)
  | None =>
      match get_token (lexer c) with
      | LexTok t lx => inr (LaTok t, lx)
      | LexEOF => inr (LaEnd, lexer c)
      | LexIllegal ch line => inl (IllegalCharacter ch line)
      end
  end.

(** One turn of the [while True] loop of [yacc.parse]. *)
Definition step (c : config) : step_result :=
  match stack c with
  | [] => Done (Uncaught IndexError)
  | top :: _ =>
      match fetch c with
      | inl o => Done o
      | inr (l, lx) =>
          match lr_action (st_of top) (la_type l) with
          | Shift =>
              Continue
                {| stack := {| st_of := goto (st_of top) (T (la_type l));
                               sym := T (la_type l);
                               val := la_value l |} :: stack c;
                   lookahead := None;
                   lexer := lx;
                   store := store c |}
          | Reduce n =>
              match nth_error Productions n with
              | None => Done (Uncaught KeyError)
              | Some p =>
                  let plen := List.length (prod p) in
                  let targ := rev (firstn plen (stack c)) in
                  let rest := skipn plen (stack c) in
                  match callable p (PyNone :: map val targ) (store c) with
                  | Raise e => Done (Uncaught e)
                  | Ok (v, st') =>
                      match rest with
                      | [] => Done (Uncaught IndexError)
                      | below :: _ =>
                          Continue
                            {| stack :=
                                 {| st_of := goto (st_of below) (N (name p));
                                    sym := N (name p);
                                    val := v |} :: rest;
                               lookahead := Some l;
                               lexer := lx;
                               store := st' |}
                      end
                  end
              end
          | Accept => Done (Parsed (store c))
          | Error =>
              Done (SyntaxError (match l with
                                 | LaTok t => Some t
                                 | LaEnd => None
                                 end))
          end
      end
  end.

Fixpoint run (fuel : nat) (c : config) : outcome :=
  match fuel with
  | 0 => OutOfFuel
  | S k =>
      match step c with
      | Done o => o
      | Continue c' => run k c'
      end
  end.

Definition start (lx : L) (st : Program) : config :=
  {| stack := [bottom]; lookahead := None; lexer := lx; store := st |}.

End Loop.

Arguments stack {L} c.
Arguments lookahead {L} c.
Arguments lexer {L} c.
Arguments store {L} c.
Arguments Continue {L} c.
Arguments Done {L} o.

(** [parseProgram(program)]: a new lexer on the text, then [yacc.parse].
    The store [st] is the class [Program] as the call finds it.  The loop
    runs until it accepts or exits; the bound on its turns is never reached
    (see [parseProgram_total]). *)
Definition parseProgram (text : string) (st : Program) : outcome :=
  run Lexer token (4 * String.length text + 4) (start Lexer (lex_input text) st).

(* ================================================================== *)
(** ** The token stream of a text *)
(* ================================================================== *)

(** How the token stream of a text ends: the lexer runs out of text, or
    [t_error] stops it at an illegal character. *)
Inductive ending : Type :=
| AtEOF
| AtIllegal (c : ascii) (line : nat).

(** All the tokens the lexer gives before it ends, and how it ends. *)
Definition stream : Type := (list LexToken * ending)%type.

Definition next_of_stream (s : stream) : lexres stream :=
  match s with
  | (t :: r, e) => LexTok t (r, e)
  | ([], AtEOF) => LexEOF
  | ([], AtIllegal c line) => LexIllegal c line
  end.

Fixpoint scan_from (fuel : nat) (l : Lexer) : stream :=
  match fuel with
  | 0 => ([], AtEOF)
  | S k =>
      match token l with
      | LexTok t l' => let (ts, e) := scan_from k l' in (t :: ts, e)
      | LexEOF => ([], AtEOF)
      | LexIllegal c line => ([], AtIllegal c line)
      end
  end.

(** Every token takes at least one character, so the length of the text
    bounds the number of calls. *)
Definition scan_lexer (l : Lexer) : stream :=
  scan_from (S (String.length (lexdata l))) l.

Definition scan (text : string) : stream := scan_lexer (lex_input text).

(** The tokens of a text that lexes to its end. *)
Definition tokenize (text : string) : option (list LexToken) :=
  match scan text with
  | (ts, AtEOF) => Some ts
  | (_, AtIllegal _ _) => None
  end.

(** The parser loop on a token stream. *)
Definition run_stream : nat -> config stream -> outcome :=
  run stream next_of_stream.

Definition step_stream : config stream -> step_result stream :=
  step stream next_of_stream.

(** A configuration of the loop on the lexer, seen on the stream the lexer
    will give. *)
Definition on_stream (c : config Lexer) : config stream :=
  {| stack := stack c; lookahead := lookahead c;
     lexer := scan_lexer (lexer c); store := store c |}.

(* ================================================================== *)
(** ** What the grammar and its actions compute *)
(* ================================================================== *)

(** [derives X toks v st st']: the tokens [toks] reduce to the symbol [X]
    with value [v], and running the actions of the reductions in the order
    the parser performs them (left to right, children first) takes the
    store from [st] to [st']. *)
Inductive derives : symbol -> list LexToken -> obj -> Program -> Program -> Prop :=
| derives_token t st :
    derives (T (type t)) [t] (PyStr (value t)) st st
| derives_reduce n p toks vals v st st' st'' :
    nth_error Productions n = Some p ->
    derives_seq (prod p) toks vals st st' ->
    callable p (PyNone :: vals) st' = Ok (v, st'') ->
    derives (N (name p)) toks v st st''
with derives_seq : list symbol -> list LexToken -> list obj -> Program -> Program -> Prop :=
| derives_nil st :
    derives_seq [] [] [] st st
| derives_cons X Xs t1 t2 v vs st st' st'' :
    derives X t1 v st st' ->
    derives_seq Xs t2 vs st' st'' ->
    derives_seq (X :: Xs) (t1 ++ t2) (v :: vs) st st''.

Scheme derives_ind2 := Minimality for derives Sort Prop
  with derives_seq_ind2 := Minimality for derives_seq Sort Prop.
Combined Scheme derives_mutind from derives_ind2, derives_seq_ind2.

(** The stack of a configuration, above the bottom cell: the symbols [syms]
    (top first), the tokens [toks] shifted so far, and the store the actions
    have reached from [st0].  Every cell above the bottom holds the state
    the table gives for the state below and the symbol of the cell. *)
Inductive stack_inv (st0 : Program)
  : list entry -> list symbol -> list LexToken -> Program -> Prop :=
| inv_bottom :
    stack_inv st0 [bottom] [] [] st0
| inv_push e below stk syms toks seg st st' :
    stack_inv st0 (below :: stk) syms toks st ->
    derives (sym e) seg (val e) st st' ->
    st_of e = goto (st_of below) (sym e) ->
    stack_inv st0 (e :: below :: stk) (sym e :: syms) (toks ++ seg) st'.

(** An item of a state agrees with the symbols on the stack: the part of
    its right-hand side before the dot lies on top of the stack. *)
Definition item_ok (syms : list symbol) (i : item) : Prop :=
  exists p,
    nth_error Productions (number i) = Some p /\
    lr_index i <= List.length syms /\
    firstn (lr_index i) (prod p) = rev (firstn (lr_index i) syms).

(** No item of the state starts a production of [S'] or [program]: those
    start in state 0 only. *)
Definition no_start (I : state) : Prop :=
  forall i p, In i I -> nth_error Productions (number i) = Some p ->
    lr_index i = 0 -> name p <> S' /\ name p <> program.

(* ================================================================== *)
(** ** The shape of what is stored *)
(* ================================================================== *)

(** What the lexer guarantees of a token. *)
Definition tok_ok (t : LexToken) : Prop :=
  match type t with
  | IDENT => value t <> "not"
  | NOT => value t = "not"
  | NUMBER => str_isdigit (value t) = true
  | VAR => str_isdigit (value t) = false
  | PLUS => value t = "+"
  | MINUS => value t = "-"
  | TIMES => value t = "*"
  | MOD => value t = "%"
  | END => False
  | _ => True
  end.

Definition arith_op (o : string) : Prop :=
  o = "+" \/ o = "-" \/ o = "%" \/ o = "*".

(** A Term as the actions build it: an integer, a variable name, or the
    tuple [(left, operator, right)]. *)
Inductive is_term : obj -> Prop :=
| term_int z : is_term (PyInt z)
| term_var s : is_term (PyStr s)
| term_op l o r :
    is_term l -> arith_op o -> is_term r ->
    is_term (PyTuple [l; PyStr o; r]).


(** [(sign, name, args)] *)
Definition is_literal (v : obj) : Prop :=
  exists sign name args,
    v = PyTuple [PyInt sign; PyStr name; PyList args] /\
    (sign = 1 \/ sign = -1)%Z /\
    name <> "not" /\
    args <> [] /\
    Forall is_term args.

(** [(consequent, antecedents)] *)
Definition is_rule (v : obj) : Prop :=
  exists c ants,
    v = PyTuple [c; PyList ants] /\
    is_literal c /\ ants <> [] /\ Forall is_literal ants.

(** [(name, args)] *)
Definition is_query (v : obj) : Prop :=
  exists name args,
    v = PyTuple [PyStr name; PyList args] /\
    name <> "not" /\ args <> [] /\ Forall is_term args.

(** The values a symbol can carry on the stack. *)
Definition val_ok (X : symbol) (v : obj) : Prop :=
  match X with
  | T IDENT => exists s, v = PyStr s /\ s <> "not"
  | T NOT => v = PyStr "not"
  | T NUMBER => exists s, v = PyStr s /\ str_isdigit s = true
  | T VAR => exists s, v = PyStr s /\ str_isdigit s = false
  | T PLUS => v = PyStr "+"
  | T MINUS => v = PyStr "-"
  | T TIMES => v = PyStr "*"
  | T MOD => v = PyStr "%"
  | T _ => exists s, v = PyStr s
  | N var_expr => is_term v
  | N params => exists args, v = PyList args /\ args <> [] /\ Forall is_term args
  | N predicate => is_literal v
  | N antecedents =>
      exists ants, v = PyList ants /\ ants <> [] /\ Forall is_literal ants
  | N _ => v = PyNone
  end.

(** What a run of actions may do to the store: append facts, rules and
    queries of the right shape, and leave the counter alone. *)
Definition extends (st st' : Program) : Prop :=
  exists fs rs qs,
    facts st' = facts st ++ fs /\
    rules st' = rules st ++ rs /\
    queries st' = queries st ++ qs /\
    Forall is_literal fs /\ Forall is_rule rs /\ Forall is_query qs /\
    next_variable st' = next_variable st.

(** The tokens a configuration has still to shift. *)
Definition la_tokens (l : option lookahead_sym) : list LexToken :=
  match l with
  | Some (LaTok t) => [t]
  | _ => []
  end.

Definition pending (c : config stream) : list LexToken :=
  la_tokens (lookahead c) ++ fst (lexer c).

(** A configuration of the loop on the tokens [all] with ending [e],
    started on the store [st0]: the stack holds what the shifted tokens
    reduce to, and the rest of the stream is still to come. *)
Definition config_inv (st0 : Program) (all : list LexToken) (e : ending)
    (c : config stream) : Prop :=
  exists syms toks,
    stack_inv st0 (stack c) syms toks (store c) /\
    all = toks ++ pending c /\
    snd (lexer c) = e /\
    (lookahead c = Some LaEnd -> lexer c = ([], AtEOF)).

(* ================================================================== *)
(** ** A measure of the work left *)
(* ================================================================== *)

(** Every reduction but the empty one replaces symbols by a lighter one. *)
Definition weight (X : symbol) : nat :=
  match X with
  | T END => 0
  | T _ => 3
  | N var_expr | N predicate => 2
  | N S' | N program => 0
  | N _ => 1
  end.

Definition stack_weight (stk : list entry) : nat :=
  list_sum (map (fun e => weight (sym e)) stk).

(** A token still in the stream costs four: three on the stack and one
    for the shift. *)
Definition pending_measure (la : option lookahead_sym) (lx : stream) : nat :=
  match la with
  | None => 4 * List.length (fst lx) + 2
  | Some (LaTok _) => 4 + 4 * List.length (fst lx) + 2
  | Some LaEnd => 0
  end.

Definition measure (c : config stream) : nat :=
  stack_weight (stack c)
  + pending_measure (lookahead c) (lexer c)
  + match stack c with
    | [_] => 1
    | _ => 0
    end.

(* ================================================================== *)
(** ** Reading what is stored *)
(* ================================================================== *)



Definition args_of (lit : obj) : option (list obj) :=
  match lit with
  | PyTuple [_; _; PyList a] => Some a
  | _ => None
  end.

(** The consequent and the antecedents of a stored rule. *)
Definition rule_literals (r : obj) : list obj :=
  match r with
  | PyTuple [c; PyList ants] => c :: ants
  | _ => []
  end.


Definition query_args (q : obj) : option (list obj) :=
  match q with
  | PyTuple [_; PyList a] => Some a
  | _ => None
  end.

(** What one run of [parseProgram] added to the store. *)
Record added : Type := {
  new_facts : list obj;
  new_rules : list obj;
  new_queries : list obj
}.

Definition adds (st st' : Program) (d : added) : Prop :=
  facts st' = facts st ++ new_facts d /\
  rules st' = rules st ++ new_rules d /\
  queries st' = queries st ++ new_queries d.

(** Every literal the run stored: the new facts and the literals of the
    new rules. *)
Definition stored_literals (d : added) : list obj :=
  new_facts d ++ flat_map rule_literals (new_rules d).


(** The table entry applied, [None] for a missing operator or a division
    by zero. *)
Definition arith (op : string) (x y : Z) : option Z :=
  match arithmetics op with
  | Some f => f x y
  | None => None
  end.

(* ================================================================== *)
(** ** Two runs on different stores *)
(* ================================================================== *)

(** The store [a] is the store [b] with the facts, rules and queries of
    [st0] in front. *)
Definition same_growth (st0 a b : Program) : Prop :=
  facts a = facts st0 ++ facts b /\
  rules a = rules st0 ++ rules b /\
  queries a = queries st0 ++ queries b.

Definition rel_result {A} (st0 : Program) (ra rb : result (A * Program))
    : Prop :=
  match ra, rb with
  | Ok (v, a'), Ok (w, b') => v = w /\ same_growth st0 a' b'
  | Raise e, Raise e' => e = e'
  | _, _ => False
  end.

(** An action that never looks at the facts, rules and queries already
    stored. *)
Definition oblivious {A} (m : M A) : Prop :=
  forall st0 a b, same_growth st0 a b -> rel_result st0 (m a) (m b).

Definition same_config (st0 : Program) (c1 c2 : config stream) : Prop :=
  stack c1 = stack c2 /\ lookahead c1 = lookahead c2 /\
  lexer c1 = lexer c2 /\ same_growth st0 (store c1) (store c2).

Definition rel_outcome (st0 : Program) (o1 o2 : outcome) : Prop :=
  match o1, o2 with
  | Parsed a, Parsed b => same_growth st0 a b
  | Parsed _, _ | _, Parsed _ => False
  | _, _ => o1 = o2
  end.

(* ================================================================== *)
(** ** Properties of the tokens of a derivation *)
(* ================================================================== *)

(** [derives_seq] with a property [P] of each symbol in place of its
    derivation: the induction hypothesis for a right-hand side. *)
Inductive seq_all
    (P : symbol -> list LexToken -> obj -> Program -> Program -> Prop)
  : list symbol -> list LexToken -> list obj -> Program -> Program -> Prop :=
| seq_all_nil st :
    seq_all P [] [] [] st st
| seq_all_cons X Xs t1 t2 v vs st st' st'' :
    P X t1 v st st' ->
    seq_all P Xs t2 vs st' st'' ->
    seq_all P (X :: Xs) (t1 ++ t2) (v :: vs) st st''.



(* ================================================================== *)
(** ** Declarations *)
(* ================================================================== *)

(** Induction on a Python value, with the hypothesis for every item of a
    tuple or list. *)
Fixpoint obj_ind' (P : obj -> Prop)
    (HNone : P PyNone)
    (HInt : forall z, P (PyInt z))
    (HStr : forall s, P (PyStr s))
    (HTuple : forall l, Forall P l -> P (PyTuple l))
    (HList : forall l, Forall P l -> P (PyList l))
    (o : obj) : P o :=
  let fix all (l : list obj) : Forall P l :=
    match l with
    | [] => Forall_nil P
    | x :: r =>
        Forall_cons x (obj_ind' P HNone HInt HStr HTuple HList x) (all r)
    end in
  match o with
  | PyNone => HNone
  | PyInt z => HInt z
  | PyStr s => HStr s
  | PyTuple l => HTuple l (all l)
  | PyList l => HList l (all l)
  end.

(** The declarations a token list holds, in source order: every identifier
    directly followed by a number, with the texts of both. *)
Fixpoint declarations (toks : list LexToken) : list (string * string) :=
  match toks with
  | [] => []
  | t :: rest =>
      match rest with
      | u :: _ =>
          if terminal_eqb (type t) IDENT && terminal_eqb (type u) NUMBER
          then (value t, value u) :: declarations rest
          else declarations rest
      | [] => []
      end
  end.

(** What [p_declaration] does to the mapping for one declaration. *)
Definition declare (d : dict) (nk : string * string) : dict :=
  dict_set d (PyStr (fst nk)) (PyInt (digits_value (snd nk) 0)).

(** The number text of the last declaration of [name], after [acc]. *)
Definition last_declared_from (acc : option string) (name : string)
    (ds : list (string * string)) : option string :=
  fold_left (fun a nk => if (fst nk =? name)%string then Some (snd nk) else a)
            ds acc.

Definition last_declared : string -> list (string * string) -> option string :=
  last_declared_from None.

Definition keys (d : dict) : list obj := map fst d.

(** An action that leaves the mapping of predicates alone. *)
Definition keeps_predicates {A} (m : M A) : Prop :=
  forall st v st', m st = Ok (v, st') -> predicates st' = predicates st.

(** What a derivation of [X] says about declarations and the mapping. *)
Definition decl_prop (X : symbol) (w : list LexToken) (v : obj)
    (st st' : Program) : Prop :=
  match X with
  | T a => exists t, w = [t] /\ type t = a /\ v = PyStr (value t) /\ st' = st
  | N S' | N program =>
      exists D,
        (forall r, declarations (w ++ r) = D ++ declarations r) /\
        predicates st' = fold_left declare D (predicates st)
  | N declaration =>
      exists nk,
        (forall r, declarations (w ++ r) = nk :: declarations r) /\
        predicates st' = declare (predicates st) nk
  | N _ =>
      (forall r, declarations (w ++ r) = declarations r) /\
      predicates st' = predicates st
  end.

(* ================================================================== *)
(** ** Arithmetic expressions without parentheses *)
(* ================================================================== *)

(** The Term [p_var_expr] makes of a single VAR or NUMBER token. *)
Definition term_of_atom (t : LexToken) : obj :=
  if str_isdigit (value t) then PyInt (digits_value (value t) 0)
  else PyStr (value t).





(** The loop goes from one configuration to another in some turns. *)
Inductive reaches : config stream -> config stream -> Prop :=
| reaches_refl c : reaches c c
| reaches_step c c' c'' :
    step_stream c = Continue c' -> reaches c' c'' -> reaches c c''.



(* ================================================================== *)
(** ** The allocator of variable identifiers *)
(* ================================================================== *)

(** [k] calls of [Program.next_var()] in a row: the values returned and
    the store after the last call. *)
Fixpoint next_vars (k : nat) (st : Program) : list Z * Program :=
  match k with
  | 0 => ([], st)
  | S k' =>
      let (v, st1) := next_var st in
      let (vs, st2) := next_vars k' st1 in
      (v :: vs, st2)
  end.

(** A failure of [parseProgram]: [t_error] or [p_error] has exited. *)
Definition failed (o : outcome) : Prop :=
  match o with
  | IllegalCharacter _ _ | SyntaxError _ => True
  | _ => False
  end.

(* ================================================================== *)
(** ** The text and its tokens *)
(* ================================================================== *)

(** The characters the lexer passes over without a token: those of
    [t_ignore] and the newline of [t_newline]. *)
Definition is_blank (c : ascii) : bool := t_ignore c || (code c =? 10).

Definition is_solid (c : ascii) : bool := negb (is_blank c).

(** The text without its blanks. *)
Fixpoint strip (s : string) : string :=
  match s with
  | EmptyString => EmptyString
  | String c r => if is_blank c then strip r else String c (strip r)
  end.

(** The texts of the tokens, one after the other. *)
Fixpoint concat_values (toks : list LexToken) : string :=
  match toks with
  | [] => EmptyString
  | t :: r => (value t ++ concat_values r)%string
  end.

Fixpoint count_newlines (s : string) : nat :=
  match s with
  | EmptyString => 0
  | String c r => (if code c =? 10 then 1 else 0) + count_newlines r
  end.

(** Whether the text starts with a character of the class [f]. *)
Definition first_is (f : ascii -> bool) (s : string) : bool :=
  match s with
  | String c _ => f c
  | EmptyString => false
  end.

(* ================================================================== *)
(** ** Counting what is written against what is stored *)
(* ================================================================== *)

(** The number of tokens of type [a]. *)
Definition count_type (a : terminal) (toks : list LexToken) : nat :=
  List.length (filter (fun t => terminal_eqb (type t) a) toks).

(** The parentheses, question marks and arrows among the tokens. *)
Definition marks (w : list LexToken) : nat * nat * nat :=
  (count_type LPAREN w, count_type QUESTION w, count_type ENTAILED w).

(** What the derivation of a symbol stores, against the marks of its
    tokens: every predicate application has one opening parenthesis, every
    query one question mark and every rule one arrow. *)
Definition count_prop (X : symbol) (w : list LexToken) (v : obj)
    (st st' : Program) : Prop :=
  match X with
  | T a => (exists t, w = [t] /\ type t = a) /\ st' = st
  | N S' | N program =>
      exists d,
        adds st st' d /\
        List.length (new_queries d) = count_type QUESTION w /\
        List.length (new_rules d) = count_type ENTAILED w /\
        List.length (stored_literals d) + List.length (new_queries d)
        = count_type LPAREN w
  | N declaration =>
      adds st st' {| new_facts := []; new_rules := []; new_queries := [] |} /\
      marks w = (0, 0, 0)
  | N fact =>
      (exists f,
          adds st st' {| new_facts := [f]; new_rules := [];
                         new_queries := [] |}) /\
      marks w = (1, 0, 0)
  | N query =>
      (exists q,
          adds st st' {| new_facts := []; new_rules := [];
                         new_queries := [q] |}) /\
      marks w = (1, 1, 0)
  | N rule =>
      exists c ants,
        adds st st' {| new_facts := []; new_rules := [PyTuple [c; PyList ants]];
                       new_queries := [] |} /\
        marks w = (S (List.length ants), 0, 1)
  | N params =>
      st' = st /\ (exists l, v = PyList l) /\ marks w = (0, 0, 0)
  | N var_expr => st' = st /\ marks w = (0, 0, 0)
  | N predicate => st' = st /\ marks w = (1, 0, 0)
  | N antecedents =>
      st' = st /\
      exists l, v = PyList l /\ marks w = (List.length l, 0, 0)
  end.

(** The type of the last token. *)
Fixpoint last_type (w : list LexToken) : option terminal :=
  match w with
  | [] => None
  | [t] => Some (type t)
  | _ :: r => last_type r
  end.

(** The tokens of a clause end with a period, those of a program too when
    there are any. *)
Definition period_prop (X : symbol) (w : list LexToken) (v : obj)
    (st st' : Program) : Prop :=
  match X with
  | T a => exists t, w = [t] /\ type t = a
  | N S' | N program => w = [] \/ last_type w = Some PERIOD
  | N declaration | N fact | N query | N rule => last_type w = Some PERIOD
  | N _ => True
  end.

(* ================================================================== *)
(** ** Writing the store back *)
(* ================================================================== *)

(** The text of the tokens that have one text only. *)
Definition spelling (a : terminal) : string :=
  match a with
  | LPAREN => "("
  | RPAREN => ")"
  | PERIOD => "."
  | COMMA => ","
  | ENTAILED => ":-"
  | QUESTION => "?"
  | NOT => "not"
  | _ => ""
  end.

(** What a token leaves in the values of the parser: a variable or a
    number the Term of [p_var_expr], a name or an operator its text, any
    other token the text of its type. *)
Definition image (t : LexToken) : obj :=
  match type t with
  | VAR | NUMBER => term_of_atom t
  | IDENT | PLUS | MINUS | TIMES | MOD => PyStr (value t)
  | a => PyStr (spelling a)
  end.

(** A token as a value: its text, and for a number the integer it
    denotes. *)
Definition written (t : LexToken) : obj :=
  match type t with
  | NUMBER => PyInt (digits_value (value t) 0)
  | _ => PyStr (value t)
  end.

(** A Term written back, left operand first. *)
Fixpoint unparse_term (v : obj) : list obj :=
  match v with
  | PyTuple [l; o; r] => unparse_term l ++ o :: unparse_term r
  | _ => [v]
  end.

(** The parts in their order, with [sep] between two of them. *)
Fixpoint join_with (sep : obj) (parts : list (list obj)) : list obj :=
  match parts with
  | [] => []
  | p :: r =>
      match r with
      | [] => p
      | _ => p ++ sep :: join_with sep r
      end
  end.

Definition unparse_args (l : list obj) : list obj :=
  join_with (PyStr ",") (map unparse_term l).

Definition unparse_literal (lit : obj) : list obj :=
  match lit with
  | PyTuple [PyInt s; n; PyList args] =>
      (if (s =? -1)%Z then [PyStr "not"] else [])
      ++ n :: PyStr "(" :: unparse_args args ++ [PyStr ")"]
  | _ => []
  end.

Definition unparse_fact (f : obj) : list obj :=
  unparse_literal f ++ [PyStr "."].

Definition unparse_query (q : obj) : list obj :=
  match q with
  | PyTuple [n; PyList args] =>
      PyStr "?" :: n :: PyStr "(" :: unparse_args args
      ++ [PyStr ")"; PyStr "."]
  | _ => []
  end.

(** A rule written back: the antecedents are stored last first, so the
    stored list is read from its end. *)
Definition unparse_rule (r : obj) : list obj :=
  match r with
  | PyTuple [c; PyList ants] =>
      unparse_literal c ++ PyStr ":-"
      :: join_with (PyStr ",") (map unparse_literal (rev ants))
      ++ [PyStr "."]
  | _ => []
  end.

(** [spells w d]: the images [w] are the clauses of [d] written back, the
    facts, the rules and the queries each in the order of their list, with
    declarations anywhere between them. *)
Inductive spells : list obj -> added -> Prop :=
| spells_nil :
    spells [] {| new_facts := []; new_rules := []; new_queries := [] |}
| spells_declaration w d n k :
    spells w d ->
    spells (w ++ [PyStr n; PyInt k; PyStr "."]) d
| spells_fact w d f :
    spells w d ->
    spells (w ++ unparse_fact f)
           {| new_facts := new_facts d ++ [f]; new_rules := new_rules d;
              new_queries := new_queries d |}
| spells_rule w d r :
    spells w d ->
    spells (w ++ unparse_rule r)
           {| new_facts := new_facts d; new_rules := new_rules d ++ [r];
              new_queries := new_queries d |}
| spells_query w d q :
    spells w d ->
    spells (w ++ unparse_query q)
           {| new_facts := new_facts d; new_rules := new_rules d;
              new_queries := new_queries d ++ [q] |}.

(** What the derivation of a symbol from tokens of the lexer computes,
    written back, is the images of the tokens. *)
Definition unparse_prop (X : symbol) (w : list LexToken) (v : obj)
    (st st' : Program) : Prop :=
  Forall tok_ok w ->
  match X with
  | T a => exists t, w = [t] /\ type t = a /\ v = PyStr (value t) /\ st' = st
  | N S' | N program =>
      exists d, adds st st' d /\ spells (map image w) d
  | N declaration =>
      adds st st' {| new_facts := []; new_rules := []; new_queries := [] |} /\
      exists n k, map image w = [PyStr n; PyInt k; PyStr "."]
  | N fact =>
      exists f,
        adds st st' {| new_facts := [f]; new_rules := [];
                       new_queries := [] |} /\
        unparse_fact f = map image w
  | N query =>
      exists q,
        adds st st' {| new_facts := []; new_rules := [];
                       new_queries := [q] |} /\
        unparse_query q = map image w
  | N rule =>
      exists r,
        adds st st' {| new_facts := []; new_rules := [r];
                       new_queries := [] |} /\
        unparse_rule r = map image w
  | N params =>
      st' = st /\
      exists l, v = PyList l /\ l <> [] /\ unparse_args l = map image w
  | N var_expr => st' = st /\ unparse_term v = map image w
  | N predicate => st' = st /\ unparse_literal v = map image w
  | N antecedents =>
      st' = st /\
      exists l,
        v = PyList l /\ l <> [] /\
        join_with (PyStr ",") (map unparse_literal (rev l)) = map image w
  end.

(** A character no token starts with: no letter, no digit, and none of the
    characters that are a token of their own. *)
Definition starts_no_token (c : ascii) : bool :=
  negb (is_lower c) && negb (is_upper c) && negb (is_digit c)
  && match single c with Some _ => false | None => true end.

(* ================================================================== *)
(** * Properties *)
(* ================================================================== *)

(** ** Equality tests *)

Lemma terminal_eqb_eq a b : terminal_eqb a b = true <-> a = b.
Proof. destruct a, b; simpl; split; intro H; try reflexivity; discriminate. Qed.

Lemma nonterminal_eqb_eq a b : nonterminal_eqb a b = true <-> a = b.
Proof. destruct a, b; simpl; split; intro H; try reflexivity; discriminate. Qed.

Lemma symbol_eqb_eq a b : symbol_eqb a b = true <-> a = b.
Proof.
  destruct a as [x|x], b as [y|y]; simpl.
  - rewrite terminal_eqb_eq. split; [intros ->; reflexivity | intros [= ->]; reflexivity].
  - split; discriminate.
  - split; discriminate.
  - rewrite nonterminal_eqb_eq. split; [intros ->; reflexivity | intros [= ->]; reflexivity].
Qed.

Lemma item_eqb_eq i j : item_eqb i j = true <-> i = j.
Proof.
  destruct i as [n d a], j as [m e b]; unfold item_eqb; simpl.
  rewrite !andb_true_iff, !Nat.eqb_eq, terminal_eqb_eq.
  split.
  - intros [[-> ->] ->]. reflexivity.
  - intros [= -> -> ->]. auto.
Qed.
(** ** The lexer and its token stream *)

Lemma span_length f s a b :
  span f s = (a, b) -> String.length b <= String.length s.
Proof.
  revert a b. induction s as [|c r IH]; intros a b H; simpl in H.
  - inversion H; subst. simpl. lia.
  - destruct (f c).
    + destruct (span f r) as [a' b'] eqn:E. inversion H; subst.
      specialize (IH _ _ eq_refl). simpl. lia.
    + inversion H; subst. simpl. lia.
Qed.

Lemma t_IDENT_same t : value (t_IDENT t) = value t /\ lineno (t_IDENT t) = lineno t.
Proof. unfold t_IDENT. destruct (value t =? "not")%string; simpl; auto. Qed.

Lemma token_from_shorter s line t l' :
  token_from s line = LexTok t l' ->
  String.length (lexdata l') < String.length s.
Proof.
  revert line. induction s as [|c r IH]; intros line H; simpl in H.
  - discriminate.
  - destruct (t_ignore c). { apply IH in H. simpl. lia. }
    destruct (code c =? 10). { apply IH in H. simpl. lia. }
    destruct (is_lower c).
    { destruct (span is_word r) as [w r'] eqn:E. inversion H; subst; simpl.
      apply span_length in E. lia. }
    destruct (is_upper c).
    { destruct (span is_word r) as [w r'] eqn:E. inversion H; subst; simpl.
      apply span_length in E. lia. }
    destruct (is_digit c).
    { destruct (span is_digit r) as [w r'] eqn:E. inversion H; subst; simpl.
      apply span_length in E. lia. }
    destruct (single c).
    { inversion H; subst; simpl. lia. }
    destruct (code c =? 58); [|discriminate].
    destruct r as [|d r']; [discriminate|].
    destruct (code d =? 45); [|discriminate].
    inversion H; subst; simpl. lia.
Qed.

Lemma scan_from_enough fuel l :
  String.length (lexdata l) < fuel ->
  scan_from fuel l = scan_lexer l.
Proof.
  unfold scan_lexer.
  remember (String.length (lexdata l)) as n eqn:Hn.
  revert l Hn fuel. induction n as [n IH] using lt_wf_ind.
  intros l Hn fuel Hlt.
  destruct fuel as [|k]; [lia|].
  simpl. destruct (token l) as [t l'| |c line] eqn:E; try reflexivity.
  pose proof (token_from_shorter _ _ _ _ E) as Hs.
  rewrite <- Hn in Hs.
  rewrite (IH _ Hs l' eq_refl k) by lia.
  rewrite (IH _ Hs l' eq_refl n) by lia.
  reflexivity.
Qed.

Lemma scan_lexer_tok l t l' :
  token l = LexTok t l' ->
  scan_lexer l = (t :: fst (scan_lexer l'), snd (scan_lexer l')).
Proof.
  intros E. unfold scan_lexer at 1. simpl. rewrite E.
  rewrite scan_from_enough.
  - destruct (scan_lexer l'); reflexivity.
  - apply token_from_shorter in E. exact E.
Qed.

Lemma scan_lexer_eof l : token l = LexEOF -> scan_lexer l = ([], AtEOF).
Proof. intros E. unfold scan_lexer. simpl. rewrite E. reflexivity. Qed.

Lemma scan_lexer_illegal l c line :
  token l = LexIllegal c line -> scan_lexer l = ([], AtIllegal c line).
Proof. intros E. unfold scan_lexer. simpl. rewrite E. reflexivity. Qed.

Lemma scan_lexer_length l :
  List.length (fst (scan_lexer l)) <= String.length (lexdata l).
Proof.
  remember (String.length (lexdata l)) as n eqn:Hn.
  revert l Hn. induction n as [n IH] using lt_wf_ind. intros l Hn.
  destruct (token l) as [t l'| |c line] eqn:E.
  - rewrite (scan_lexer_tok _ _ _ E). simpl.
    pose proof (token_from_shorter _ _ _ _ E) as Hs.
    rewrite <- Hn in Hs.
    specialize (IH _ Hs l' eq_refl). lia.
  - rewrite (scan_lexer_eof _ E). simpl. lia.
  - rewrite (scan_lexer_illegal _ _ _ E). simpl. lia.
Qed.

(** The loop on the lexer and the loop on its token stream take the same
    turns. *)
Lemma step_on_stream (c : config Lexer) :
  step_stream (on_stream c) =
  match step Lexer token c with
  | Continue c' => Continue (on_stream c')
  | Done o => Done o
  end.
Proof.
  unfold step_stream, step, fetch. simpl.
  destruct (stack c) as [|top rest]; [reflexivity|].
  destruct (lookahead c) as [l|].
  - destruct (lr_action (st_of top) (la_type l)); try reflexivity.
    destruct (nth_error Productions n); [|reflexivity].
    destruct (callable p _ (store c)) as [[v st']|e]; [|reflexivity].
    destruct (skipn _ _); reflexivity.
  - destruct (token (lexer c)) as [t l'| |ch line] eqn:E.
    + rewrite (scan_lexer_tok _ _ _ E). simpl.
      destruct (lr_action (st_of top) (type t)); try reflexivity.
      * unfold on_stream; simpl. destruct (scan_lexer l'); reflexivity.
      * destruct (nth_error Productions n); [|reflexivity].
        destruct (callable p _ (store c)) as [[v st']|e]; [|reflexivity].
        destruct (skipn _ _); [reflexivity|].
        unfold on_stream; simpl. destruct (scan_lexer l'); reflexivity.
    + rewrite (scan_lexer_eof _ E). simpl.
      destruct (lr_action (st_of top) END); try reflexivity.
      * unfold on_stream; simpl. rewrite (scan_lexer_eof _ E). reflexivity.
      * destruct (nth_error Productions n); [|reflexivity].
        destruct (callable p _ (store c)) as [[v st']|e]; [|reflexivity].
        destruct (skipn _ _); [reflexivity|].
        unfold on_stream; simpl. rewrite (scan_lexer_eof _ E). reflexivity.
    + rewrite (scan_lexer_illegal _ _ _ E). reflexivity.
Qed.

Lemma run_on_stream fuel (c : config Lexer) :
  run Lexer token fuel c = run_stream fuel (on_stream c).
Proof.
  revert c. induction fuel as [|k IH]; intros c; [reflexivity|].
  unfold run_stream. simpl.
  fold (step_stream (on_stream c)). rewrite step_on_stream.
  destruct (step Lexer token c) as [c'|o]; [|reflexivity].
  apply IH.
Qed.

Lemma parseProgram_stream text st :
  parseProgram text st =
  run_stream (4 * String.length text + 4) (start stream (scan text) st).
Proof. unfold parseProgram. rewrite run_on_stream. reflexivity. Qed.

(** ** What the lexer guarantees of its tokens *)

Lemma single_text c ty :
  single c = Some ty ->
  tok_ok {| type := ty; value := String c EmptyString; lineno := 0 |}.
Proof.
  destruct c as [[] [] [] [] [] [] [] []]; vm_compute; intros H;
    try discriminate; injection H as <-; exact I || reflexivity.
Qed.

Lemma all_digits_span r w r' :
  span is_digit r = (w, r') -> all_chars is_digit w = true.
Proof.
  revert w r'. induction r as [|c r IH]; intros w r' H; simpl in H.
  - inversion H. reflexivity.
  - destruct (is_digit c) eqn:D.
    + destruct (span is_digit r) as [a b]. inversion H; subst. simpl.
      rewrite D. apply (IH _ _ eq_refl).
    + inversion H. reflexivity.
Qed.

Lemma upper_not_digit c : is_upper c = true -> is_digit c = false.
Proof.
  unfold is_upper, is_digit. rewrite andb_true_iff, !Nat.leb_le.
  intros [H1 H2]. apply andb_false_iff. right. apply Nat.leb_gt. lia.
Qed.

Lemma t_IDENT_ok t : type t = IDENT -> tok_ok (t_IDENT t).
Proof.
  intros Ht. unfold t_IDENT.
  destruct (value t =? "not")%string eqn:Q.
  - apply String.eqb_eq in Q. unfold tok_ok. cbn [type value]. exact Q.
  - apply String.eqb_neq in Q. unfold tok_ok. rewrite Ht. exact Q.
Qed.

Lemma token_from_ok s line t l' :
  token_from s line = LexTok t l' -> tok_ok t.
Proof.
  revert line. induction s as [|c r IH]; intros line H; simpl in H.
  - discriminate.
  - destruct (t_ignore c). { apply IH in H. exact H. }
    destruct (code c =? 10). { apply IH in H. exact H. }
    destruct (is_lower c).
    { destruct (span is_word r) as [w r'] eqn:E. inversion H; subst.
      apply t_IDENT_ok. reflexivity. }
    destruct (is_upper c) eqn:U.
    { destruct (span is_word r) as [w r'] eqn:E. inversion H; subst.
      unfold tok_ok. simpl. rewrite (upper_not_digit _ U). reflexivity. }
    destruct (is_digit c) eqn:D.
    { destruct (span is_digit r) as [w r'] eqn:E. inversion H; subst.
      unfold tok_ok. simpl. rewrite D. simpl.
      apply (all_digits_span _ _ _ E). }
    destruct (single c) eqn:Sg.
    { inversion H; subst. apply single_text in Sg.
      unfold tok_ok in *. simpl in *. exact Sg. }
    destruct (code c =? 58); [|discriminate].
    destruct r as [|d r']; [discriminate|].
    destruct (code d =? 45); [|discriminate].
    inversion H; subst. exact I.
Qed.

Lemma scan_lexer_ok l : Forall tok_ok (fst (scan_lexer l)).
Proof.
  remember (String.length (lexdata l)) as n eqn:Hn.
  revert l Hn. induction n as [n IH] using lt_wf_ind. intros l Hn.
  destruct (token l) as [t l'| |c line] eqn:E.
  - rewrite (scan_lexer_tok _ _ _ E). simpl. constructor.
    + apply (token_from_ok _ _ _ _ E).
    + pose proof (token_from_shorter _ _ _ _ E) as Hs.
      rewrite <- Hn in Hs. apply (IH _ Hs l' eq_refl).
  - rewrite (scan_lexer_eof _ E). constructor.
  - rewrite (scan_lexer_illegal _ _ _ E). constructor.
Qed.

(** ** The item sets *)

Lemma numbered_In {A} (l : list A) n k q :
  In (k, q) (numbered n l) -> n <= k /\ nth_error l (k - n) = Some q.
Proof.
  revert n. induction l as [|x r IH]; intros n H; simpl in H; [contradiction|].
  destruct H as [H|H].
  - inversion H; subst. rewrite Nat.sub_diag. split; [lia|reflexivity].
  - apply IH in H. destruct H as [H1 H2]. split; [lia|].
    replace (k - n) with (S (k - S n)) by lia. exact H2.
Qed.

Lemma expand_spec j i :
  In i (expand j) ->
  lr_index i = 0 /\
  exists p B beta q,
    nth_error Productions (number j) = Some p /\
    skipn (lr_index j) (prod p) = N B :: beta /\
    nth_error Productions (number i) = Some q /\
    name q = B.
Proof.
  unfold expand. intros H.
  destruct (nth_error Productions (number j)) as [p|] eqn:Hp; [|contradiction].
  destruct (skipn (lr_index j) (prod p)) as [|[t|B] beta] eqn:Hs;
    try contradiction.
  apply in_flat_map in H. destruct H as [[k q] [Hk H]].
  cbn [fst snd] in H.
  destruct (nonterminal_eqb (name q) B) eqn:HB; [|contradiction].
  apply in_map_iff in H. destruct H as [b [<- _]].
  apply numbered_In in Hk. destruct Hk as [_ Hk].
  rewrite Nat.sub_0_r in Hk.
  apply nonterminal_eqb_eq in HB.
  split; [reflexivity|].
  exists p, B, beta, q. cbn [number]. auto.
Qed.

Lemma add_item_In I i x : In x (add_item I i) -> In x I \/ x = i.
Proof.
  unfold add_item. destruct (existsb (item_eqb i) I); intros H; auto.
  apply in_app_or in H. destruct H as [H|[H|[]]]; auto.
Qed.

Lemma fold_add_item_In l I x :
  In x (fold_left add_item l I) -> In x I \/ In x l.
Proof.
  revert I. induction l as [|i l IH]; intros I H; simpl in H; auto.
  apply IH in H. destruct H as [H|H]; [|right; right; exact H].
  apply add_item_In in H. destruct H as [H| ->]; [left|right; left]; auto.
Qed.

Lemma closure_round_In I x :
  In x (closure_round I) -> In x I \/ exists j, In j I /\ In x (expand j).
Proof.
  unfold closure_round. intros H. apply fold_add_item_In in H.
  destruct H as [H|H]; auto.
  apply in_flat_map in H. right. exact H.
Qed.

(** A property of items that the kernel has and that [expand] hands on
    holds of the whole closure. *)
Lemma closure_loop_preserves (P : item -> Prop) :
  (forall j i, P j -> In i (expand j) -> P i) ->
  forall fuel I, (forall i, In i I -> P i) ->
  forall i, In i (closure_loop fuel I) -> P i.
Proof.
  intros Hexp. induction fuel as [|k IH]; intros I HI i Hi; simpl in Hi.
  - auto.
  - destruct (List.length (closure_round I) =? List.length I); auto.
    apply (IH (closure_round I)); auto.
    intros x Hx. apply closure_round_In in Hx.
    destruct Hx as [Hx|[j [Hj Hx]]]; auto.
    apply (Hexp j); auto.
Qed.

Lemma closure_preserves (P : item -> Prop) :
  (forall j i, P j -> In i (expand j) -> P i) ->
  forall I, (forall i, In i I -> P i) ->
  forall i, In i (closure I) -> P i.
Proof. intros H I. apply closure_loop_preserves. exact H. Qed.

(** The closure adds only items with the dot in front. *)
Lemma closure_kernel I i :
  In i (closure I) -> In i I \/ lr_index i = 0.
Proof.
  apply (closure_preserves (fun i => In i I \/ lr_index i = 0)).
  - intros j x _ Hx. right. apply expand_spec in Hx. tauto.
  - auto.
Qed.

Lemma advance_spec X j i :
  In i (advance X j) ->
  exists p,
    nth_error Productions (number j) = Some p /\
    nth_error (prod p) (lr_index j) = Some X /\
    i = {| number := number j; lr_index := S (lr_index j); look := look j |}.
Proof.
  unfold advance. intros H.
  destruct (nth_error Productions (number j)) as [p|]; [|contradiction].
  destruct (nth_error (prod p) (lr_index j)) as [Y|] eqn:HY; [|contradiction].
  destruct (symbol_eqb X Y) eqn:E; [|contradiction].
  apply symbol_eqb_eq in E. subst Y.
  destruct H as [<-|[]]. exists p. auto.
Qed.

Lemma goto_In I X i :
  In i (goto I X) ->
  lr_index i = 0 \/ exists j, In j I /\ In i (advance X j).
Proof.
  unfold goto. intros H. apply closure_kernel in H.
  destruct H as [H|H]; auto.
  apply in_flat_map in H. right. exact H.
Qed.

Lemma firstn_S_nth {A} (l : list A) d x :
  nth_error l d = Some x -> firstn (S d) l = firstn d l ++ [x].
Proof.
  revert d. induction l as [|a l IH]; intros d H.
  - destruct d; discriminate.
  - destruct d as [|d]; simpl in *.
    + inversion H. reflexivity.
    + f_equal. apply IH. exact H.
Qed.

Lemma item_ok_front syms i q :
  nth_error Productions (number i) = Some q -> lr_index i = 0 ->
  item_ok syms i.
Proof.
  intros Hq H0. exists q. rewrite H0. simpl. split; [exact Hq|]. split; [lia|reflexivity].
Qed.

Lemma goto_item_ok I X syms :
  (forall i, In i I -> item_ok syms i) ->
  forall i, In i (goto I X) -> item_ok (X :: syms) i.
Proof.
  intros HI. unfold goto.
  apply closure_preserves.
  - intros j i _ Hi. apply expand_spec in Hi.
    destruct Hi as [H0 (p & B & beta & q & _ & _ & Hq & _)].
    apply (item_ok_front _ _ q); auto.
  - intros i Hi. apply in_flat_map in Hi. destruct Hi as [j [Hj Hi]].
    apply advance_spec in Hi. destruct Hi as [p [Hp [HX ->]]].
    destruct (HI j Hj) as [p' [Hp' [Hlen Hpre]]].
    rewrite Hp in Hp'. inversion Hp'; subst p'.
    exists p. cbn [number lr_index]. split; [exact Hp|].
    split; [simpl; lia|].
    rewrite (firstn_S_nth _ _ _ HX). simpl. rewrite Hpre. reflexivity.
Qed.

(** [program] stands only at the front of the productions of [S'] and
    [program]; [S'] stands in no right-hand side. *)
Lemma starts_program n p d B beta :
  nth_error Productions n = Some p ->
  skipn d (prod p) = N B :: beta ->
  B = S' \/ B = program ->
  d = 0 /\ (name p = S' \/ name p = program).
Proof.
  intros Hn Hs HB.
  do 23 (destruct n as [|n];
    [ injection Hn as <-; simpl in Hs;
      repeat (first [discriminate Hs | destruct d as [|d]; simpl in Hs]);
      injection Hs as HB' _; subst B;
      solve [ destruct HB as [HB|HB]; discriminate HB
            | split; [reflexivity | simpl; auto] ] | ]).
  destruct n; discriminate.
Qed.

Lemma goto_no_start I X : no_start (goto I X).
Proof.
  unfold no_start, goto.
  pose (P := fun i : item =>
    forall p, nth_error Productions (number i) = Some p ->
              lr_index i = 0 -> name p <> S' /\ name p <> program).
  assert (H : forall i, In i (closure (flat_map (advance X) I)) -> P i).
  { apply closure_preserves.
    - intros j i Pj Hi. apply expand_spec in Hi.
      destruct Hi as [H0 (p & B & beta & q & Hp & Hs & Hq & HB)].
      intros q' Hq' _. rewrite Hq in Hq'. inversion Hq'; subst q'.
      rewrite HB.
      assert (HnB : ~ (B = S' \/ B = program)).
      { intros HB'. destruct (starts_program _ _ _ _ _ Hp Hs HB') as [Hd Hn].
        destruct (Pj p Hp Hd) as [H1 H2]. tauto. }
      tauto.
    - intros i Hi. apply in_flat_map in Hi. destruct Hi as [j [_ Hi]].
      apply advance_spec in Hi. destruct Hi as [p [_ [_ ->]]].
      intros q _ H0. discriminate H0. }
  intros i p Hi. apply (H i Hi).
Qed.

(** ** The grammar actions on the slices the parser hands them *)

Lemma obj_eqb_str s s' : obj_eqb (PyStr s) (PyStr s') = (s =? s')%string.
Proof. reflexivity. Qed.

Lemma p_program_eq p st : p_program p st = Ok (PyNone, st).
Proof. reflexivity. Qed.

Lemma p_declaration_eq name digits dot st :
  str_isdigit digits = true ->
  p_declaration [PyNone; PyStr name; PyStr digits; dot] st =
  Ok (PyNone, set_predicate (PyStr name) (PyInt (digits_value digits 0)) st).
Proof.
  intros H. unfold p_declaration, bind, getitem, ret, py_int; simpl.
  rewrite H. reflexivity.
Qed.

Lemma p_fact_plain name lp args rp dot st :
  name <> "not" ->
  p_fact [PyNone; PyStr name; lp; args; rp; dot] st =
  Ok (PyNone, add_fact (PyTuple [PyInt 1; PyStr name; args]) st).
Proof.
  intros H. unfold p_fact, bind, getitem, ret. cbn [nth_error].
  rewrite obj_eqb_str. apply String.eqb_neq in H. rewrite H. reflexivity.
Qed.

Lemma p_fact_not name lp args rp dot st :
  p_fact [PyNone; PyStr "not"; name; lp; args; rp; dot] st =
  Ok (PyNone, add_fact (PyTuple [PyInt (-1); name; args]) st).
Proof. reflexivity. Qed.

Lemma p_query_eq q name lp args rp dot st :
  p_query [PyNone; q; name; lp; args; rp; dot] st =
  Ok (PyNone, add_query (PyTuple [name; args]) st).
Proof. reflexivity. Qed.

Lemma p_params_one v st :
  p_params [PyNone; v] st = Ok (PyList [v], st).
Proof. reflexivity. Qed.

Lemma p_params_more args comma v st :
  p_params [PyNone; PyList args; comma; v] st = Ok (PyList (args ++ [v]), st).
Proof. reflexivity. Qed.

Lemma p_var_expr_atom s st :
  p_var_expr [PyNone; PyStr s] st =
  Ok (if str_isdigit s then PyInt (digits_value s 0) else PyStr s, st).
Proof.
  unfold p_var_expr, bind, getitem, ret, isdigit, py_int.
  cbn [List.length Nat.ltb Nat.leb nth_error].
  destruct (str_isdigit s); reflexivity.
Qed.

Lemma p_var_expr_binary l o r st :
  p_var_expr [PyNone; l; o; r] st = Ok (PyTuple [l; o; r], st).
Proof. reflexivity. Qed.

Lemma p_predicate_plain name lp args rp st :
  name <> "not" ->
  p_predicate [PyNone; PyStr name; lp; args; rp] st =
  Ok (PyTuple [PyInt 1; PyStr name; args], st).
Proof.
  intros H. unfold p_predicate, bind, getitem, ret. cbn [nth_error].
  rewrite obj_eqb_str. apply String.eqb_neq in H. rewrite H. reflexivity.
Qed.

Lemma p_predicate_not name lp args rp st :
  p_predicate [PyNone; PyStr "not"; name; lp; args; rp] st =
  Ok (PyTuple [PyInt (-1); name; args], st).
Proof. reflexivity. Qed.

Lemma p_antecedents_one v st :
  p_antecedents [PyNone; v] st = Ok (PyList [v], st).
Proof. reflexivity. Qed.

Lemma p_antecedents_more v comma tail st :
  p_antecedents [PyNone; v; comma; PyList tail] st =
  Ok (PyList (tail ++ [v]), st).
Proof. reflexivity. Qed.

Lemma p_rule_eq c arrow ants dot st :
  p_rule [PyNone; c; arrow; ants; dot] st =
  Ok (PyNone, add_rule (PyTuple [c; ants]) st).
Proof. reflexivity. Qed.

(** ** Stores only grow *)

Lemma extends_refl st : extends st st.
Proof.
  exists [], [], []. rewrite !app_nil_r. repeat split; constructor.
Qed.

Lemma extends_trans a b c : extends a b -> extends b c -> extends a c.
Proof.
  intros (f1 & r1 & q1 & Hf1 & Hr1 & Hq1 & Ff1 & Fr1 & Fq1 & Hn1)
         (f2 & r2 & q2 & Hf2 & Hr2 & Hq2 & Ff2 & Fr2 & Fq2 & Hn2).
  exists (f1 ++ f2), (r1 ++ r2), (q1 ++ q2).
  rewrite Hf2, Hf1, Hr2, Hr1, Hq2, Hq1, !app_assoc.
  repeat split; try (apply Forall_app; split; assumption).
  congruence.
Qed.

Lemma extends_add_fact x st : is_literal x -> extends st (add_fact x st).
Proof.
  intros H. exists [x], [], []. simpl. rewrite !app_nil_r.
  repeat split; repeat constructor. exact H.
Qed.

Lemma extends_add_rule x st : is_rule x -> extends st (add_rule x st).
Proof.
  intros H. exists [], [x], []. simpl. rewrite !app_nil_r.
  repeat split; repeat constructor. exact H.
Qed.

Lemma extends_add_query x st : is_query x -> extends st (add_query x st).
Proof.
  intros H. exists [], [], [x]. simpl. rewrite !app_nil_r.
  repeat split; repeat constructor. exact H.
Qed.

Lemma extends_set_predicate k v st : extends st (set_predicate k v st).
Proof.
  exists [], [], []. simpl. rewrite !app_nil_r. repeat split; constructor.
Qed.

(** ** Every action succeeds on well-formed values and returns one *)

Ltac inv_Forall2 :=
  repeat match goal with
  | H : Forall2 _ (_ :: _) _ |- _ => inversion H; clear H; subst
  | H : Forall2 _ [] _ |- _ => inversion H; clear H; subst
  end.

Ltac open_vals :=
  repeat match goal with
  | H : val_ok _ _ |- _ => progress cbn [val_ok] in H
  | H : is_literal _ |- _ =>
      let s := fresh "sg" in let n := fresh "nm" in
      let a := fresh "ags" in
      destruct H as (s & n & a & ? & ? & ? & ? & ?)
  | H : exists _, _ |- _ => destruct H
  | H : _ /\ _ |- _ => destruct H
  end; subst.

(** Case analysis on the number of a production. *)
Ltac by_production Hn n tac :=
  first [ solve [ destruct n; simpl in Hn; discriminate Hn ]
        | destruct n as [|n]; [ tac | by_production Hn n tac ] ].

Lemma is_literal_intro sign name args :
  (sign = 1 \/ sign = -1)%Z -> name <> "not" -> args <> [] ->
  Forall is_term args ->
  is_literal (PyTuple [PyInt sign; PyStr name; PyList args]).
Proof. intros. exists sign, name, args. auto. Qed.

Lemma app_not_nil {A} (l : list A) x : l ++ [x] <> [].
Proof. destruct l; discriminate. Qed.

Lemma action_typed n p vals st :
  nth_error Productions n = Some p ->
  Forall2 val_ok (prod p) vals ->
  exists v st',
    callable p (PyNone :: vals) st = Ok (v, st') /\
    val_ok (N (name p)) v /\ extends st st'.
Proof.
  intros Hn HF.
  by_production Hn n ltac:(idtac).
  all: simpl in Hn; injection Hn as <-; cbn [prod mk] in HF.
  all: inv_Forall2; open_vals; cbn [callable name mk val_ok].
  (* S' and program *)
  1-6: (eexists; eexists; split; [reflexivity|]; split;
        [reflexivity | apply extends_refl]).
  - (* declaration *)
    eexists; eexists; split; [apply p_declaration_eq; assumption|].
    split; [reflexivity | apply extends_set_predicate].
  - (* fact *)
    eexists; eexists; split; [apply p_fact_plain; assumption|].
    split; [reflexivity|]. apply extends_add_fact.
    apply is_literal_intro; auto.
  - eexists; eexists; split; [apply p_fact_not|].
    split; [reflexivity|]. apply extends_add_fact.
    apply is_literal_intro; auto.
  - (* query *)
    eexists; eexists; split; [apply p_query_eq|].
    split; [reflexivity|]. apply extends_add_query.
    eexists; eexists; eauto.
  - (* params *)
    eexists; eexists; split; [apply p_params_one|].
    split; [|apply extends_refl].
    eexists; split; [reflexivity|]. split; [discriminate|]. auto.
  - eexists; eexists; split; [apply p_params_more|].
    split; [|apply extends_refl].
    eexists; split; [reflexivity|]. split; [apply app_not_nil|].
    apply Forall_app; auto.
  - (* var_expr *)
    eexists; eexists; split; [apply p_var_expr_atom|].
    split; [|apply extends_refl].
    destruct (str_isdigit x); constructor.
  - eexists; eexists; split; [apply p_var_expr_atom|].
    split; [|apply extends_refl].
    destruct (str_isdigit x); constructor.
  - eexists; eexists; split; [apply p_var_expr_binary|].
    split; [|apply extends_refl]. constructor; unfold arith_op; auto.
  - eexists; eexists; split; [apply p_var_expr_binary|].
    split; [|apply extends_refl]. constructor; unfold arith_op; auto.
  - eexists; eexists; split; [apply p_var_expr_binary|].
    split; [|apply extends_refl]. constructor; unfold arith_op; auto.
  - eexists; eexists; split; [apply p_var_expr_binary|].
    split; [|apply extends_refl]. constructor; unfold arith_op; auto.
  - (* predicate *)
    eexists; eexists; split; [apply p_predicate_plain; assumption|].
    split; [|apply extends_refl]. apply is_literal_intro; auto.
  - eexists; eexists; split; [apply p_predicate_not|].
    split; [|apply extends_refl]. apply is_literal_intro; auto.
  - (* antecedents *)
    eexists; eexists; split; [apply p_antecedents_one|].
    split; [|apply extends_refl].
    eexists; split; [reflexivity|]. split; [discriminate|].
    constructor; [|constructor]. apply is_literal_intro; auto.
  - eexists; eexists; split; [apply p_antecedents_more|].
    split; [|apply extends_refl].
    eexists; split; [reflexivity|]. split; [apply app_not_nil|].
    apply Forall_app; split; [assumption|].
    constructor; [|constructor]. apply is_literal_intro; auto.
  - (* rule *)
    eexists; eexists; split; [apply p_rule_eq|].
    split; [reflexivity|]. apply extends_add_rule.
    eexists; eexists. split; [reflexivity|].
    split; [apply is_literal_intro; auto|]. auto.
Qed.

(** ** Values and stores of a derivation *)

Lemma token_val_ok t : tok_ok t -> val_ok (T (type t)) (PyStr (value t)).
Proof.
  unfold tok_ok. destruct (type t); cbn [val_ok]; intros H;
    try contradiction; try (rewrite H; reflexivity); eauto.
Qed.

Lemma derives_typed :
  (forall X toks v st st',
      derives X toks v st st' ->
      Forall tok_ok toks -> val_ok X v /\ extends st st') /\
  (forall Xs toks vals st st',
      derives_seq Xs toks vals st st' ->
      Forall tok_ok toks -> Forall2 val_ok Xs vals /\ extends st st').
Proof.
  apply derives_mutind.
  - intros t st H. inversion H; subst. split.
    + apply token_val_ok. assumption.
    + apply extends_refl.
  - intros n p toks vals v st st' st'' Hn _ IH Hcall Htoks.
    destruct (IH Htoks) as [HF Hext].
    destruct (action_typed n p vals st' Hn HF) as (v0 & s0 & Hc & Hv & He).
    rewrite Hc in Hcall. inversion Hcall; subst.
    split; [exact Hv|]. eapply extends_trans; eassumption.
  - intros st _. split; [constructor | apply extends_refl].
  - intros X Xs t1 t2 v vs st st' st'' _ IH1 _ IH2 Htoks.
    apply Forall_app in Htoks. destruct Htoks as [H1 H2].
    destruct (IH1 H1) as [Hv He1]. destruct (IH2 H2) as [Hvs He2].
    split; [constructor; assumption|]. eapply extends_trans; eassumption.
Qed.

Lemma derives_seq_snoc Xs t1 vs st st' X t2 v st'' :
  derives_seq Xs t1 vs st st' ->
  derives X t2 v st' st'' ->
  derives_seq (Xs ++ [X]) (t1 ++ t2) (vs ++ [v]) st st''.
Proof.
  intros H. revert X t2 v st''.
  induction H as [st|X0 Xs ta tb v0 vs st sta stb H0 Hs IH];
    intros X t2 v st'' HX.
  - simpl. rewrite <- (app_nil_r t2). econstructor; [exact HX|constructor].
  - simpl. rewrite <- app_assoc. econstructor; [exact H0|].
    apply IH. exact HX.
Qed.

(** ** The stack and the items of its states *)

Lemma state0_items i : In i state0 -> item_ok [] i.
Proof.
  unfold state0. apply closure_preserves.
  - intros j x _ Hx. apply expand_spec in Hx.
    destruct Hx as [H0 (p & B & beta & q & _ & _ & Hq & _)].
    apply (item_ok_front _ _ q); auto.
  - intros x [<-|[]]. eapply item_ok_front; reflexivity.
Qed.

Lemma stack_inv_items st0 stk syms toks st :
  stack_inv st0 stk syms toks st ->
  forall e rest, stk = e :: rest ->
  forall i, In i (st_of e) -> item_ok syms i.
Proof.
  induction 1 as [|e below stk syms toks seg st st' Hinv IH Hd Hst];
    intros e0 rest Heq i Hi; inversion Heq; subst.
  - apply state0_items. exact Hi.
  - rewrite Hst in Hi. revert i Hi. apply goto_item_ok.
    intros j Hj. eapply IH; [reflexivity|exact Hj].
Qed.

Lemma stack_inv_length st0 stk syms toks st :
  stack_inv st0 stk syms toks st -> List.length stk = S (List.length syms).
Proof. induction 1; simpl; auto. Qed.

Lemma stack_inv_pop st0 k :
  forall stk syms toks st,
    stack_inv st0 stk syms toks st -> k <= List.length syms ->
    exists toks1 seg st1,
      stack_inv st0 (skipn k stk) (skipn k syms) toks1 st1 /\
      derives_seq (rev (firstn k syms)) seg
                  (map val (rev (firstn k stk))) st1 st /\
      toks = toks1 ++ seg.
Proof.
  induction k as [|k IH]; intros stk syms toks st Hinv Hk.
  - exists toks, [], st. simpl. rewrite app_nil_r.
    split; [exact Hinv|]. split; [constructor|reflexivity].
  - inversion Hinv as [|e below stk' syms' toks' seg st1 st2 Hinv' Hd Hst];
      subst; simpl in Hk; [lia|].
    destruct (IH _ _ _ _ Hinv' ltac:(lia)) as (ta & sg & sa & Ha & Hb & Hc).
    exists ta, (sg ++ seg), sa. cbn [skipn firstn rev map].
    split; [exact Ha|]. split.
    + rewrite map_app. simpl. eapply derives_seq_snoc; eassumption.
    + rewrite Hc, app_assoc. reflexivity.
Qed.

Lemma stack_inv_no_start st0 e below stk syms toks st :
  stack_inv st0 (e :: below :: stk) syms toks st -> no_start (st_of e).
Proof.
  intros H. inversion H; subst.
  match goal with Hst : st_of e = _ |- _ => rewrite Hst end.
  apply goto_no_start.
Qed.

(** ** What an entry of the table says about the state *)

Lemma fold_min_In rs r : In (fold_left Nat.min rs r) (r :: rs).
Proof.
  revert r. induction rs as [|x rs IH]; intros r; simpl; auto.
  destruct (IH (Nat.min r x)) as [H|H].
  - destruct (Nat.min_dec r x) as [E|E]; rewrite E in *; auto.
  - right. right. exact H.
Qed.

Lemma lr_action_Reduce I a n :
  lr_action I a = Reduce n ->
  exists i, In i I /\ number i = n /\ complete i = true /\ n <> 0.
Proof.
  unfold lr_action. intros H.
  destruct (can_accept I a); [discriminate|].
  destruct (reductions I a) as [|r rs] eqn:R;
    [destruct (can_shift I a); discriminate|].
  assert (Hin : In (fold_left Nat.min rs r) (reductions I a)).
  { rewrite R. apply fold_min_In. }
  assert (Hn : n = fold_left Nat.min rs r).
  { destruct (can_shift I a).
    - destruct (nth_error Productions (fold_left Nat.min rs r)) as [p|];
        [|discriminate].
      destruct (prod_prec p) as [rprec rlevel].
      destruct (Precedence a) as [sprec slevel].
      destruct (slevel <? rlevel); [inversion H; reflexivity|].
      destruct (slevel =? rlevel); [|discriminate].
      destruct rprec; try discriminate; inversion H; reflexivity.
    - inversion H; reflexivity. }
  rewrite <- Hn in Hin. unfold reductions in Hin.
  apply in_map_iff in Hin. destruct Hin as [i [Hi Hf]].
  apply filter_In in Hf. destruct Hf as [HiI Hc].
  rewrite !andb_true_iff in Hc. destruct Hc as [[Hc1 Hc2] Hc3].
  apply negb_true_iff, Nat.eqb_neq in Hc3.
  exists i. repeat split; auto. congruence.
Qed.

Lemma lr_action_Shift I a : lr_action I a = Shift -> can_shift I a = true.
Proof.
  unfold lr_action. intros H.
  destruct (can_accept I a); [discriminate|].
  destruct (can_shift I a); [reflexivity|].
  destruct (reductions I a); discriminate.
Qed.

Lemma lr_action_Accept I a :
  lr_action I a = Accept ->
  a = END /\ exists i, In i I /\ number i = 0 /\ complete i = true.
Proof.
  unfold lr_action. intros H.
  destruct (can_accept I a) eqn:C.
  - unfold can_accept in C. apply andb_true_iff in C. destruct C as [C1 C2].
    apply terminal_eqb_eq in C1. split; [exact C1|].
    apply existsb_exists in C2. destruct C2 as [i [Hi C2]].
    apply andb_true_iff in C2. destruct C2 as [C2 C3].
    apply Nat.eqb_eq in C2. eauto.
  - destruct (reductions I a) as [|r rs].
    + destruct (can_shift I a); discriminate.
    + destruct (can_shift I a); [|discriminate].
      destruct (nth_error Productions (fold_left Nat.min rs r)) as [p|];
        [|discriminate].
      destruct (prod_prec p) as [rprec rlevel].
      destruct (Precedence a) as [sprec slevel].
      destruct (slevel <? rlevel); [discriminate|].
      destruct (slevel =? rlevel); [|discriminate].
      destruct rprec; discriminate.
Qed.

(** ["$end"] stands in no production, so it is never shifted. *)
Lemma no_END_in_productions n p d :
  nth_error Productions n = Some p -> nth_error (prod p) d <> Some (T END).
Proof.
  intros Hn.
  by_production Hn n ltac:(idtac).
  all: simpl in Hn; injection Hn as <-; cbn [prod mk].
  all: do 7 (destruct d as [|d]; [discriminate|]); discriminate.
Qed.

Lemma can_shift_END I : can_shift I END = false.
Proof.
  unfold can_shift. apply not_true_is_false. intros H.
  apply existsb_exists in H. destruct H as [i [_ H]].
  destruct (nth_error Productions (number i)) as [p|] eqn:Hp; [|discriminate].
  destruct (nth_error (prod p) (lr_index i)) as [[b|B]|] eqn:Hd;
    try discriminate.
  destruct b; try discriminate.
  exact (no_END_in_productions _ _ _ Hp Hd).
Qed.

(** ** The loop keeps the stack in step with the tokens *)

Lemma fetch_stream c l lx :
  fetch stream next_of_stream c = inr (l, lx) ->
  (lookahead c = Some LaEnd -> lexer c = ([], AtEOF)) ->
  pending c = la_tokens (Some l) ++ fst lx /\
  snd lx = snd (lexer c) /\
  (l = LaEnd -> lx = ([], AtEOF)).
Proof.
  unfold fetch, pending. intros H Hend.
  destruct (lookahead c) as [l0|].
  - inversion H; subst. repeat split; auto. intros ->. auto.
  - destruct (lexer c) as [[|t r] [|ch line]]; simpl in H; inversion H; subst;
      simpl; repeat split; auto; discriminate.
Qed.

Lemma start_inv toks e st :
  config_inv st toks e (start stream (toks, e) st).
Proof.
  exists [], []. simpl. repeat split.
  - constructor.
  - discriminate.
Qed.

Lemma step_inv st0 all e c c' :
  config_inv st0 all e c ->
  step_stream c = Continue c' ->
  config_inv st0 all e c'.
Proof.
  intros (syms & toks & Hinv & Hall & Hsnd & Hend).
  unfold step_stream, step.
  destruct (stack c) as [|top rest] eqn:Hstk; [discriminate|].
  destruct (fetch stream next_of_stream c) as [o|[l lx]] eqn:Hf;
    [discriminate|].
  destruct (fetch_stream _ _ _ Hf Hend) as (Hpend & Hsnd' & HlEnd).
  destruct (lr_action (st_of top) (la_type l)) eqn:Hact; try discriminate.
  - (* shift *)
    intros Hstep. inversion Hstep; subst c'; clear Hstep.
    destruct l as [t|].
    + exists (T (type t) :: syms), (toks ++ [t]). cbn [stack store lookahead lexer].
      split.
      * apply (inv_push st0
                 {| st_of := goto (st_of top) (T (type t)); sym := T (type t);
                    val := PyStr (value t) |}
                 top rest syms toks [t] (store c) (store c));
          [exact Hinv | apply derives_token | reflexivity].
      * split; [|split; [congruence | discriminate]].
        unfold pending; simpl. rewrite Hall, Hpend. simpl.
        rewrite <- app_assoc. reflexivity.
    + apply lr_action_Shift in Hact. simpl in Hact.
      rewrite can_shift_END in Hact. discriminate.
  - (* reduce *)
    destruct (nth_error Productions n) as [p|] eqn:Hp; [|discriminate].
    destruct (callable p _ (store c)) as [[v st']|ex] eqn:Hcall;
      [|discriminate].
    destruct (skipn (List.length (prod p)) (top :: rest))
      as [|below rest'] eqn:Hskip; [discriminate|].
    intros Hstep. inversion Hstep; subst c'; clear Hstep.
    destruct (lr_action_Reduce _ _ _ Hact) as (i & Hi & Hnum & Hcomp & _).
    destruct (stack_inv_items _ _ _ _ _ Hinv top rest eq_refl i Hi)
      as (p' & Hp' & Hlen & Hpre).
    rewrite Hnum, Hp in Hp'. inversion Hp'; subst p'.
    unfold complete in Hcomp. rewrite Hnum, Hp in Hcomp.
    apply Nat.eqb_eq in Hcomp. rewrite Hcomp in Hlen, Hpre.
    rewrite firstn_all in Hpre.
    destruct (stack_inv_pop st0 _ _ _ _ _ Hinv Hlen)
      as (ta & seg & sa & Ha & Hb & Hc).
    rewrite Hskip in Ha. rewrite <- Hpre in Hb.
    exists (N (name p) :: skipn (List.length (prod p)) syms), (ta ++ seg).
    cbn [stack store lookahead lexer]. split.
    + apply (inv_push st0
               {| st_of := goto (st_of below) (N (name p)); sym := N (name p);
                  val := v |}
               below rest' _ ta seg sa st');
        [exact Ha | | reflexivity].
      cbn [sym val]. econstructor; eassumption.
    + split; [|split; [congruence|]].
      * unfold pending; simpl. rewrite Hall, Hc, Hpend. reflexivity.
      * intros [= ->]. auto.
Qed.

(** When the loop accepts, the whole token list has been reduced to
    [program]. *)
Lemma step_accept st0 all e c st :
  Forall tok_ok all ->
  config_inv st0 all e c ->
  step_stream c = Done (Parsed st) ->
  e = AtEOF /\ exists v, derives (N program) all v st0 st.
Proof.
  intros Hok (syms & toks & Hinv & Hall & Hsnd & Hend).
  unfold step_stream, step.
  destruct (stack c) as [|top rest] eqn:Hstk; [discriminate|].
  destruct (fetch stream next_of_stream c) as [o|[l lx]] eqn:Hf.
  { unfold fetch in Hf. destruct (lookahead c); [discriminate|].
    destruct (next_of_stream (lexer c)); inversion Hf; discriminate. }
  destruct (fetch_stream _ _ _ Hf Hend) as (Hpend & Hsnd' & HlEnd).
  destruct (lr_action (st_of top) (la_type l)) eqn:Hact; try discriminate.
  - destruct (nth_error Productions n) as [p|]; [|discriminate].
    destruct (callable p _ (store c)) as [[v st']|ex]; [|discriminate].
    destruct (skipn _ _); discriminate.
  - intros Hstep. inversion Hstep; subst st; clear Hstep.
    apply lr_action_Accept in Hact.
    destruct Hact as (Hla & i & Hi & Hnum & Hcomp).
    destruct l as [t|].
    { exfalso. simpl in Hla.
      assert (Ht : tok_ok t).
      { rewrite Forall_forall in Hok. apply Hok. rewrite Hall, Hpend.
        apply in_or_app. right. simpl. auto. }
      unfold tok_ok in Ht. rewrite Hla in Ht. exact Ht. }
    specialize (HlEnd eq_refl). subst lx.
    simpl in Hpend. rewrite Hpend, app_nil_r in Hall. subst toks.
    split; [simpl in Hsnd'; congruence|].
    destruct (stack_inv_items _ _ _ _ _ Hinv top rest eq_refl i Hi)
      as (p' & Hp' & Hlen & Hpre).
    rewrite Hnum in Hp'. simpl in Hp'. inversion Hp'; subst p'. clear Hp'.
    unfold complete in Hcomp. rewrite Hnum in Hcomp. simpl in Hcomp.
    apply Nat.eqb_eq in Hcomp. rewrite Hcomp in Hlen, Hpre.
    destruct syms as [|X syms']; [simpl in Hlen; lia|].
    simpl in Hpre. inversion Hpre; subst X. clear Hpre.
    inversion Hinv as [|e0 below stk syms0 toks' seg s1 s2 Hinv' Hd Hst];
      subst.
    rewrite Hst in Hi. apply goto_In in Hi.
    destruct Hi as [Hi|[j [Hj Hi]]]; [lia|].
    apply advance_spec in Hi. destruct Hi as (pj & Hpj & _ & Hij).
    rewrite Hij in Hnum, Hcomp. cbn [number lr_index] in Hnum, Hcomp.
    injection Hcomp as Hj0.
    inversion Hinv' as [|e1 below' stk' syms1 toks1 seg1 s3 s4 Hinv'' Hd' Hst'];
      subst.
    + exists (val top). simpl. congruence.
    + exfalso.
      pose proof (stack_inv_no_start _ _ _ _ _ _ _ Hinv') as Hns.
      rewrite Hnum in Hpj.
      destruct (Hns j pj Hj) as [Hs _]; [congruence|exact Hj0|].
      simpl in Hpj. inversion Hpj; subst pj. apply Hs. reflexivity.
Qed.

Lemma run_sound st0 all e :
  Forall tok_ok all ->
  forall fuel c st,
    config_inv st0 all e c ->
    run_stream fuel c = Parsed st ->
    e = AtEOF /\ exists v, derives (N program) all v st0 st.
Proof.
  intros Hok. induction fuel as [|k IH]; intros c st Hinv Hrun;
    [discriminate|].
  unfold run_stream in Hrun. simpl in Hrun.
  fold (step_stream c) in Hrun.
  destruct (step_stream c) as [c'|o] eqn:Hs.
  - apply (IH c'); [|exact Hrun]. eapply step_inv; eassumption.
  - subst o. eapply step_accept; eassumption.
Qed.

(** A text that parses lexes to its end, and the actions that ran are those
    of a derivation of [program] from its tokens. *)
Lemma parseProgram_derives text st st' :
  parseProgram text st = Parsed st' ->
  exists toks v,
    tokenize text = Some toks /\ Forall tok_ok toks /\
    derives (N program) toks v st st'.
Proof.
  rewrite parseProgram_stream. intros H.
  pose proof (scan_lexer_ok (lex_input text)) as Hok. fold (scan text) in Hok.
  destruct (scan text) as [toks e] eqn:Hscan. simpl in Hok.
  destruct (run_sound st toks e Hok _ _ _ (start_inv toks e st) H)
    as [-> [v Hv]].
  exists toks, v. unfold tokenize. rewrite Hscan. auto.
Qed.

(** ** The loop neither raises nor runs forever *)

Lemma stack_inv_syms st0 stk syms toks st :
  stack_inv st0 stk syms toks st -> map sym stk = syms ++ [T END].
Proof. induction 1; simpl; [reflexivity | f_equal; assumption]. Qed.

Lemma reduce_ready st0 top rest syms toks st a n :
  stack_inv st0 (top :: rest) syms toks st ->
  lr_action (st_of top) a = Reduce n ->
  exists p i ta seg sa below rest',
    nth_error Productions n = Some p /\ n <> 0 /\
    In i (st_of top) /\ number i = n /\
    lr_index i = List.length (prod p) /\
    prod p = rev (firstn (List.length (prod p)) syms) /\
    List.length (prod p) <= List.length syms /\
    skipn (List.length (prod p)) (top :: rest) = below :: rest' /\
    stack_inv st0 (below :: rest') (skipn (List.length (prod p)) syms) ta sa /\
    derives_seq (prod p) seg
      (map val (rev (firstn (List.length (prod p)) (top :: rest)))) sa st /\
    toks = ta ++ seg.
Proof.
  intros Hinv Hact.
  destruct (lr_action_Reduce _ _ _ Hact) as (i & Hi & Hnum & Hcomp & Hn0).
  destruct (stack_inv_items _ _ _ _ _ Hinv top rest eq_refl i Hi)
    as (p & Hp & Hlen & Hpre).
  rewrite Hnum in Hp.
  unfold complete in Hcomp. rewrite Hnum, Hp in Hcomp.
  apply Nat.eqb_eq in Hcomp. rewrite Hcomp in Hlen, Hpre.
  rewrite firstn_all in Hpre.
  destruct (stack_inv_pop st0 _ _ _ _ _ Hinv Hlen)
    as (ta & seg & sa & Ha & Hb & Hc).
  rewrite <- Hpre in Hb.
  pose proof (stack_inv_length _ _ _ _ _ Ha) as HL.
  destruct (skipn (List.length (prod p)) (top :: rest))
    as [|below rest'] eqn:Hskip; [discriminate|].
  exists p, i, ta, seg, sa, below, rest'. repeat split; auto.
Qed.

(** No turn of the loop ends in an uncaught exception. *)
Lemma step_safe st0 all e c ex :
  Forall tok_ok all ->
  config_inv st0 all e c ->
  step_stream c <> Done (Uncaught ex).
Proof.
  intros Hok (syms & toks & Hinv & Hall & Hsnd & Hend).
  unfold step_stream, step.
  destruct (stack c) as [|top rest] eqn:Hstk.
  { apply stack_inv_length in Hinv. discriminate. }
  destruct (fetch stream next_of_stream c) as [o|[l lx]] eqn:Hf.
  { unfold fetch in Hf. destruct (lookahead c); [discriminate|].
    destruct (next_of_stream (lexer c)); inversion Hf; discriminate. }
  destruct (lr_action (st_of top) (la_type l)) eqn:Hact; try discriminate.
  destruct (reduce_ready _ _ _ _ _ _ _ _ Hinv Hact)
    as (p & i & ta & seg & sa & below & rest' & Hp & Hn0 & Hi & Hnum & Hidx
        & Hpre & Hlen & Hskip & Ha & Hb & Hc).
  rewrite Hp, Hskip.
  assert (Hseg : Forall tok_ok seg).
  { rewrite Hall, Hc in Hok. apply Forall_app in Hok. destruct Hok as [Hok _].
    apply Forall_app in Hok. tauto. }
  destruct (proj2 derives_typed _ _ _ _ _ Hb Hseg) as [HF _].
  destruct (action_typed n p _ (store c) Hp HF) as (v & s' & Hcall & _ & _).
  rewrite Hcall. discriminate.
Qed.

Lemma reduction_weight n p :
  nth_error Productions n = Some p -> n <> 0 ->
  (prod p = [] /\ name p = program) \/
  weight (N (name p)) < list_sum (map weight (prod p)).
Proof.
  intros Hn H0.
  by_production Hn n ltac:(idtac).
  all: simpl in Hn; injection Hn as <-; cbn.
  all: first [ congruence | left; split; reflexivity | right; lia ].
Qed.

Lemma fetch_measure c l lx :
  fetch stream next_of_stream c = inr (l, lx) ->
  (lookahead c = Some LaEnd -> lexer c = ([], AtEOF)) ->
  pending_measure (Some l) lx <= pending_measure (lookahead c) (lexer c).
Proof.
  unfold fetch. intros H Hend.
  destruct (lookahead c) as [l0|].
  - inversion H; subst. lia.
  - destruct (lexer c) as [[|t r] [|ch line]]; simpl in H; inversion H; subst;
      simpl; lia.
Qed.

Lemma stack_weight_app a b :
  stack_weight (a ++ b) = stack_weight a + stack_weight b.
Proof. unfold stack_weight. rewrite map_app, list_sum_app. reflexivity. Qed.

Lemma list_sum_rev l : list_sum (rev l) = list_sum l.
Proof.
  induction l as [|x l IH]; simpl; [reflexivity|].
  rewrite list_sum_app. simpl. lia.
Qed.

Lemma stack_weight_firstn st0 stk syms toks st k :
  stack_inv st0 stk syms toks st -> k <= List.length syms ->
  stack_weight (firstn k stk) = list_sum (map weight (firstn k syms)).
Proof.
  intros Hinv Hk. apply stack_inv_syms in Hinv.
  unfold stack_weight. rewrite <- (map_map sym weight), <- firstn_map, Hinv.
  rewrite firstn_app. replace (k - List.length syms) with 0 by lia.
  simpl. rewrite app_nil_r. reflexivity.
Qed.

(** Every turn that goes on lowers the measure. *)
Lemma step_decreases st0 all e c c' :
  config_inv st0 all e c ->
  step_stream c = Continue c' ->
  measure c' < measure c.
Proof.
  intros (syms & toks & Hinv & Hall & Hsnd & Hend).
  unfold step_stream, step.
  destruct (stack c) as [|top rest] eqn:Hstk; [discriminate|].
  destruct (fetch stream next_of_stream c) as [o|[l lx]] eqn:Hf;
    [discriminate|].
  pose proof (fetch_measure _ _ _ Hf Hend) as Hm.
  destruct (lr_action (st_of top) (la_type l)) eqn:Hact; try discriminate.
  - (* shift *)
    intros Hstep. inversion Hstep; subst c'; clear Hstep.
    destruct l as [t|].
    + unfold measure. cbn [stack lookahead lexer]. rewrite Hstk.
      unfold stack_weight. cbn [map list_sum fold_right sym la_type].
      assert (weight (T (type t)) <= 3) by (destruct (type t); simpl; lia).
      simpl pending_measure in *. destruct rest; lia.
    + apply lr_action_Shift in Hact. simpl in Hact.
      rewrite can_shift_END in Hact. discriminate.
  - (* reduce *)
    destruct (reduce_ready _ _ _ _ _ _ _ _ Hinv Hact)
      as (p & i & ta & seg & sa & below & rest' & Hp & Hn0 & Hi & Hnum & Hidx
          & Hpre & Hlen & Hskip & Ha & Hb & Hc).
    rewrite Hp, Hskip.
    destruct (callable p _ (store c)) as [[v st']|ex]; [|discriminate].
    intros Hstep. inversion Hstep; subst c'; clear Hstep.
    assert (HW : stack_weight (top :: rest)
                 = list_sum (map weight (prod p)) + stack_weight (below :: rest')).
    { rewrite <- (firstn_skipn (List.length (prod p)) (top :: rest)) at 1.
      rewrite stack_weight_app, Hskip.
      rewrite (stack_weight_firstn _ _ _ _ _ _ Hinv Hlen).
      f_equal. rewrite Hpre at 2. rewrite map_rev, list_sum_rev. reflexivity. }
    unfold measure. cbn [stack lookahead lexer]. rewrite Hstk, HW.
    change (stack_weight ({| st_of := goto (st_of below) (N (name p));
                             sym := N (name p); val := v |} :: below :: rest'))
      with (weight (N (name p)) + stack_weight (below :: rest')).
    destruct (reduction_weight n p Hp Hn0) as [[Hnil Hname]|Hlt].
    + (* the empty production: only in state 0 *)
      rewrite Hnil, Hname in *. simpl in Hskip. inversion Hskip; subst.
      destruct rest' as [|b r].
      * cbn [weight list_sum map fold_right]. lia.
      * exfalso.
        pose proof (stack_inv_no_start _ _ _ _ _ _ _ Hinv) as Hns.
        simpl in Hidx.
        destruct (Hns i p Hi) as [_ Hs]; auto; congruence.
    + lia.
Qed.

Lemma run_total st0 all e :
  Forall tok_ok all ->
  forall fuel c,
    config_inv st0 all e c ->
    measure c < fuel ->
    match run_stream fuel c with
    | Parsed _ | IllegalCharacter _ _ | SyntaxError _ => True
    | Uncaught _ | OutOfFuel => False
    end.
Proof.
  intros Hok. induction fuel as [|k IH]; intros c Hinv Hm; [lia|].
  unfold run_stream. simpl. fold (step_stream c).
  destruct (step_stream c) as [c'|o] eqn:Hs.
  - apply IH.
    + eapply step_inv; eassumption.
    + pose proof (step_decreases _ _ _ _ _ Hinv Hs). lia.
  - destruct o; auto.
    + exact (step_safe _ _ _ _ _ Hok Hinv Hs).
    + clear IH. unfold step_stream, step in Hs.
      destruct (stack c) as [|tp rs]; [discriminate|].
      destruct (fetch stream next_of_stream c) as [o|[la lx]] eqn:Hf.
      { unfold fetch in Hf. destruct (lookahead c); [discriminate|].
        destruct (next_of_stream (lexer c)); inversion Hf; subst; discriminate. }
      destruct (lr_action _ _); try discriminate.
      destruct (nth_error Productions n); [|discriminate].
      destruct (callable _ _ _) as [[v s']|ex]; [|discriminate].
      destruct (skipn _ _); discriminate.
Qed.

(** [parseProgram] always ends, in one of three ways: the text is parsed,
    or the lexer exits at an illegal character, or the parser exits at a
    syntax error. *)
Lemma parseProgram_total text st :
  match parseProgram text st with
  | Parsed _ | IllegalCharacter _ _ | SyntaxError _ => True
  | Uncaught _ | OutOfFuel => False
  end.
Proof.
  rewrite parseProgram_stream.
  pose proof (scan_lexer_ok (lex_input text)) as Hok.
  pose proof (scan_lexer_length (lex_input text)) as Hlen.
  fold (scan text) in Hok, Hlen.
  destruct (scan text) as [toks e] eqn:Hscan. simpl in Hok, Hlen.
  apply (run_total st toks e Hok).
  - apply start_inv.
  - unfold measure, start. cbn. lia.
Qed.

(** ** What a successful parse stores *)

Lemma parseProgram_extends text st st' :
  parseProgram text st = Parsed st' -> extends st st'.
Proof.
  intros H. apply parseProgram_derives in H.
  destruct H as (toks & v & _ & Hok & Hd).
  exact (proj2 (proj1 derives_typed _ _ _ _ _ Hd Hok)).
Qed.

Lemma is_rule_literals r : is_rule r -> Forall is_literal (rule_literals r).
Proof.
  intros (c & ants & -> & Hc & _ & Hants). simpl. constructor; assumption.
Qed.

Lemma parseProgram_adds text st st' :
  parseProgram text st = Parsed st' ->
  exists d,
    adds st st' d /\
    Forall is_literal (stored_literals d) /\
    Forall is_query (new_queries d).
Proof.
  intros H. apply parseProgram_extends in H.
  destruct H as (fs & rs & qs & Hf & Hr & Hq & Ff & Fr & Fq & _).
  exists {| new_facts := fs; new_rules := rs; new_queries := qs |}.
  unfold adds, stored_literals. simpl. repeat split; auto.
  apply Forall_app. split; [exact Ff|].
  apply Forall_flat_map. revert Fr. apply Forall_impl.
  intros r. apply is_rule_literals.
Qed.


(** ** The actions never read what is already stored *)

Lemma obl_ret {A} (x : A) : oblivious (ret x).
Proof. intros st0 a b H. simpl. auto. Qed.

Lemma obl_raise {A} e : oblivious (@raise A e).
Proof. intros st0 a b H. reflexivity. Qed.

Lemma obl_bind {A B} (m : M A) (f : A -> M B) :
  oblivious m -> (forall x, oblivious (f x)) -> oblivious (bind m f).
Proof.
  intros Hm Hf st0 a b H. unfold bind.
  specialize (Hm st0 a b H). unfold rel_result in Hm.
  destruct (m a) as [[v a']|e], (m b) as [[w b']|e']; try contradiction.
  - destruct Hm as [-> Hm]. apply Hf. exact Hm.
  - exact Hm.
Qed.

Lemma obl_getitem p i : oblivious (getitem p i).
Proof.
  unfold getitem. destruct (nth_error p i); [apply obl_ret|apply obl_raise].
Qed.

Lemma obl_isdigit x : oblivious (isdigit x).
Proof. destruct x; first [apply obl_ret | apply obl_raise]. Qed.

Lemma obl_py_int x : oblivious (py_int x).
Proof.
  destruct x; simpl; try apply obl_raise; try apply obl_ret.
  destruct (str_isdigit s); [apply obl_ret|apply obl_raise].
Qed.

Lemma obl_py_add x y : oblivious (py_add x y).
Proof. destruct x, y; first [apply obl_ret | apply obl_raise]. Qed.

Lemma obl_slice_all x : oblivious (slice_all x).
Proof. destruct x; first [apply obl_ret | apply obl_raise]. Qed.

Lemma obl_list_append x y : oblivious (list_append x y).
Proof. destruct x; first [apply obl_ret | apply obl_raise]. Qed.

Lemma obl_facts_append x : oblivious (facts_append x).
Proof.
  intros st0 a b (Hf & Hr & Hq). simpl. split; [reflexivity|].
  unfold same_growth. simpl. rewrite Hf, app_assoc. auto.
Qed.

Lemma obl_rules_append x : oblivious (rules_append x).
Proof.
  intros st0 a b (Hf & Hr & Hq). simpl. split; [reflexivity|].
  unfold same_growth. simpl. rewrite Hr, app_assoc. auto.
Qed.

Lemma obl_queries_append x : oblivious (queries_append x).
Proof.
  intros st0 a b (Hf & Hr & Hq). simpl. split; [reflexivity|].
  unfold same_growth. simpl. rewrite Hq, app_assoc. auto.
Qed.

Lemma obl_predicates_setitem k v : oblivious (predicates_setitem k v).
Proof.
  intros st0 a b (Hf & Hr & Hq). unfold predicates_setitem.
  destruct (hashable k); simpl; auto.
  split; [reflexivity|]. unfold same_growth. simpl. auto.
Qed.

Create HintDb obl.

#[local] Hint Resolve obl_ret obl_raise obl_getitem obl_isdigit obl_py_int
  obl_py_add obl_slice_all obl_list_append obl_facts_append obl_rules_append
  obl_queries_append obl_predicates_setitem : obl.

Ltac obl :=
  repeat first
    [ apply obl_bind; [ solve [auto with obl] | intro ]
    | solve [auto with obl]
    | match goal with
      | |- oblivious (if ?c then _ else _) => destruct c
      end ].

Lemma callable_oblivious n p vals :
  nth_error Productions n = Some p -> oblivious (callable p vals).
Proof.
  intros Hn.
  by_production Hn n ltac:(idtac).
  all: simpl in Hn; injection Hn as <-; cbn [callable mk].
  all: unfold p_program, p_declaration, p_fact, p_query, p_params, p_var_expr,
         p_predicate, p_antecedents, p_rule; obl.
Qed.

(** ** A run on a store and the run on the empty store *)

Lemma step_sim st0 c1 c2 :
  same_config st0 c1 c2 ->
  match step_stream c1, step_stream c2 with
  | Continue a, Continue b => same_config st0 a b
  | Done o1, Done o2 => rel_outcome st0 o1 o2
  | _, _ => False
  end.
Proof.
  intros (Hs & Hl & Hx & Hg).
  unfold step_stream, step, fetch. rewrite <- Hs, <- Hl, <- Hx.
  destruct (stack c1) as [|top rest]; [reflexivity|].
  assert (Hact : forall l (lx : stream),
    match
      match lr_action (st_of top) (la_type l) with
      | Shift =>
          Continue
            {| stack := {| st_of := goto (st_of top) (T (la_type l));
                           sym := T (la_type l); val := la_value l |}
                        :: top :: rest;
               lookahead := None; lexer := lx; store := store c1 |}
      | Reduce n =>
          match nth_error Productions n with
          | None => Done (Uncaught KeyError)
          | Some p =>
              match callable p
                      (PyNone :: map val (rev (firstn (List.length (prod p))
                                                      (top :: rest))))
                      (store c1) with
              | Raise e => Done (Uncaught e)
              | Ok (v, st') =>
                  match skipn (List.length (prod p)) (top :: rest) with
                  | [] => Done (Uncaught IndexError)
                  | below :: _ =>
                      Continue
                        {| stack :=
                             {| st_of := goto (st_of below) (N (name p));
                                sym := N (name p); val := v |}
                             :: skipn (List.length (prod p)) (top :: rest);
                           lookahead := Some l; lexer := lx; store := st' |}
                  end
              end
          end
      | Accept => Done (Parsed (store c1))
      | Error => Done (SyntaxError match l with
                                   | LaTok t => Some t
                                   | LaEnd => None
                                   end)
      end,
      match lr_action (st_of top) (la_type l) with
      | Shift =>
          Continue
            {| stack := {| st_of := goto (st_of top) (T (la_type l));
                           sym := T (la_type l); val := la_value l |}
                        :: top :: rest;
               lookahead := None; lexer := lx; store := store c2 |}
      | Reduce n =>
          match nth_error Productions n with
          | None => Done (Uncaught KeyError)
          | Some p =>
              match callable p
                      (PyNone :: map val (rev (firstn (List.length (prod p))
                                                      (top :: rest))))
                      (store c2) with
              | Raise e => Done (Uncaught e)
              | Ok (v, st') =>
                  match skipn (List.length (prod p)) (top :: rest) with
                  | [] => Done (Uncaught IndexError)
                  | below :: _ =>
                      Continue
                        {| stack :=
                             {| st_of := goto (st_of below) (N (name p));
                                sym := N (name p); val := v |}
                             :: skipn (List.length (prod p)) (top :: rest);
                           lookahead := Some l; lexer := lx; store := st' |}
                  end
              end
          end
      | Accept => Done (Parsed (store c2))
      | Error => Done (SyntaxError match l with
                                   | LaTok t => Some t
                                   | LaEnd => None
                                   end)
      end
    with
    | Continue a, Continue b => same_config st0 a b
    | Done o1, Done o2 => rel_outcome st0 o1 o2
    | _, _ => False
    end).
  { intros l lx.
    destruct (lr_action (st_of top) (la_type l)).
    - split; [|split; [|split]]; try reflexivity; exact Hg.
    - destruct (nth_error Productions n) as [p|] eqn:Hp; [|reflexivity].
      pose proof (callable_oblivious n p
                    (PyNone :: map val (rev (firstn (List.length (prod p))
                                                    (top :: rest))))
                    Hp st0 _ _ Hg) as Hc.
      unfold rel_result in Hc.
      destruct (callable p _ (store c1)) as [[v a']|e],
               (callable p _ (store c2)) as [[w b']|e']; try contradiction.
      + destruct Hc as [-> Hc].
        destruct (skipn _ _); [reflexivity|].
        split; [|split; [|split]]; try reflexivity; exact Hc.
      + subst e'. reflexivity.
    - simpl. exact Hg.
    - reflexivity. }
  destruct (lookahead c1) as [l|]; [apply Hact|].
  destruct (next_of_stream (lexer c1)) as [t lx| |ch line];
    [apply Hact | apply Hact | reflexivity].
Qed.

Lemma run_sim st0 fuel :
  forall c1 c2, same_config st0 c1 c2 ->
  rel_outcome st0 (run_stream fuel c1) (run_stream fuel c2).
Proof.
  induction fuel as [|k IH]; intros c1 c2 H; [reflexivity|].
  unfold run_stream. simpl. fold (step_stream c1) (step_stream c2).
  pose proof (step_sim st0 c1 c2 H) as Hs.
  destruct (step_stream c1) as [a|o1], (step_stream c2) as [b|o2];
    try contradiction.
  - apply IH. exact Hs.
  - exact Hs.
Qed.

Lemma parseProgram_sim text st :
  rel_outcome st (parseProgram text st) (parseProgram text Program_initial).
Proof.
  rewrite !parseProgram_stream. apply run_sim.
  unfold same_config, same_growth, start. simpl.
  rewrite !app_nil_r. repeat split; reflexivity.
Qed.

(** ** Induction over the productions of a derivation *)

Lemma derives_induction
    (P : symbol -> list LexToken -> obj -> Program -> Program -> Prop) :
  (forall t st, P (T (type t)) [t] (PyStr (value t)) st st) ->
  (forall n p toks vals v st st' st'',
      nth_error Productions n = Some p ->
      seq_all P (prod p) toks vals st st' ->
      callable p (PyNone :: vals) st' = Ok (v, st'') ->
      P (N (name p)) toks v st st'') ->
  forall X toks v st st', derives X toks v st st' -> P X toks v st st'.
Proof.
  intros Htok Hred.
  apply (derives_ind2 P (seq_all P)).
  - exact Htok.
  - intros n p toks vals v st st' st'' Hn _ IH Hc.
    exact (Hred n p toks vals v st st' st'' Hn IH Hc).
  - constructor.
  - intros X Xs t1 t2 v vs st st' st'' _ IH1 _ IH2.
    exact (seq_all_cons P X Xs t1 t2 v vs st st' st'' IH1 IH2).
Qed.

Ltac inv_seq_all :=
  repeat match goal with
  | H : seq_all _ (_ :: _) _ _ _ _ |- _ => inversion H; clear H; subst
  | H : seq_all _ [] _ _ _ _ |- _ => inversion H; clear H; subst
  end.

(** ** [not] is always followed by a name *)








(** ** Equality of values and the dictionary *)

Lemma obj_eqb_tuple_cons x xs y ys :
  obj_eqb (PyTuple (x :: xs)) (PyTuple (y :: ys))
  = obj_eqb x y && obj_eqb (PyTuple xs) (PyTuple ys).
Proof. reflexivity. Qed.

Lemma obj_eqb_list_cons x xs y ys :
  obj_eqb (PyList (x :: xs)) (PyList (y :: ys))
  = obj_eqb x y && obj_eqb (PyList xs) (PyList ys).
Proof. reflexivity. Qed.

Lemma obj_eqb_eq a : forall b, obj_eqb a b = true <-> a = b.
Proof.
  induction a as [|z|s|l IH|l IH] using obj_ind'; intros b.
  - destruct b; simpl; split; intro H; try reflexivity; discriminate.
  - destruct b; simpl; try (split; discriminate).
    rewrite Z.eqb_eq. split; [intros ->; reflexivity|intros [= ->]; reflexivity].
  - destruct b; simpl; try (split; discriminate).
    rewrite String.eqb_eq.
    split; [intros ->; reflexivity|intros [= ->]; reflexivity].
  - destruct b as [| | |l'|]; try (simpl; split; discriminate).
    revert l'. induction IH as [|x xs Hx _ IHxs]; intros [|y ys].
    + simpl. split; reflexivity.
    + simpl. split; discriminate.
    + simpl. split; discriminate.
    + rewrite obj_eqb_tuple_cons, andb_true_iff, Hx, IHxs.
      split; [intros [-> [= ->]]; reflexivity|intros [= -> ->]; auto].
  - destruct b as [| | | |l']; try (simpl; split; discriminate).
    revert l'. induction IH as [|x xs Hx _ IHxs]; intros [|y ys].
    + simpl. split; reflexivity.
    + simpl. split; discriminate.
    + simpl. split; discriminate.
    + rewrite obj_eqb_list_cons, andb_true_iff, Hx, IHxs.
      split; [intros [-> [= ->]]; reflexivity|intros [= -> ->]; auto].
Qed.

Lemma obj_eqb_refl a : obj_eqb a a = true.
Proof. apply obj_eqb_eq. reflexivity. Qed.

Lemma obj_eqb_neq a b : a <> b -> obj_eqb a b = false.
Proof.
  intros H. destruct (obj_eqb a b) eqn:E; [|reflexivity].
  apply obj_eqb_eq in E. contradiction.
Qed.

(** Reading back the key just written gives the value written. *)
Lemma dict_get_set_same d k v : dict_get (dict_set d k v) k = Some v.
Proof.
  induction d as [|[k' v'] d IH]; simpl.
  - rewrite obj_eqb_refl. reflexivity.
  - destruct (obj_eqb k' k) eqn:E; simpl; rewrite E; auto.
Qed.

(** Writing a key leaves every other key as it was. *)
Lemma dict_get_set_other d k v k2 :
  k <> k2 -> dict_get (dict_set d k v) k2 = dict_get d k2.
Proof.
  intros Hne. induction d as [|[k' v'] d IH]; simpl.
  - rewrite (obj_eqb_neq _ _ Hne). reflexivity.
  - destruct (obj_eqb k' k) eqn:E; simpl.
    + apply obj_eqb_eq in E. subst k'.
      rewrite (obj_eqb_neq _ _ Hne). reflexivity.
    + rewrite IH. reflexivity.
Qed.

Lemma dict_get_In d k v : dict_get d k = Some v -> In k (keys d).
Proof.
  induction d as [|[k' v'] d IH]; simpl; [discriminate|].
  destruct (obj_eqb k' k) eqn:E.
  - apply obj_eqb_eq in E. auto.
  - intros H. right. apply IH. exact H.
Qed.

Lemma keys_dict_set d k v :
  (In k (keys d) /\ keys (dict_set d k v) = keys d) \/
  (~ In k (keys d) /\ keys (dict_set d k v) = keys d ++ [k]).
Proof.
  induction d as [|[k' v'] d IH]; simpl.
  - right. split; [tauto|reflexivity].
  - destruct (obj_eqb k' k) eqn:E; simpl.
    + apply obj_eqb_eq in E. left. auto.
    + destruct IH as [[H1 H2]|[H1 H2]].
      * left. split; [auto|]. f_equal. exact H2.
      * right. split; [|f_equal; exact H2].
        intros [H|H]; [|contradiction].
        subst k'. rewrite obj_eqb_refl in E. discriminate.
Qed.

(** Writing a key keeps the keys of the dictionary distinct. *)
Lemma dict_set_NoDup d k v : NoDup (keys d) -> NoDup (keys (dict_set d k v)).
Proof.
  intros H. destruct (keys_dict_set d k v) as [[_ ->]|[Hn ->]]; [exact H|].
  apply NoDup_app; [exact H|repeat constructor; auto|].
  intros x Hx [<-|[]]. contradiction.
Qed.

Lemma fold_declare_NoDup ds d :
  NoDup (keys d) -> NoDup (keys (fold_left declare ds d)).
Proof.
  revert d. induction ds as [|nk ds IH]; intros d H; simpl; [exact H|].
  apply IH. apply dict_set_NoDup. exact H.
Qed.

Lemma last_declared_from_Some name ds :
  forall k, exists x, last_declared_from (Some k) name ds = Some x.
Proof.
  unfold last_declared_from.
  induction ds as [|[n k'] ds IH]; intros k; simpl; [eauto|].
  destruct (n =? name)%string; apply IH.
Qed.

(** After a run of declarations a name maps to the number of its last
    declaration, and a name that was not declared keeps its entry. *)
Lemma fold_declare_get name ds :
  forall d acc,
    (forall x, acc = Some x ->
               dict_get d (PyStr name) = Some (PyInt (digits_value x 0))) ->
    dict_get (fold_left declare ds d) (PyStr name)
    = match last_declared_from acc name ds with
      | Some x => Some (PyInt (digits_value x 0))
      | None => dict_get d (PyStr name)
      end.
Proof.
  induction ds as [|[n k] ds IH]; intros d acc Hacc.
  - simpl. destruct acc as [x|]; [apply Hacc|]; reflexivity.
  - unfold last_declared_from in *. cbn [fold_left fst snd].
    destruct (n =? name)%string eqn:E.
    + apply String.eqb_eq in E. subst n.
      rewrite (IH (declare d (name, k)) (Some k)).
      * destruct (last_declared_from_Some name ds k) as [x Hx].
        unfold last_declared_from in Hx. rewrite Hx. reflexivity.
      * intros x [= <-]. unfold declare. simpl. apply dict_get_set_same.
    + apply String.eqb_neq in E.
      assert (Hd : dict_get (declare d (n, k)) (PyStr name)
                   = dict_get d (PyStr name)).
      { unfold declare. simpl. apply dict_get_set_other. congruence. }
      rewrite (IH (declare d (n, k)) acc).
      * rewrite Hd. reflexivity.
      * intros x Hx. rewrite Hd. apply Hacc. exact Hx.
Qed.

(** ** Only [p_declaration] writes the mapping of predicates *)

Lemma keeps_ret {A} (x : A) : keeps_predicates (ret x).
Proof. intros st v st' H. inversion H. reflexivity. Qed.

Lemma keeps_raise {A} e : keeps_predicates (@raise A e).
Proof. intros st v st' H. discriminate. Qed.

Lemma keeps_bind {A B} (m : M A) (f : A -> M B) :
  keeps_predicates m -> (forall x, keeps_predicates (f x)) ->
  keeps_predicates (bind m f).
Proof.
  intros Hm Hf st v st' H. unfold bind in H.
  destruct (m st) as [[x s1]|e] eqn:E; [|discriminate].
  rewrite (Hf x _ _ _ H). apply (Hm _ _ _ E).
Qed.

Lemma keeps_getitem p i : keeps_predicates (getitem p i).
Proof.
  unfold getitem. destruct (nth_error p i);
    [apply keeps_ret|apply keeps_raise].
Qed.

Lemma keeps_isdigit x : keeps_predicates (isdigit x).
Proof. destruct x; first [apply keeps_ret | apply keeps_raise]. Qed.

Lemma keeps_py_int x : keeps_predicates (py_int x).
Proof.
  destruct x; simpl; try apply keeps_raise; try apply keeps_ret.
  destruct (str_isdigit s); [apply keeps_ret|apply keeps_raise].
Qed.

Lemma keeps_py_add x y : keeps_predicates (py_add x y).
Proof. destruct x, y; first [apply keeps_ret | apply keeps_raise]. Qed.

Lemma keeps_slice_all x : keeps_predicates (slice_all x).
Proof. destruct x; first [apply keeps_ret | apply keeps_raise]. Qed.

Lemma keeps_list_append x y : keeps_predicates (list_append x y).
Proof. destruct x; first [apply keeps_ret | apply keeps_raise]. Qed.

Lemma keeps_facts_append x : keeps_predicates (facts_append x).
Proof. intros st v st' H. inversion H. reflexivity. Qed.

Lemma keeps_rules_append x : keeps_predicates (rules_append x).
Proof. intros st v st' H. inversion H. reflexivity. Qed.

Lemma keeps_queries_append x : keeps_predicates (queries_append x).
Proof. intros st v st' H. inversion H. reflexivity. Qed.

Create HintDb keeps.

#[local] Hint Resolve keeps_ret keeps_raise keeps_getitem keeps_isdigit
  keeps_py_int keeps_py_add keeps_slice_all keeps_list_append
  keeps_facts_append keeps_rules_append keeps_queries_append : keeps.

Ltac keeps :=
  repeat first
    [ apply keeps_bind; [ solve [auto with keeps] | intro ]
    | solve [auto with keeps]
    | match goal with
      | |- keeps_predicates (if ?c then _ else _) => destruct c
      end ].

Lemma callable_keeps_predicates n p vals :
  nth_error Productions n = Some p -> n <> 6 ->
  keeps_predicates (callable p vals).
Proof.
  intros Hn H6.
  by_production Hn n ltac:(idtac).
  all: try congruence.
  all: simpl in Hn; injection Hn as <-; cbn [callable mk].
  all: unfold p_program, p_fact, p_query, p_params, p_var_expr,
         p_predicate, p_antecedents, p_rule; keeps.
Qed.

Lemma p_declaration_inv name digits dot st v st' :
  p_declaration [PyNone; PyStr name; PyStr digits; dot] st = Ok (v, st') ->
  predicates st' = declare (predicates st) (name, digits).
Proof.
  unfold p_declaration, bind, getitem, ret, py_int. cbn [nth_error].
  destruct (str_isdigit digits); [|discriminate].
  simpl. intros H. inversion H. reflexivity.
Qed.

(** ** The declarations of a program and its mapping *)

Lemma decl_nonident t r :
  type t <> IDENT -> declarations (t :: r) = declarations r.
Proof.
  intros H. simpl. destruct r as [|u r']; [reflexivity|].
  destruct (terminal_eqb (type t) IDENT) eqn:E; [|reflexivity].
  apply terminal_eqb_eq in E. contradiction.
Qed.

Lemma decl_ident_other t u r :
  type u <> NUMBER -> declarations (t :: u :: r) = declarations (u :: r).
Proof.
  intros H. cbn [declarations].
  destruct (terminal_eqb (type u) NUMBER) eqn:E.
  - apply terminal_eqb_eq in E. contradiction.
  - rewrite andb_false_r. reflexivity.
Qed.

Lemma decl_take t u r :
  type t = IDENT -> type u = NUMBER ->
  declarations (t :: u :: r) = (value t, value u) :: declarations (u :: r).
Proof. intros H1 H2. cbn [declarations]. rewrite H1, H2. reflexivity. Qed.


Ltac decl_rewrite :=
  repeat first
    [ rewrite decl_nonident by congruence
    | rewrite decl_ident_other by congruence
    | rewrite decl_take by assumption
    | match goal with
      | H : forall r, declarations (?w ++ r) = _ |- context [?w ++ _] =>
          rewrite H
      end ].

Lemma derives_declarations X w v st st' :
  derives X w v st st' -> decl_prop X w v st st'.
Proof.
  revert X w v st st'. apply (derives_induction decl_prop).
  - intros t st. exists t. auto.
  - intros n p toks vals v st st' st'' Hn Hseq Hc.
    assert (Hk : n <> 6 -> predicates st'' = predicates st').
    { intros H6. exact (callable_keeps_predicates n p _ Hn H6 _ _ _ Hc). }
    by_production Hn n ltac:(idtac).
    all: simpl in Hn; injection Hn as <-; cbn [prod mk name callable] in *.
    all: inv_seq_all.
    all: unfold decl_prop in *.
    all: repeat match goal with
         | H : exists _, _ |- _ => destruct H
         | H : _ /\ _ |- _ => destruct H
         end; subst.
    all: try (apply p_declaration_inv in Hc).
    all: try (specialize (Hk ltac:(discriminate))).
    all: cbn [app]; rewrite ?app_nil_r.
    all: try solve
      [ split;
        [ intros r;
          repeat first [ rewrite <- app_assoc | progress cbn [app] ];
          decl_rewrite; reflexivity
        | congruence ] ].
    (* S', program *)
    + eexists. split; [eassumption|congruence].
    + eexists. split.
      * intros r. rewrite <- app_assoc. decl_rewrite. reflexivity.
      * congruence.
    + eexists. split.
      * intros r. rewrite <- app_assoc. decl_rewrite. reflexivity.
      * congruence.
    + eexists. split.
      * intros r. rewrite <- app_assoc. decl_rewrite. reflexivity.
      * congruence.
    + match goal with
      | H : predicates ?s = fold_left declare ?D _,
        H' : predicates _ = declare (predicates ?s) ?nk |- _ =>
          exists (D ++ [nk]); split;
          [ intros r; rewrite <- !app_assoc; decl_rewrite; reflexivity
          | rewrite fold_left_app; simpl; congruence ]
      end.
    + exists []. split; [reflexivity|exact Hk].
    (* declaration *)
    + eexists. split; [|exact Hc].
      intros r. cbn [app]. decl_rewrite. reflexivity.
Qed.

(** ** Following the loop turn by turn *)


Lemma run_reaches c c' o :
  reaches c c' -> step_stream c' = Done o ->
  forall fuel, run_stream fuel c = o \/ run_stream fuel c = OutOfFuel.
Proof.
  induction 1 as [x|x y z Hs _ IH]; intros Hd fuel.
  - destruct fuel as [|k]; [right; reflexivity|].
    left. unfold run_stream. simpl. fold (step_stream x). rewrite Hd.
    reflexivity.
  - destruct fuel as [|k]; [right; reflexivity|].
    unfold run_stream. simpl. fold (step_stream x). rewrite Hs.
    apply IH. exact Hd.
Qed.


Lemma step_reduce_eq c top rest l lx n p v st' below rest' :
  stack c = top :: rest ->
  fetch stream next_of_stream c = inr (l, lx) ->
  lr_action (st_of top) (la_type l) = Reduce n ->
  nth_error Productions n = Some p ->
  callable p (PyNone :: map val (rev (firstn (List.length (prod p))
                                             (top :: rest))))
           (store c) = Ok (v, st') ->
  skipn (List.length (prod p)) (top :: rest) = below :: rest' ->
  step_stream c =
  Continue {| stack := {| st_of := goto (st_of below) (N (name p));
                          sym := N (name p); val := v |}
                       :: below :: rest';
              lookahead := Some l; lexer := lx; store := st' |}.
Proof.
  intros Hs Hf Ha Hn Hc Hk. unfold step_stream, step.
  rewrite Hs, Hf, Ha, Hn, Hc, Hk. reflexivity.
Qed.

Lemma step_accept_eq c top rest l lx :
  stack c = top :: rest ->
  fetch stream next_of_stream c = inr (l, lx) ->
  lr_action (st_of top) (la_type l) = Accept ->
  step_stream c = Done (Parsed (store c)).
Proof.
  intros Hs Hf Ha. unfold step_stream, step. rewrite Hs, Hf, Ha. reflexivity.
Qed.


Ltac reduce_turn n eqn :=
  eapply reaches_step;
  [ eapply (step_reduce_eq _ _ _ _ _ n);
    [ reflexivity | reflexivity | vm_compute; reflexivity | reflexivity
    | cbn [callable mk prod List.length firstn rev app map val];
      apply eqn
    | reflexivity ] | ].






(* ================================================================== *)
(** * The claims *)
(* ================================================================== *)

(** C4.  Parsing [likes(Mary, Tom). likes(Tom, Ann). ?likes(Mary, X).] into
    the empty store gives the two facts in source order with sign +1, no
    rule, and the single query; the query is in neither [facts] nor
    [rules]. *)
Theorem C4_likes_example :
  parseProgram "likes(Mary, Tom). likes(Tom, Ann). ?likes(Mary, X)."
               Program_initial
  = Parsed
      {| next_variable := 1;
         predicates := [];
         rules := [];
         facts :=
           [ PyTuple [PyInt 1; PyStr "likes";
                      PyList [PyStr "Mary"; PyStr "Tom"]];
             PyTuple [PyInt 1; PyStr "likes";
                      PyList [PyStr "Tom"; PyStr "Ann"]] ];
         queries :=
           [ PyTuple [PyStr "likes"; PyList [PyStr "Mary"; PyStr "X"]] ] |}.
Proof. vm_compute. reflexivity. Qed.

(** C8.  On integers the arithmetic table computes the sum for ["+"], the
    difference for ["-"], the remainder [x mod y] (with the sign of [y], as
    Python's [%]) for ["%"] when [y] is not zero, and the product for
    ["*"]. *)
Theorem C8_arithmetics (x y : Z) :
  arith "+" x y = Some (x + y)%Z /\
  arith "-" x y = Some (x - y)%Z /\
  (y <> 0%Z -> arith "%" x y = Some (x mod y)%Z) /\
  arith "*" x y = Some (x * y)%Z.
Proof.
  unfold arith, arithmetics, py_int_of_int; simpl.
  repeat split.
  intros Hy. apply Z.eqb_neq in Hy. rewrite Hy. reflexivity.
Qed.

Lemma C8_arithmetics_witness :
  arith "+" 7 (-2) = Some 5%Z /\
  arith "-" 7 (-2) = Some 9%Z /\
  ((-2)%Z <> 0%Z -> arith "%" 7 (-2) = Some (-1)%Z) /\
  arith "*" 7 (-2) = Some (-14)%Z.
Proof. exact (C8_arithmetics 7 (-2)). Defined.

(** C1.  On [h(X) :- a(X), b(X).] the stored rule has the antecedents in
    the order [b(X), a(X)]: [p_antecedents] appends the first literal after
    the list of those that follow it. *)
Theorem C1_antecedents_reversed :
  parseProgram "h(X) :- a(X), b(X)." Program_initial
  = Parsed
      (add_rule
         (PyTuple
            [ PyTuple [PyInt 1; PyStr "h"; PyList [PyStr "X"]];
              PyList [ PyTuple [PyInt 1; PyStr "b"; PyList [PyStr "X"]];
                       PyTuple [PyInt 1; PyStr "a"; PyList [PyStr "X"]] ] ])
         Program_initial).
Proof. vm_compute. reflexivity. Qed.



(** C10.  [f().] is a syntax error, at the closing parenthesis, and every
    fact, every literal of a rule and every query that a parse stores has
    at least one argument. *)
Theorem C10_arguments_nonempty :
  (forall st,
      parseProgram "f()." st
      = SyntaxError (Some {| type := RPAREN; value := ")"; lineno := 1 |})) /\
  (forall text st st',
      parseProgram text st = Parsed st' ->
      exists d,
        adds st st' d /\
        Forall (fun lit => exists a, args_of lit = Some a /\ a <> [])
               (stored_literals d) /\
        Forall (fun q => exists a, query_args q = Some a /\ a <> [])
               (new_queries d)).
Proof.
  split; [intros st; vm_compute; reflexivity|].
  intros text st st' H.
  destruct (parseProgram_adds _ _ _ H) as (d & Hd & Hl & Hq).
  exists d. split; [exact Hd|]. split.
  - revert Hl. apply Forall_impl.
    intros lit (sg & nm & ags & -> & _ & _ & Hne & _). exists ags. auto.
  - revert Hq. apply Forall_impl.
    intros q (nm & ags & -> & _ & Hne & _). exists ags. auto.
Qed.

Lemma C10_arguments_nonempty_witness :
  exists d,
    adds Program_initial
         (add_fact (PyTuple [PyInt 1; PyStr "f"; PyList [PyStr "X"]])
                   Program_initial) d /\
    Forall (fun lit => exists a, args_of lit = Some a /\ a <> [])
           (stored_literals d) /\
    Forall (fun q => exists a, query_args q = Some a /\ a <> [])
           (new_queries d).
Proof.
  apply (proj2 C10_arguments_nonempty "f(X)." Program_initial).
  vm_compute. reflexivity.
Defined.




(** C7.  A parse only appends to the facts, rules and queries it finds in
    the store, and what it appends is what the same text gives on the empty
    store: a second call of [parseProgram] adds its results after those of
    the first, nothing is reset. *)
Theorem C7_appends_never_resets text st st' :
  parseProgram text st = Parsed st' ->
  exists d,
    parseProgram text Program_initial = Parsed d /\
    facts st' = facts st ++ facts d /\
    rules st' = rules st ++ rules d /\
    queries st' = queries st ++ queries d.
Proof.
  intros H. pose proof (parseProgram_sim text st) as Hs.
  rewrite H in Hs. unfold rel_outcome in Hs.
  destruct (parseProgram text Program_initial) as [d| | | |];
    try contradiction.
  exists d. split; [reflexivity|exact Hs].
Qed.

Lemma C7_appends_never_resets_witness :
  exists d,
    parseProgram "g(Y). ?g(Z)." Program_initial = Parsed d /\
    facts (add_fact (PyTuple [PyInt 1; PyStr "g"; PyList [PyStr "Y"]])
             (add_query (PyTuple [PyStr "g"; PyList [PyStr "Z"]])
                (add_fact (PyTuple [PyInt 1; PyStr "f"; PyList [PyStr "X"]])
                          Program_initial)))
    = facts (add_fact (PyTuple [PyInt 1; PyStr "f"; PyList [PyStr "X"]])
                      Program_initial) ++ facts d /\
    rules (add_fact (PyTuple [PyInt 1; PyStr "g"; PyList [PyStr "Y"]])
             (add_query (PyTuple [PyStr "g"; PyList [PyStr "Z"]])
                (add_fact (PyTuple [PyInt 1; PyStr "f"; PyList [PyStr "X"]])
                          Program_initial)))
    = rules (add_fact (PyTuple [PyInt 1; PyStr "f"; PyList [PyStr "X"]])
                      Program_initial) ++ rules d /\
    queries (add_fact (PyTuple [PyInt 1; PyStr "g"; PyList [PyStr "Y"]])
               (add_query (PyTuple [PyStr "g"; PyList [PyStr "Z"]])
                  (add_fact (PyTuple [PyInt 1; PyStr "f"; PyList [PyStr "X"]])
                            Program_initial)))
    = queries (add_fact (PyTuple [PyInt 1; PyStr "f"; PyList [PyStr "X"]])
                        Program_initial) ++ queries d.
Proof.
  apply (C7_appends_never_resets "g(Y). ?g(Z)."
           (add_fact (PyTuple [PyInt 1; PyStr "f"; PyList [PyStr "X"]])
                     Program_initial)).
  vm_compute. reflexivity.
Defined.



(** C5.  After a successful parse the mapping of predicates is the one it
    found with the declarations of the text written into it in source
    order: a name that is declared maps to the number of its last
    declaration, whatever came before; a name that is not declared keeps
    its entry; and the keys stay distinct. *)
Theorem C5_last_declaration_wins text st st' :
  parseProgram text st = Parsed st' ->
  exists toks,
    tokenize text = Some toks /\
    predicates st' = fold_left declare (declarations toks) (predicates st) /\
    (forall name,
        dict_get (predicates st') (PyStr name)
        = match last_declared name (declarations toks) with
          | Some digits => Some (PyInt (digits_value digits 0))
          | None => dict_get (predicates st) (PyStr name)
          end) /\
    (NoDup (keys (predicates st)) -> NoDup (keys (predicates st'))).
Proof.
  intros H. apply parseProgram_derives in H.
  destruct H as (toks & v & Htok & _ & Hd).
  apply derives_declarations in Hd. simpl in Hd.
  destruct Hd as (D & HD & Hp).
  specialize (HD []). rewrite app_nil_r in HD. simpl in HD.
  rewrite app_nil_r in HD. subst D.
  exists toks. split; [exact Htok|]. split; [exact Hp|]. split.
  - intros name. rewrite Hp. apply fold_declare_get. discriminate.
  - intros Hn. rewrite Hp. apply fold_declare_NoDup. exact Hn.
Qed.

Lemma C5_last_declaration_wins_witness :
  exists toks,
    tokenize "f 2. g(X). f 3." = Some toks /\
    predicates
      (set_predicate (PyStr "f") (PyInt 3)
         (add_fact (PyTuple [PyInt 1; PyStr "g"; PyList [PyStr "X"]])
            (set_predicate (PyStr "f") (PyInt 2) Program_initial)))
    = fold_left declare (declarations toks) (predicates Program_initial) /\
    (forall name,
        dict_get
          (predicates
             (set_predicate (PyStr "f") (PyInt 3)
                (add_fact (PyTuple [PyInt 1; PyStr "g"; PyList [PyStr "X"]])
                   (set_predicate (PyStr "f") (PyInt 2) Program_initial))))
          (PyStr name)
        = match last_declared name (declarations toks) with
          | Some digits => Some (PyInt (digits_value digits 0))
          | None => dict_get (predicates Program_initial) (PyStr name)
          end) /\
    (NoDup (keys (predicates Program_initial)) ->
     NoDup (keys (predicates
        (set_predicate (PyStr "f") (PyInt 3)
           (add_fact (PyTuple [PyInt 1; PyStr "g"; PyList [PyStr "X"]])
              (set_predicate (PyStr "f") (PyInt 2) Program_initial)))))).
Proof.
  apply (C5_last_declaration_wins "f 2. g(X). f 3." Program_initial).
  vm_compute. reflexivity.
Defined.



(* ================================================================== *)
(** * Further properties of the module *)
(* ================================================================== *)


(** X2.  Whether a text parses, and the error it ends in when it does not,
    do not depend on what the store holds: a failure on any store is the
    same failure on the empty store, and a text that parses on one store
    parses on every store. *)
Theorem X2_outcome_independent_of_store text st :
  (forall o, failed o ->
     (parseProgram text st = o <-> parseProgram text Program_initial = o)) /\
  ((exists st', parseProgram text st = Parsed st') <->
   (exists d, parseProgram text Program_initial = Parsed d)).
Proof.
  pose proof (parseProgram_sim text st) as H. unfold rel_outcome in H.
  split.
  - intros o Ho.
    destruct (parseProgram text st) as [s|c line|t|e|],
             (parseProgram text Program_initial) as [s'|c' line'|t'|e'|];
      try contradiction; try discriminate; try (rewrite H; tauto);
      destruct o; simpl in Ho; try contradiction; split; discriminate.
  - destruct (parseProgram text st) as [s|c line|t|e|],
             (parseProgram text Program_initial) as [s'|c' line'|t'|e'|];
      try contradiction; try discriminate;
      split; intros [x Hx]; try discriminate; eauto.
Qed.

Lemma X2_outcome_independent_of_store_witness :
  parseProgram "f(X" (add_fact (PyInt 7) Program_initial) = SyntaxError None
  <-> parseProgram "f(X" Program_initial = SyntaxError None.
Proof.
  apply (proj1 (X2_outcome_independent_of_store "f(X"
                  (add_fact (PyInt 7) Program_initial)) (SyntaxError None)).
  exact I.
Defined.

(** ** The allocator *)

Lemma next_vars_S k st :
  next_vars (S k) st
  = let st1 := {| next_variable := next_variable st + 1;
                  predicates := predicates st; rules := rules st;
                  facts := facts st; queries := queries st |} in
    (next_variable st :: fst (next_vars k st1), snd (next_vars k st1)).
Proof.
  cbn [next_vars]. unfold next_var. cbv zeta. cbn [next_variable].
  destruct (next_vars k _) as [vs st2]. cbn [fst snd].
  f_equal. f_equal. lia.
Qed.

Lemma next_vars_spec k :
  forall st,
    fst (next_vars k st)
    = map (fun i => (next_variable st + Z.of_nat i)%Z) (seq 0 k) /\
    next_variable (snd (next_vars k st)) = (next_variable st + Z.of_nat k)%Z /\
    predicates (snd (next_vars k st)) = predicates st /\
    facts (snd (next_vars k st)) = facts st /\
    rules (snd (next_vars k st)) = rules st /\
    queries (snd (next_vars k st)) = queries st.
Proof.
  induction k as [|k IH]; intros st.
  - simpl. repeat split; try reflexivity. lia.
  - rewrite next_vars_S. cbv zeta. cbn [fst snd].
    destruct (IH {| next_variable := next_variable st + 1;
                    predicates := predicates st; rules := rules st;
                    facts := facts st; queries := queries st |})
      as (Hv & Hn & Hp & Hf & Hr & Hq).
    cbn [next_variable predicates facts rules queries] in *.
    repeat split; try assumption.
    + cbn [seq map]. f_equal; [lia|].
      rewrite Hv, <- seq_shift, map_map. apply map_ext. intros i. lia.
    + lia.
Qed.

Lemma NoDup_map_injective {A B} (f : A -> B) l :
  (forall x y, f x = f y -> x = y) -> NoDup l -> NoDup (map f l).
Proof.
  intros Hf H. induction H as [|x l Hx _ IH]; simpl; constructor; auto.
  rewrite in_map_iff. intros [y [Hy Hin]].
  apply Hf in Hy. subst. contradiction.
Qed.

(** X3.  [Program.next_var()] returns the counter and then adds one to it:
    [k] calls in a row return [n, n+1, ..., n+k-1] for the counter [n] they
    start from, so no value is handed out twice, and they touch nothing
    else in the store. *)
Theorem X3_next_var_fresh k st :
  fst (next_vars k st)
  = map (fun i => (next_variable st + Z.of_nat i)%Z) (seq 0 k) /\
  NoDup (fst (next_vars k st)) /\
  next_variable (snd (next_vars k st)) = (next_variable st + Z.of_nat k)%Z /\
  predicates (snd (next_vars k st)) = predicates st /\
  facts (snd (next_vars k st)) = facts st /\
  rules (snd (next_vars k st)) = rules st /\
  queries (snd (next_vars k st)) = queries st.
Proof.
  destruct (next_vars_spec k st) as (Hv & Hrest).
  split; [exact Hv|]. split; [|exact Hrest].
  rewrite Hv. apply NoDup_map_injective; [|apply seq_NoDup].
  intros i j H. lia.
Qed.

Lemma digits_value_nonneg s : forall acc, (0 <= acc)%Z -> (0 <= digits_value s acc)%Z.
Proof.
  induction s as [|c r IH]; intros acc H; cbn [digits_value]; [exact H|].
  apply IH. lia.
Qed.

(** X4.  A parse never touches the counter of variable identifiers, and
    every entry it writes into the mapping of predicates is a non-negative
    integer: what a name maps to afterwards is the entry it had before or
    the arity of a declaration. *)
Theorem X4_counter_and_arities text st st' :
  parseProgram text st = Parsed st' ->
  next_variable st' = next_variable st /\
  forall name v,
    dict_get (predicates st') (PyStr name) = Some v ->
    dict_get (predicates st) (PyStr name) = Some v \/
    exists n, v = PyInt n /\ (0 <= n)%Z.
Proof.
  intros H. split.
  - apply parseProgram_extends in H.
    destruct H as (fs & rs & qs & _ & _ & _ & _ & _ & _ & Hn). exact Hn.
  - apply parseProgram_derives in H. destruct H as (toks & v0 & _ & _ & Hd).
    apply derives_declarations in Hd. simpl in Hd.
    destruct Hd as (D & _ & Hp).
    intros name v Hv. rewrite Hp in Hv.
    rewrite (fold_declare_get name D (predicates st) None) in Hv
      by discriminate.
    destruct (last_declared_from None name D) as [x|].
    + right. inversion Hv. eexists. split; [reflexivity|].
      apply digits_value_nonneg. lia.
    + left. exact Hv.
Qed.

Lemma X4_counter_and_arities_witness :
  next_variable (set_predicate (PyStr "f") (PyInt 2) Program_initial)
  = next_variable Program_initial /\
  forall name v,
    dict_get (predicates (set_predicate (PyStr "f") (PyInt 2) Program_initial))
             (PyStr name) = Some v ->
    dict_get (predicates Program_initial) (PyStr name) = Some v \/
    exists n, v = PyInt n /\ (0 <= n)%Z.
Proof.
  apply (X4_counter_and_arities "f 2." Program_initial).
  vm_compute. reflexivity.
Defined.

(** ** The lexer passes over blanks and nothing else *)

Lemma sapp_assoc (a b c : string) : ((a ++ b) ++ c = a ++ (b ++ c))%string.
Proof. induction a as [|x a IH]; simpl; [reflexivity|]. rewrite IH. reflexivity. Qed.

Lemma span_split f s a b :
  span f s = (a, b) -> s = (a ++ b)%string /\ all_chars f a = true.
Proof.
  revert a b. induction s as [|c r IH]; intros a b H; simpl in H.
  - inversion H. auto.
  - destruct (f c) eqn:F.
    + destruct (span f r) as [a' b'] eqn:E. inversion H; subst.
      destruct (IH _ _ eq_refl) as [-> Ha]. simpl. rewrite F. auto.
    + inversion H. auto.
Qed.

Lemma all_chars_impl (f g : ascii -> bool) s :
  (forall c, f c = true -> g c = true) ->
  all_chars f s = true -> all_chars g s = true.
Proof.
  intros H. induction s as [|c r IH]; simpl; [reflexivity|].
  rewrite !andb_true_iff. intros [H1 H2]. auto.
Qed.

Lemma word_solid c : is_word c = true -> is_solid c = true.
Proof.
  destruct c as [[] [] [] [] [] [] [] []]; vm_compute; intros H;
    first [reflexivity | discriminate].
Qed.

Lemma digit_solid c : is_digit c = true -> is_solid c = true.
Proof.
  destruct c as [[] [] [] [] [] [] [] []]; vm_compute; intros H;
    first [reflexivity | discriminate].
Qed.

Lemma strip_blank_prefix a b :
  all_chars is_blank a = true -> strip (a ++ b) = strip b.
Proof.
  induction a as [|c a IH]; simpl; [reflexivity|].
  rewrite andb_true_iff. intros [H1 H2]. rewrite H1. auto.
Qed.

Lemma strip_solid_prefix a b :
  all_chars is_solid a = true -> strip (a ++ b) = (a ++ strip b)%string.
Proof.
  induction a as [|c a IH]; simpl; [reflexivity|].
  rewrite andb_true_iff. intros [H1 H2].
  unfold is_solid in H1. apply negb_true_iff in H1. rewrite H1, IH; auto.
Qed.

Lemma newlines_app a b :
  count_newlines (a ++ b) = count_newlines a + count_newlines b.
Proof. induction a as [|c a IH]; simpl; [reflexivity|]. rewrite IH. lia. Qed.

Lemma newlines_solid a : all_chars is_solid a = true -> count_newlines a = 0.
Proof.
  induction a as [|c a IH]; simpl; [reflexivity|].
  rewrite andb_true_iff. intros [H1 H2].
  unfold is_solid, is_blank in H1. apply negb_true_iff, orb_false_iff in H1.
  destruct H1 as [_ H1]. rewrite H1, IH; auto.
Qed.

(** What one call of the lexer does to the text: it passes over blanks,
    counting the newlines among them, and takes the token that follows. *)
Lemma token_from_split s line t l' :
  token_from s line = LexTok t l' ->
  exists skip,
    s = (skip ++ value t ++ lexdata l')%string /\
    all_chars is_blank skip = true /\
    all_chars is_solid (value t) = true /\
    lexlineno l' = line + count_newlines skip /\
    lineno t = lexlineno l'.
Proof.
  revert line. induction s as [|c r IH]; intros line H; simpl in H.
  - discriminate.
  - destruct (t_ignore c) eqn:Hig.
    { destruct (IH _ H) as (skip & -> & Hb & Hs & Hl & Ht).
      exists (String c skip). simpl. unfold is_blank at 1. rewrite Hig. simpl.
      assert (Hn : (code c =? 10) = false).
      { unfold t_ignore in Hig. apply orb_true_iff in Hig.
        rewrite !Nat.eqb_eq in Hig. apply Nat.eqb_neq. lia. }
      rewrite Hn. auto. }
    destruct (code c =? 10) eqn:Hnl.
    { destruct (IH _ H) as (skip & -> & Hb & Hs & Hl & Ht).
      exists (String c skip). simpl. unfold is_blank at 1.
      rewrite Hig, Hnl. simpl. repeat split; auto. lia. }
    assert (Hc : is_solid c = true).
    { unfold is_solid, is_blank. rewrite Hig, Hnl. reflexivity. }
    destruct (is_lower c).
    { destruct (span is_word r) as [w r'] eqn:E. inversion H; subst.
      destruct (span_split _ _ _ _ E) as [-> Hw].
      exists EmptyString. destruct (t_IDENT_same
        {| type := IDENT; value := String c w; lineno := line |}) as [-> ->].
      simpl. rewrite Hc. repeat split; auto.
      apply (all_chars_impl is_word); [exact word_solid|exact Hw]. }
    destruct (is_upper c).
    { destruct (span is_word r) as [w r'] eqn:E. inversion H; subst.
      destruct (span_split _ _ _ _ E) as [-> Hw].
      exists EmptyString. simpl. rewrite Hc. repeat split; auto.
      apply (all_chars_impl is_word); [exact word_solid|exact Hw]. }
    destruct (is_digit c).
    { destruct (span is_digit r) as [w r'] eqn:E. inversion H; subst.
      destruct (span_split _ _ _ _ E) as [-> Hw].
      exists EmptyString. simpl. rewrite Hc. repeat split; auto.
      apply (all_chars_impl is_digit); [exact digit_solid|exact Hw]. }
    destruct (single c).
    { inversion H; subst. exists EmptyString. simpl. rewrite Hc.
      repeat split; auto. }
    destruct (code c =? 58) eqn:H58; [|discriminate].
    destruct r as [|d r']; [discriminate|].
    destruct (code d =? 45) eqn:H45; [|discriminate].
    inversion H; subst. exists EmptyString.
    apply Nat.eqb_eq in H58, H45.
    assert (c = ":"%char).
    { rewrite <- (ascii_nat_embedding c). unfold code in H58. rewrite H58.
      reflexivity. }
    assert (d = "-"%char).
    { rewrite <- (ascii_nat_embedding d). unfold code in H45. rewrite H45.
      reflexivity. }
    subst c d. simpl. repeat split; auto.
Qed.

Lemma token_from_eof s line :
  token_from s line = LexEOF -> all_chars is_blank s = true.
Proof.
  revert line. induction s as [|c r IH]; intros line H; simpl in H.
  - reflexivity.
  - simpl. unfold is_blank at 1.
    destruct (t_ignore c). { simpl. eauto. }
    destruct (code c =? 10). { simpl. eauto. }
    destruct (is_lower c). { destruct (span is_word r); discriminate. }
    destruct (is_upper c). { destruct (span is_word r); discriminate. }
    destruct (is_digit c). { destruct (span is_digit r); discriminate. }
    destruct (single c); [discriminate|].
    destruct (code c =? 58); [|discriminate].
    destruct r as [|d r']; [discriminate|].
    destruct (code d =? 45); discriminate.
Qed.

Lemma token_from_illegal s line ch l :
  token_from s line = LexIllegal ch l ->
  exists skip rest,
    s = (skip ++ String ch rest)%string /\
    all_chars is_blank skip = true /\
    is_solid ch = true /\
    l = line + count_newlines skip.
Proof.
  revert line. induction s as [|c r IH]; intros line H; simpl in H.
  - discriminate.
  - destruct (t_ignore c) eqn:Hig.
    { destruct (IH _ H) as (skip & rest & -> & Hb & Hs & Hl).
      exists (String c skip), rest. simpl. unfold is_blank at 1.
      rewrite Hig. simpl.
      assert (Hn : (code c =? 10) = false).
      { unfold t_ignore in Hig. apply orb_true_iff in Hig.
        rewrite !Nat.eqb_eq in Hig. apply Nat.eqb_neq. lia. }
      rewrite Hn. auto. }
    destruct (code c =? 10) eqn:Hnl.
    { destruct (IH _ H) as (skip & rest & -> & Hb & Hs & Hl).
      exists (String c skip), rest. simpl. unfold is_blank at 1.
      rewrite Hig, Hnl. simpl. repeat split; auto. lia. }
    assert (Hc : is_solid c = true).
    { unfold is_solid, is_blank. rewrite Hig, Hnl. reflexivity. }
    destruct (is_lower c). { destruct (span is_word r); discriminate. }
    destruct (is_upper c). { destruct (span is_word r); discriminate. }
    destruct (is_digit c). { destruct (span is_digit r); discriminate. }
    destruct (single c); [discriminate|].
    assert (Hgoal : ch = c /\ l = line).
    { destruct (code c =? 58).
      - destruct r as [|d r']; [inversion H; auto|].
        destruct (code d =? 45); [discriminate|inversion H; auto].
      - inversion H; auto. }
    destruct Hgoal as [-> ->].
    exists EmptyString, r. simpl. repeat split; auto.
Qed.

Lemma strip_all_blank s : all_chars is_blank s = true -> strip s = EmptyString.
Proof.
  induction s as [|c r IH]; simpl; [reflexivity|].
  rewrite andb_true_iff. intros [H1 H2]. rewrite H1. auto.
Qed.

Lemma app_cons_inv {A} (pre : list A) t post x xs :
  pre ++ t :: post = x :: xs ->
  (pre = [] /\ t = x /\ post = xs) \/
  (exists pre', pre = x :: pre' /\ xs = pre' ++ t :: post).
Proof.
  destruct pre as [|y pre']; simpl; intros H; inversion H; subst.
  - left. auto.
  - right. exists pre'. auto.
Qed.

(** Where the tokens and the end of a scan lie in the text. *)
Lemma scan_lexer_split l :
  forall toks e,
    scan_lexer l = (toks, e) ->
    (forall pre t post,
        toks = pre ++ t :: post ->
        exists before after,
          lexdata l = (before ++ value t ++ after)%string /\
          lineno t = lexlineno l + count_newlines before /\
          strip before = concat_values pre) /\
    match e with
    | AtEOF => strip (lexdata l) = concat_values toks
    | AtIllegal c line =>
        exists before after,
          lexdata l = (before ++ String c after)%string /\
          line = lexlineno l + count_newlines before /\
          strip before = concat_values toks /\
          is_solid c = true
    end.
Proof.
  remember (String.length (lexdata l)) as n eqn:Hn.
  revert l Hn. induction n as [n IH] using lt_wf_ind. intros l Hn toks e Hs.
  destruct (token l) as [t0 l'| |c line] eqn:E.
  - rewrite (scan_lexer_tok _ _ _ E) in Hs. inversion Hs; subst toks e.
    pose proof (token_from_shorter _ _ _ _ E) as Hlt. rewrite <- Hn in Hlt.
    destruct (IH _ Hlt l' eq_refl _ _ (surjective_pairing _)) as [IH1 IH2].
    destruct (token_from_split _ _ _ _ E) as (skip & Hd & Hb & Hsol & Hl & Ht).
    split.
    + intros pre t post Heq. symmetry in Heq.
      apply app_cons_inv in Heq.
      destruct Heq as [(-> & -> & ->)|(pre' & -> & Heq)].
      * exists skip, (lexdata l'). split; [exact Hd|].
        split; [congruence|]. simpl. apply strip_all_blank. exact Hb.
      * destruct (IH1 _ _ _ Heq) as (b' & after & Hd' & Hl' & Hs').
        exists (skip ++ value t0 ++ b')%string, after. split; [|split].
        -- rewrite Hd, Hd', !sapp_assoc. reflexivity.
        -- rewrite Hl', Hl, !newlines_app, (newlines_solid _ Hsol). lia.
        -- rewrite (strip_blank_prefix _ _ Hb), (strip_solid_prefix _ _ Hsol).
           simpl. rewrite Hs'. reflexivity.
    + destruct (snd (scan_lexer l')) as [|c line].
      * rewrite Hd, (strip_blank_prefix _ _ Hb), (strip_solid_prefix _ _ Hsol).
        simpl. rewrite IH2. reflexivity.
      * destruct IH2 as (b' & after & Hd' & Hl' & Hs' & Hc).
        exists (skip ++ value t0 ++ b')%string, after. repeat split.
        -- rewrite Hd, Hd', !sapp_assoc. reflexivity.
        -- rewrite Hl', Hl, !newlines_app, (newlines_solid _ Hsol). lia.
        -- rewrite (strip_blank_prefix _ _ Hb), (strip_solid_prefix _ _ Hsol).
           simpl. rewrite Hs'. reflexivity.
        -- exact Hc.
  - rewrite (scan_lexer_eof _ E) in Hs. inversion Hs; subst toks e. split.
    + intros pre t post Heq. destruct pre; discriminate.
    + simpl. apply strip_all_blank. exact (token_from_eof _ _ E).
  - rewrite (scan_lexer_illegal _ _ _ E) in Hs. inversion Hs; subst toks e.
    split.
    + intros pre t post Heq. destruct pre; discriminate.
    + destruct (token_from_illegal _ _ _ _ E) as (skip & rest & Hd & Hb & Hc & Hl).
      exists skip, rest. repeat split; auto.
      simpl. apply strip_all_blank. exact Hb.
Qed.

(** X5.  The lexer drops blanks and nothing else: for a text that lexes to
    its end, the texts of the tokens, one after the other, are the text
    with its spaces, tabs and newlines taken out. *)
Theorem X5_tokens_are_the_text text toks :
  tokenize text = Some toks -> concat_values toks = strip text.
Proof.
  unfold tokenize. intros H.
  destruct (scan text) as [ts e] eqn:Hs. destruct e; [|discriminate].
  inversion H; subst ts.
  destruct (scan_lexer_split (lex_input text) _ _ Hs) as [_ H2].
  simpl in H2. symmetry. exact H2.
Qed.

Lemma X5_tokens_are_the_text_witness :
  concat_values
    [ {| type := IDENT; value := "f"; lineno := 1 |};
      {| type := NUMBER; value := "2"; lineno := 2 |};
      {| type := PERIOD; value := "."; lineno := 2 |} ]
  = strip "f
  2 .".
Proof.
  apply (X5_tokens_are_the_text "f
  2 ."). vm_compute. reflexivity.
Defined.

(** X6.  Every token carries the line it stands on: the text of the token
    occurs in the text after exactly the tokens that precede it, and its
    line number is one more than the number of newlines before it. *)
Theorem X6_token_line_numbers text toks e pre t post :
  scan text = (toks, e) ->
  toks = pre ++ t :: post ->
  exists before after,
    text = (before ++ value t ++ after)%string /\
    lineno t = 1 + count_newlines before /\
    strip before = concat_values pre.
Proof.
  intros Hs Heq.
  destruct (scan_lexer_split (lex_input text) _ _ Hs) as [H1 _].
  exact (H1 _ _ _ Heq).
Qed.

Lemma X6_token_line_numbers_witness :
  exists before after,
    "f
  2 ." = (before ++ "2" ++ after)%string /\
    2 = 1 + count_newlines before /\
    strip before = concat_values [ {| type := IDENT; value := "f"; lineno := 1 |} ].
Proof.
  apply (X6_token_line_numbers "f
  2 ."
           [ {| type := IDENT; value := "f"; lineno := 1 |};
             {| type := NUMBER; value := "2"; lineno := 2 |};
             {| type := PERIOD; value := "."; lineno := 2 |} ]
           AtEOF
           [ {| type := IDENT; value := "f"; lineno := 1 |} ]
           {| type := NUMBER; value := "2"; lineno := 2 |}
           [ {| type := PERIOD; value := "."; lineno := 2 |} ]).
  - vm_compute. reflexivity.
  - reflexivity.
Defined.

(** ** What the two error reports say *)

(** Where a turn of the loop that ends the run has stopped. *)
Lemma step_done_where st0 all e c o :
  config_inv st0 all e c ->
  step_stream c = Done o ->
  match o with
  | IllegalCharacter ch line => e = AtIllegal ch line
  | SyntaxError (Some t) => In t all
  | SyntaxError None => e = AtEOF
  | _ => True
  end.
Proof.
  intros (syms & toks & Hinv & Hall & Hsnd & Hend).
  unfold step_stream, step.
  destruct (stack c) as [|top rest] eqn:Hstk.
  { intros H. inversion H. exact I. }
  destruct (fetch stream next_of_stream c) as [o'|[l lx]] eqn:Hf.
  - intros H. inversion H; subst o'. clear H.
    unfold fetch in Hf. destruct (lookahead c); [discriminate|].
    destruct (lexer c) as [[|t r] [|ch line]]; simpl in Hf, Hsnd;
      inversion Hf; subst. reflexivity.
  - destruct (fetch_stream _ _ _ Hf Hend) as (Hpend & Hsnd' & HlEnd).
    destruct (lr_action (st_of top) (la_type l)); try discriminate.
    + destruct (nth_error Productions n); [|intros H; inversion H; exact I].
      destruct (callable _ _ _) as [[v s']|ex]; [|intros H; inversion H; exact I].
      destruct (skipn _ _); [intros H; inversion H; exact I|discriminate].
    + intros H. inversion H. exact I.
    + intros H. inversion H; subst o. clear H.
      destruct l as [t|].
      * rewrite Hall, Hpend. apply in_or_app. right. simpl. auto.
      * rewrite <- Hsnd, <- Hsnd', (HlEnd eq_refl). reflexivity.
Qed.

Lemma run_done_where st0 all e fuel :
  forall c,
    config_inv st0 all e c ->
    match run_stream fuel c with
    | IllegalCharacter ch line => e = AtIllegal ch line
    | SyntaxError (Some t) => In t all
    | SyntaxError None => e = AtEOF
    | _ => True
    end.
Proof.
  induction fuel as [|k IH]; intros c Hinv; [exact I|].
  unfold run_stream. simpl. fold (step_stream c).
  destruct (step_stream c) as [c'|o] eqn:Hs.
  - apply IH. eapply step_inv; eassumption.
  - eapply step_done_where; eassumption.
Qed.

(** X7.  The report of [t_error] is exact: the character it prints stands
    in the text, it is no blank, the line it prints is one more than the
    number of newlines before the character, and all the text before the
    character had been cut into tokens. *)
Theorem X7_illegal_character_report text st ch line :
  parseProgram text st = IllegalCharacter ch line ->
  exists before after toks,
    text = (before ++ String ch after)%string /\
    line = 1 + count_newlines before /\
    is_solid ch = true /\
    scan text = (toks, AtIllegal ch line) /\
    strip before = concat_values toks.
Proof.
  rewrite parseProgram_stream. intros H.
  destruct (scan text) as [toks e] eqn:Hscan.
  pose proof (run_done_where st toks e (4 * String.length text + 4) _
                (start_inv toks e st)) as Hw.
  rewrite H in Hw. subst e.
  destruct (scan_lexer_split (lex_input text) _ _ Hscan) as [_ H2].
  destruct H2 as (before & after & Hd & Hl & Hs & Hc).
  exists before, after, toks. simpl in Hd, Hl. auto.
Qed.

Lemma X7_illegal_character_report_witness :
  exists before after toks,
    "f(X).
g(X) :~ h(X)." = (before ++ String ":" after)%string /\
    2 = 1 + count_newlines before /\
    is_solid ":" = true /\
    scan "f(X).
g(X) :~ h(X)." = (toks, AtIllegal ":" 2) /\
    strip before = concat_values toks.
Proof.
  apply (X7_illegal_character_report "f(X).
g(X) :~ h(X)." Program_initial ":" 2).
  vm_compute. reflexivity.
Defined.

(** X8.  The report of [p_error] is exact: a token it names is a token of
    the text and its line is one more than the number of newlines before
    that token, and [Syntax error at EOF] is printed only for a text the
    lexer has read to its end. *)
Theorem X8_syntax_error_report text st r :
  parseProgram text st = SyntaxError r ->
  match r with
  | Some t =>
      exists before after,
        text = (before ++ value t ++ after)%string /\
        lineno t = 1 + count_newlines before /\
        In t (fst (scan text))
  | None => exists toks, tokenize text = Some toks
  end.
Proof.
  rewrite parseProgram_stream. intros H.
  destruct (scan text) as [toks e] eqn:Hscan.
  pose proof (run_done_where st toks e (4 * String.length text + 4) _
                (start_inv toks e st)) as Hw.
  rewrite H in Hw. destruct r as [t|].
  - destruct (in_split _ _ Hw) as (pre & post & Heq).
    destruct (scan_lexer_split (lex_input text) _ _ Hscan) as [H1 _].
    destruct (H1 _ _ _ Heq) as (before & after & Hd & Hl & _).
    exists before, after. simpl in Hd, Hl. auto.
  - subst e. exists toks. unfold tokenize. rewrite Hscan. reflexivity.
Qed.

Lemma X8_syntax_error_report_witness :
  exists before after,
    "f(X).
g(a)." = (before ++ "a" ++ after)%string /\
    2 = 1 + count_newlines before /\
    In {| type := IDENT; value := "a"; lineno := 2 |} (fst (scan "f(X).
g(a).")).
Proof.
  apply (X8_syntax_error_report "f(X).
g(a)." Program_initial
           (Some {| type := IDENT; value := "a"; lineno := 2 |})).
  vm_compute. reflexivity.
Defined.

(** ** The classes of the tokens *)

Lemma scan_lexer_Forall (P : LexToken -> Prop) :
  (forall s line t l', token_from s line = LexTok t l' -> P t) ->
  forall l, Forall P (fst (scan_lexer l)).
Proof.
  intros HP l.
  remember (String.length (lexdata l)) as n eqn:Hn.
  revert l Hn. induction n as [n IH] using lt_wf_ind. intros l Hn.
  destruct (token l) as [t l'| |c line] eqn:E.
  - rewrite (scan_lexer_tok _ _ _ E). simpl. constructor.
    + apply (HP _ _ _ _ E).
    + pose proof (token_from_shorter _ _ _ _ E) as Hs.
      rewrite <- Hn in Hs. apply (IH _ Hs l' eq_refl).
  - rewrite (scan_lexer_eof _ E). constructor.
  - rewrite (scan_lexer_illegal _ _ _ E). constructor.
Qed.

Lemma token_from_not s line t l' :
  token_from s line = LexTok t l' -> value t = "not" -> type t = NOT.
Proof.
  revert line. induction s as [|c r IH]; intros line H Hv; simpl in H.
  - discriminate.
  - destruct (t_ignore c). { eapply IH; eassumption. }
    destruct (code c =? 10). { eapply IH; eassumption. }
    destruct (is_lower c).
    { destruct (span is_word r) as [w r'] eqn:E. inversion H; subst.
      rewrite (proj1 (t_IDENT_same _)) in Hv. cbn [value] in Hv.
      unfold t_IDENT. cbn [value]. rewrite Hv. reflexivity. }
    destruct (is_upper c) eqn:U.
    { destruct (span is_word r) as [w r'] eqn:E. inversion H; subst.
      cbn [value] in Hv. injection Hv as -> _. vm_compute in U.
      discriminate U. }
    destruct (is_digit c) eqn:D.
    { destruct (span is_digit r) as [w r'] eqn:E. inversion H; subst.
      cbn [value] in Hv. injection Hv as -> _. vm_compute in D.
      discriminate D. }
    destruct (single c) eqn:Sg.
    { inversion H; subst. cbn [value] in Hv. injection Hv as _ Hv.
      discriminate Hv. }
    destruct (code c =? 58); [|discriminate].
    destruct r as [|d r']; [discriminate|].
    destruct (code d =? 45); [|discriminate].
    inversion H; subst. cbn [value] in Hv. discriminate Hv.
Qed.

(** X9.  [not] is a reserved word and the only one: a token of the text
    has the type NOT exactly when its text is [not], so that a longer word
    such as [nothing] stays a name. *)
Theorem X9_not_is_reserved text t :
  In t (fst (scan text)) ->
  (type t = NOT <-> value t = "not").
Proof.
  intros Hin. split.
  - intros Ht.
    pose proof (scan_lexer_ok (lex_input text)) as Hok.
    rewrite Forall_forall in Hok. specialize (Hok t Hin).
    unfold tok_ok in Hok. rewrite Ht in Hok. exact Hok.
  - pose proof (scan_lexer_Forall
                  (fun t => value t = "not" -> type t = NOT)
                  token_from_not (lex_input text)) as Hall.
    rewrite Forall_forall in Hall. exact (Hall t Hin).
Qed.

Lemma X9_not_is_reserved_witness :
  type {| type := IDENT; value := "nothing"; lineno := 1 |} = NOT <->
  value {| type := IDENT; value := "nothing"; lineno := 1 |} = "not".
Proof.
  apply (X9_not_is_reserved "not nothing(X)."). vm_compute. right. left.
  reflexivity.
Defined.

Lemma span_stops f r w r' : span f r = (w, r') -> first_is f r' = false.
Proof.
  revert w r'. induction r as [|c r IH]; intros w r' H; simpl in H.
  - inversion H. reflexivity.
  - destruct (f c) eqn:F.
    + destruct (span f r) as [a b]. inversion H; subst. eapply IH. reflexivity.
    + inversion H; subst. simpl. exact F.
Qed.

Lemma single_type c ty :
  single c = Some ty ->
  match ty with
  | IDENT | NOT | VAR | NUMBER => False
  | _ => True
  end.
Proof.
  destruct c as [[] [] [] [] [] [] [] []]; vm_compute; intros H;
    try discriminate; injection H as <-; exact I.
Qed.

(** X10.  Names, variables and numbers are as long as they can be: after a
    token IDENT, NOT or VAR the rest of the text does not go on with a
    letter, digit or underscore, and after a NUMBER it does not go on with
    a digit. *)
Theorem X10_longest_match l t l' :
  token l = LexTok t l' ->
  match type t with
  | IDENT | NOT | VAR => first_is is_word (lexdata l') = false
  | NUMBER => first_is is_digit (lexdata l') = false
  | _ => True
  end.
Proof.
  unfold token. generalize (lexlineno l) as line.
  induction (lexdata l) as [|c r IH]; intros line H; simpl in H.
  - discriminate.
  - destruct (t_ignore c). { eapply IH; eassumption. }
    destruct (code c =? 10). { eapply IH; eassumption. }
    destruct (is_lower c).
    { destruct (span is_word r) as [w r'] eqn:E. inversion H; subst.
      apply span_stops in E. unfold t_IDENT. cbn [value lexdata].
      destruct (String c w =? "not")%string; exact E. }
    destruct (is_upper c).
    { destruct (span is_word r) as [w r'] eqn:E. inversion H; subst.
      apply span_stops in E. exact E. }
    destruct (is_digit c).
    { destruct (span is_digit r) as [w r'] eqn:E. inversion H; subst.
      apply span_stops in E. exact E. }
    destruct (single c) eqn:Sg.
    { inversion H; subst. apply single_type in Sg. cbn [type].
      destruct t0; first [exact I | contradiction]. }
    destruct (code c =? 58); [|discriminate].
    destruct r as [|d r']; [discriminate|].
    destruct (code d =? 45); [|discriminate].
    inversion H; subst. exact I.
Qed.

Lemma X10_longest_match_witness :
  first_is is_word "(X)." = false.
Proof.
  apply (X10_longest_match (lex_input "  ab1(X).")
           {| type := IDENT; value := "ab1"; lineno := 1 |}
           {| lexdata := "(X)."; lexlineno := 1 |}).
  vm_compute. reflexivity.
Defined.

(** ** Texts without a clause, and clauses that cannot start *)

Lemma token_from_blank s line :
  all_chars is_blank s = true -> token_from s line = LexEOF.
Proof.
  revert line. induction s as [|c r IH]; intros line H; simpl in *.
  - reflexivity.
  - apply andb_true_iff in H. destruct H as [H1 H2]. unfold is_blank in H1.
    destruct (t_ignore c); [apply IH; exact H2|].
    simpl in H1. rewrite H1. apply IH. exact H2.
Qed.

(** X11.  A text of spaces, tabs and newlines only, the empty text among
    them, is a program: it parses and leaves the store as it was. *)
Theorem X11_blank_text text st :
  all_chars is_blank text = true -> parseProgram text st = Parsed st.
Proof.
  intros Hb. pose proof (parseProgram_total text st) as Htot.
  rewrite parseProgram_stream in *.
  assert (Hs : scan text = ([], AtEOF)).
  { apply scan_lexer_eof. apply token_from_blank. exact Hb. }
  rewrite Hs in *.
  assert (Hrun : forall fuel,
             run_stream fuel (start stream ([], AtEOF) st) = Parsed st \/
             run_stream fuel (start stream ([], AtEOF) st) = OutOfFuel).
  { eapply run_reaches.
    - reduce_turn 5 p_program_eq. apply reaches_refl.
    - eapply step_accept_eq;
        [reflexivity | reflexivity | vm_compute; reflexivity]. }
  destruct (Hrun (4 * String.length text + 4)) as [H|H].
  - exact H.
  - rewrite H in Htot. contradiction.
Qed.

Lemma X11_blank_text_witness :
  parseProgram "
  	
" Program_initial = Parsed Program_initial.
Proof.
  apply (X11_blank_text "
  	
" Program_initial). vm_compute. reflexivity.
Defined.

Lemma step_error_eq c top rest t lx :
  stack c = top :: rest ->
  fetch stream next_of_stream c = inr (LaTok t, lx) ->
  lr_action (st_of top) (type t) = Error ->
  step_stream c = Done (SyntaxError (Some t)).
Proof.
  intros Hs Hf Ha. unfold step_stream, step. rewrite Hs, Hf. simpl.
  rewrite Ha. reflexivity.
Qed.

(** X12.  A clause starts with a name, with [not] or with a question mark:
    a text whose first token is anything else is a syntax error at that
    token, whatever follows it. *)
Theorem X12_clause_start text st t rest e :
  scan text = (t :: rest, e) ->
  type t <> IDENT -> type t <> NOT -> type t <> QUESTION ->
  parseProgram text st = SyntaxError (Some t).
Proof.
  intros Hs H1 H2 H3. rewrite parseProgram_stream, Hs.
  pose proof (scan_lexer_ok (lex_input text)) as Hok.
  fold (scan text) in Hok. rewrite Hs in Hok. simpl in Hok.
  inversion Hok as [|x xs Ht _]; subst. unfold tok_ok in Ht.
  replace (4 * String.length text + 4) with (S (4 * String.length text + 3))
    by lia.
  unfold run_stream. cbn [run]. fold (step_stream (start stream (t :: rest, e) st)).
  erewrite step_error_eq; [reflexivity | reflexivity | reflexivity |].
  cbn [st_of bottom].
  destruct (type t); try contradiction; try congruence;
    vm_compute; reflexivity.
Qed.

Lemma X12_clause_start_witness :
  parseProgram "X :- f(X)." Program_initial =
  SyntaxError (Some {| type := VAR; value := "X"; lineno := 1 |}).
Proof.
  apply (X12_clause_start "X :- f(X)." Program_initial
           {| type := VAR; value := "X"; lineno := 1 |}
           [ {| type := ENTAILED; value := ":-"; lineno := 1 |};
             {| type := IDENT; value := "f"; lineno := 1 |};
             {| type := LPAREN; value := "("; lineno := 1 |};
             {| type := VAR; value := "X"; lineno := 1 |};
             {| type := RPAREN; value := ")"; lineno := 1 |};
             {| type := PERIOD; value := "."; lineno := 1 |} ]
           AtEOF).
  - vm_compute. reflexivity.
  - discriminate.
  - discriminate.
  - discriminate.
Defined.

(** ** Every clause is stored once *)

Lemma count_type_cons a t w :
  count_type a (t :: w)
  = (if terminal_eqb (type t) a then 1 else 0) + count_type a w.
Proof.
  unfold count_type. simpl. destruct (terminal_eqb (type t) a); reflexivity.
Qed.

Lemma count_type_app a u w :
  count_type a (u ++ w) = count_type a u + count_type a w.
Proof. unfold count_type. rewrite filter_app, length_app. reflexivity. Qed.

Lemma adds_none st :
  adds st st {| new_facts := []; new_rules := []; new_queries := [] |}.
Proof. unfold adds. simpl. rewrite !app_nil_r. auto. Qed.

Lemma adds_app a b c d1 d2 :
  adds a b d1 -> adds b c d2 ->
  adds a c {| new_facts := new_facts d1 ++ new_facts d2;
              new_rules := new_rules d1 ++ new_rules d2;
              new_queries := new_queries d1 ++ new_queries d2 |}.
Proof.
  intros (F1 & R1 & Q1) (F2 & R2 & Q2). unfold adds. simpl.
  rewrite F2, F1, R2, R1, Q2, Q1, !app_assoc. auto.
Qed.

Lemma p_declaration_adds p st v st' :
  p_declaration p st = Ok (v, st') ->
  adds st st' {| new_facts := []; new_rules := []; new_queries := [] |}.
Proof.
  unfold p_declaration, bind, getitem, ret, raise, predicates_setitem.
  destruct (nth_error p 1) as [p1|]; [|discriminate].
  destruct (nth_error p 2) as [p2|]; [|discriminate].
  destruct (py_int p2 st) as [[n s1]|ex] eqn:E; [|discriminate].
  assert (s1 = st).
  { unfold py_int, ret, raise in E. destruct p2; try discriminate.
    - inversion E. reflexivity.
    - destruct (str_isdigit s); inversion E. reflexivity. }
  subst s1. destruct (hashable p1); [|discriminate].
  intros H. inversion H. unfold adds. simpl. rewrite !app_nil_r. auto.
Qed.

Lemma p_fact_adds p st v st' :
  p_fact p st = Ok (v, st') ->
  exists f,
    adds st st' {| new_facts := [f]; new_rules := []; new_queries := [] |}.
Proof.
  unfold p_fact, bind, getitem, ret, raise, facts_append.
  destruct (nth_error p 1) as [p1|]; [|discriminate].
  destruct (obj_eqb p1 (PyStr "not")).
  - destruct (nth_error p 2) as [p2|]; [|discriminate].
    destruct (nth_error p 4) as [p4|]; [|discriminate].
    intros H. inversion H. eexists. unfold adds. simpl.
    rewrite !app_nil_r. auto.
  - destruct (nth_error p 3) as [p3|]; [|discriminate].
    intros H. inversion H. eexists. unfold adds. simpl.
    rewrite !app_nil_r. auto.
Qed.

Lemma p_query_adds p st v st' :
  p_query p st = Ok (v, st') ->
  exists q,
    adds st st' {| new_facts := []; new_rules := []; new_queries := [q] |}.
Proof.
  unfold p_query, bind, getitem, ret, raise, queries_append.
  destruct (nth_error p 2) as [p2|]; [|discriminate].
  destruct (nth_error p 4) as [p4|]; [|discriminate].
  intros H. inversion H. eexists. unfold adds. simpl.
  rewrite !app_nil_r. auto.
Qed.

Lemma p_var_expr_pure p st v st' :
  p_var_expr p st = Ok (v, st') -> st' = st.
Proof.
  unfold p_var_expr, bind, getitem, ret, raise, isdigit, py_int.
  destruct (2 <? List.length p).
  - destruct (nth_error p 1) as [p1|]; [|discriminate].
    destruct (nth_error p 2) as [p2|]; [|discriminate].
    destruct (nth_error p 3) as [p3|]; [|discriminate].
    intros H. inversion H. reflexivity.
  - destruct (nth_error p 1) as [p1|]; [|discriminate].
    destruct p1; try discriminate.
    destruct (str_isdigit s); intros H; inversion H; reflexivity.
Qed.

Lemma p_predicate_pure p st v st' :
  p_predicate p st = Ok (v, st') -> st' = st.
Proof.
  unfold p_predicate, bind, getitem, ret, raise.
  destruct (nth_error p 1) as [p1|]; [|discriminate].
  destruct (obj_eqb p1 (PyStr "not")).
  - destruct (nth_error p 2) as [p2|]; [|discriminate].
    destruct (nth_error p 4) as [p4|]; [|discriminate].
    intros H. inversion H. reflexivity.
  - destruct (nth_error p 3) as [p3|]; [|discriminate].
    intros H. inversion H. reflexivity.
Qed.

Lemma count_type_nil a : count_type a [] = 0.
Proof. reflexivity. Qed.

Ltac split_marks :=
  repeat match goal with
  | H : marks _ = (_, _, _) |- _ =>
      unfold marks in H; apply pair_equal_spec in H;
      let H' := fresh H in
      destruct H as [H H']; apply pair_equal_spec in H;
      let H'' := fresh H in destruct H as [H H'']
  end.

Ltac count_tokens :=
  cbn [app]; rewrite ?app_nil_r;
  repeat first [ rewrite count_type_cons | rewrite count_type_app ];
  rewrite ?count_type_nil;
  repeat match goal with
  | H : type ?t = _ |- context [type ?t] => rewrite H
  end;
  cbn [terminal_eqb].

Ltac solve_marks :=
  split_marks; unfold marks; count_tokens;
  apply pair_equal_spec; split; [apply pair_equal_spec; split|];
  cbn [List.length]; lia.

Ltac join_added :=
  match goal with
  | H1 : adds ?a ?b ?d1, H2 : adds ?b ?c ?d2 |- exists d, adds ?a ?c d /\ _ =>
      eexists; split; [exact (adds_app _ _ _ _ _ H1 H2)|]
  end;
  split_marks;
  unfold stored_literals in *;
  cbn [new_facts new_rules new_queries] in *;
  rewrite ?flat_map_app, ?length_app in *;
  cbn [flat_map rule_literals app List.length];
  rewrite ?app_nil_r, ?length_app; cbn [List.length];
  count_tokens; repeat split; lia.

Lemma derives_count X w v st st' :
  derives X w v st st' -> count_prop X w v st st'.
Proof.
  revert X w v st st'. apply (derives_induction count_prop).
  - intros t st. split; [exists t; auto | reflexivity].
  - intros n p toks vals v st st' st'' Hn Hseq Hc.
    by_production Hn n ltac:(idtac).
    all: simpl in Hn; injection Hn as <-; cbn [prod mk name callable] in *.
    all: inv_seq_all.
    all: cbn [count_prop] in *.
    all: repeat match goal with
         | H : exists _, _ |- _ => destruct H
         | H : _ /\ _ |- _ => destruct H
         end; subst.
    all: first
           [ rewrite p_program_eq in Hc; inversion Hc; subst
           | apply p_declaration_adds in Hc
           | apply p_fact_adds in Hc; destruct Hc as [f Hc]
           | apply p_query_adds in Hc; destruct Hc as [q Hc]
           | rewrite p_params_one in Hc; inversion Hc; subst
           | rewrite p_params_more in Hc; inversion Hc; subst
           | apply p_var_expr_pure in Hc; subst
           | apply p_predicate_pure in Hc; subst
           | rewrite p_antecedents_one in Hc; inversion Hc; subst
           | rewrite p_antecedents_more in Hc; inversion Hc; subst
           | rewrite p_rule_eq in Hc; inversion Hc; subst ].
    (* S' and program *)
    + rewrite app_nil_r. eauto.
    + join_added.
    + join_added.
    + join_added.
    + join_added.
    + exists {| new_facts := []; new_rules := []; new_queries := [] |}.
      split; [apply adds_none|]. repeat split; reflexivity.
    (* declaration, fact, query *)
    + split; [assumption | solve_marks].
    + split; [eauto | solve_marks].
    + split; [eauto | solve_marks].
    + split; [eauto | solve_marks].
    (* params *)
    + split; [reflexivity|]. split; [eauto | solve_marks].
    + split; [reflexivity|]. split; [eauto | solve_marks].
    (* var_expr *)
    + split; [reflexivity | solve_marks].
    + split; [reflexivity | solve_marks].
    + split; [reflexivity | solve_marks].
    + split; [reflexivity | solve_marks].
    + split; [reflexivity | solve_marks].
    + split; [reflexivity | solve_marks].
    (* predicate *)
    + split; [reflexivity | solve_marks].
    + split; [reflexivity | solve_marks].
    (* antecedents *)
    + split; [reflexivity|]. eexists. split; [reflexivity | solve_marks].
    + split; [reflexivity|]. eexists. split; [reflexivity|].
      rewrite length_app. solve_marks.
    (* rule *)
    + eexists. eexists. split.
      * unfold adds, add_rule. simpl. rewrite !app_nil_r. auto.
      * solve_marks.
Qed.

(** X13.  Nothing that is written is dropped or stored twice: a parse adds
    one query for every question mark of the text and one rule for every
    arrow, and as many literals (facts, and the consequents and antecedents
    of the rules) and queries together as the text has opening
    parentheses. *)
Theorem X13_every_clause_stored_once text st st' :
  parseProgram text st = Parsed st' ->
  exists toks d,
    tokenize text = Some toks /\
    adds st st' d /\
    List.length (new_queries d) = count_type QUESTION toks /\
    List.length (new_rules d) = count_type ENTAILED toks /\
    List.length (stored_literals d) + List.length (new_queries d)
    = count_type LPAREN toks.
Proof.
  intros H. apply parseProgram_derives in H.
  destruct H as (toks & v & Htok & _ & Hd).
  apply derives_count in Hd. cbn [count_prop] in Hd.
  destruct Hd as (d & Hd). exists toks, d. auto.
Qed.

Lemma X13_every_clause_stored_once_witness :
  exists toks d,
    tokenize "f(1). ?g(X). h(X) :- f(X), not g(X+1)." = Some toks /\
    adds Program_initial
      (add_rule
         (PyTuple
            [PyTuple [PyInt 1; PyStr "h"; PyList [PyStr "X"]];
             PyList
               [PyTuple [PyInt (-1); PyStr "g";
                         PyList [PyTuple [PyStr "X"; PyStr "+"; PyInt 1]]];
                PyTuple [PyInt 1; PyStr "f"; PyList [PyStr "X"]]]])
         (add_query (PyTuple [PyStr "g"; PyList [PyStr "X"]])
            (add_fact (PyTuple [PyInt 1; PyStr "f"; PyList [PyInt 1]])
               Program_initial))) d /\
    List.length (new_queries d) = count_type QUESTION toks /\
    List.length (new_rules d) = count_type ENTAILED toks /\
    List.length (stored_literals d) + List.length (new_queries d)
    = count_type LPAREN toks.
Proof.
  apply (X13_every_clause_stored_once
           "f(1). ?g(X). h(X) :- f(X), not g(X+1)." Program_initial).
  vm_compute. reflexivity.
Defined.

(** ** Every clause ends with a period *)

Lemma last_type_app_some w1 w2 a :
  last_type w2 = Some a -> last_type (w1 ++ w2) = Some a.
Proof.
  intros H. induction w1 as [|t r IH]; [exact H|].
  simpl app. remember (r ++ w2) as l eqn:E. destruct l as [|u l'].
  - discriminate IH.
  - exact IH.
Qed.

Lemma last_type_single t : last_type [t] = Some (type t).
Proof. reflexivity. Qed.

Lemma derives_period X w v st st' :
  derives X w v st st' -> period_prop X w v st st'.
Proof.
  revert X w v st st'. apply (derives_induction period_prop).
  - intros t st. exists t. auto.
  - intros n p toks vals v st st' st'' Hn Hseq _.
    by_production Hn n ltac:(idtac).
    all: simpl in Hn; injection Hn as <-; cbn [prod mk name] in *.
    all: inv_seq_all.
    all: cbn [period_prop] in *.
    all: repeat match goal with
         | H : exists _, _ |- _ => destruct H as (? & -> & ?)
         end.
    all: rewrite ?app_nil_r.
    all: try exact I.
    all: try solve
           [ repeat (apply last_type_app_some);
             first [ assumption
                   | rewrite last_type_single; congruence ] ].
    + right. apply last_type_app_some. assumption.
    + right. apply last_type_app_some. assumption.
    + right. apply last_type_app_some. assumption.
    + right. apply last_type_app_some. assumption.
    + left. reflexivity.
Qed.

(** X14.  Every clause ends with a period: the last token of a text that
    parses, if it has a token at all, is a period. *)
Theorem X14_ends_with_period text st st' :
  parseProgram text st = Parsed st' ->
  exists toks,
    tokenize text = Some toks /\
    (toks = [] \/ last_type toks = Some PERIOD).
Proof.
  intros H. apply parseProgram_derives in H.
  destruct H as (toks & v & Htok & _ & Hd).
  apply derives_period in Hd. exists toks. auto.
Qed.

Lemma X14_ends_with_period_witness :
  exists toks,
    tokenize "f(1). ?f(X)." = Some toks /\
    (toks = [] \/ last_type toks = Some PERIOD).
Proof.
  apply (X14_ends_with_period "f(1). ?f(X)." Program_initial
           (add_query (PyTuple [PyStr "f"; PyList [PyStr "X"]])
              (add_fact (PyTuple [PyInt 1; PyStr "f"; PyList [PyInt 1]])
                 Program_initial))).
  vm_compute. reflexivity.
Defined.

(** ** The store written back is the text *)

Lemma join_with_cons sep p r :
  r <> [] -> join_with sep (p :: r) = p ++ sep :: join_with sep r.
Proof. destruct r; [congruence | reflexivity]. Qed.

Lemma join_with_snoc sep l p :
  l <> [] -> join_with sep (l ++ [p]) = join_with sep l ++ sep :: p.
Proof.
  induction l as [|a l IH]; [congruence|]. intros _.
  destruct l as [|b l'].
  - reflexivity.
  - change ((a :: b :: l') ++ [p]) with (a :: ((b :: l') ++ [p])).
    rewrite join_with_cons by (simpl; discriminate).
    rewrite IH by discriminate.
    rewrite (join_with_cons sep a (b :: l')) by discriminate.
    rewrite <- app_assoc. reflexivity.
Qed.

Lemma adds_add_fact f st :
  adds st (add_fact f st)
       {| new_facts := [f]; new_rules := []; new_queries := [] |}.
Proof. unfold adds. simpl. rewrite !app_nil_r. auto. Qed.

Lemma adds_add_rule r st :
  adds st (add_rule r st)
       {| new_facts := []; new_rules := [r]; new_queries := [] |}.
Proof. unfold adds. simpl. rewrite !app_nil_r. auto. Qed.

Lemma adds_add_query q st :
  adds st (add_query q st)
       {| new_facts := []; new_rules := []; new_queries := [q] |}.
Proof. unfold adds. simpl. rewrite !app_nil_r. auto. Qed.

Lemma adds_set_predicate k v st :
  adds st (set_predicate k v st)
       {| new_facts := []; new_rules := []; new_queries := [] |}.
Proof. unfold adds. simpl. rewrite !app_nil_r. auto. Qed.

Lemma unparse_atom t : unparse_term (term_of_atom t) = [term_of_atom t].
Proof. unfold term_of_atom. destruct (str_isdigit (value t)); reflexivity. Qed.

Ltac use_tok_ok :=
  repeat match goal with
  | H : Forall tok_ok (_ ++ _) |- _ =>
      apply Forall_app in H; let H' := fresh H in destruct H as [H' H]
  end;
  repeat match goal with
  | H : Forall tok_ok ?w -> _, H' : Forall tok_ok ?w |- _ =>
      specialize (H H')
  end.

Ltac open_tokens :=
  repeat match goal with
  | H : exists _, _ |- _ => destruct H
  | H : _ /\ _ |- _ => destruct H
  end; subst;
  repeat match goal with
  | H : Forall tok_ok [?x] |- _ =>
      apply Forall_inv in H; unfold tok_ok in H
  end;
  repeat match goal with
  | Ht : type ?x = _, H : context [type ?x] |- _ =>
      lazymatch type of H with
      | type x = _ => fail
      | _ => rewrite Ht in H
      end
  end.

Ltac images :=
  rewrite ?app_nil_r; cbn [app];
  repeat first [ rewrite map_app | progress cbn [map] ];
  repeat match goal with
  | H : _ = map image ?w |- context [map image ?w] => rewrite <- H
  end;
  unfold image;
  repeat match goal with
  | Ht : type ?x = _ |- context [type ?x] => rewrite Ht
  end;
  cbn [spelling].

Ltac written :=
  unfold unparse_fact, unparse_query, unparse_rule, unparse_literal;
  cbn [Z.eqb Pos.eqb app];
  repeat match goal with
  | H : _ = map image _ |- _ => rewrite <- H
  end;
  repeat first [ rewrite <- app_assoc | progress cbn [app] ];
  reflexivity.

Ltac spell_clause :=
  match goal with
  | x : added |- _ =>
      let fs := fresh "fs" in let rs := fresh "rs" in
      let qs := fresh "qs" in destruct x as [fs rs qs]
  end;
  eexists; split; [eapply adds_app; eassumption|];
  cbn [new_facts new_rules new_queries];
  rewrite ?app_nil_r, map_app;
  repeat match goal with
  | H : _ = map image _ |- _ => rewrite <- H
  | H : map image _ = _ |- _ => rewrite H
  end;
  match goal with
  | H : spells _ ?d |- _ =>
      first [ apply (spells_declaration _ d) | apply (spells_fact _ d)
            | apply (spells_rule _ d) | apply (spells_query _ d) ];
      exact H
  end.

Lemma derives_unparse X w v st st' :
  derives X w v st st' -> unparse_prop X w v st st'.
Proof.
  revert X w v st st'. apply (derives_induction unparse_prop).
  - intros t st _. exists t. auto.
  - intros n p toks vals v st st' st'' Hn Hseq Hc Hok.
    by_production Hn n ltac:(idtac).
    all: simpl in Hn; injection Hn as <-; cbn [prod mk name callable] in *.
    all: inv_seq_all.
    all: unfold unparse_prop in *.
    all: use_tok_ok.
    all: open_tokens.
    all: first
           [ rewrite p_program_eq in Hc
           | rewrite p_declaration_eq in Hc by assumption
           | rewrite p_fact_plain in Hc by assumption
           | match goal with
             | H : value _ = "not" |- _ => rewrite H in Hc
             end; rewrite p_fact_not in Hc
           | rewrite p_query_eq in Hc
           | rewrite p_params_one in Hc
           | rewrite p_params_more in Hc
           | rewrite p_var_expr_atom in Hc
           | rewrite p_var_expr_binary in Hc
           | rewrite p_predicate_plain in Hc by assumption
           | match goal with
             | H : value _ = "not" |- _ => rewrite H in Hc
             end; rewrite p_predicate_not in Hc
           | rewrite p_antecedents_one in Hc
           | rewrite p_antecedents_more in Hc
           | rewrite p_rule_eq in Hc ];
         inversion Hc; subst; clear Hc.
    (* S' and program *)
    + rewrite app_nil_r. eauto.
    + spell_clause.
    + spell_clause.
    + spell_clause.
    + spell_clause.
    + eexists. split; [apply adds_none | constructor].
    (* declaration *)
    + split; [apply adds_set_predicate|]. images.
      unfold term_of_atom.
      match goal with H : str_isdigit _ = true |- _ => rewrite H end.
      eexists. eexists. reflexivity.
    (* fact *)
    + eexists. split; [apply adds_add_fact|]. images. written.
    + eexists. split; [apply adds_add_fact|]. images. written.
    (* query *)
    + eexists. split; [apply adds_add_query|]. images. written.
    (* params *)
    + split; [reflexivity|]. eexists. split; [reflexivity|].
      split; [discriminate|]. images. reflexivity.
    + split; [reflexivity|]. eexists. split; [reflexivity|].
      split; [apply app_not_nil|]. images.
      unfold unparse_args in *. rewrite map_app. cbn [map].
      rewrite join_with_snoc by (destruct x0; [congruence | discriminate]).
      reflexivity.
    (* var_expr *)
    + split; [reflexivity|]. images. apply unparse_atom.
    + split; [reflexivity|]. images. apply unparse_atom.
    + split; [reflexivity|]. images. reflexivity.
    + split; [reflexivity|]. images. reflexivity.
    + split; [reflexivity|]. images. reflexivity.
    + split; [reflexivity|]. images. reflexivity.
    (* predicate *)
    + split; [reflexivity|]. images. written.
    + split; [reflexivity|]. images. written.
    (* antecedents *)
    + split; [reflexivity|]. eexists. split; [reflexivity|].
      split; [discriminate|]. images. reflexivity.
    + split; [reflexivity|]. eexists. split; [reflexivity|].
      split; [apply app_not_nil|]. images.
      rewrite rev_app_distr. cbn [rev app map].
      rewrite join_with_cons.
      * reflexivity.
      * destruct x0; [congruence|]. cbn [rev]. rewrite map_app.
        apply app_not_nil.
    (* rule *)
    + eexists. split; [apply adds_add_rule|]. images. written.
Qed.

Lemma single_image c ty line :
  single c = Some ty ->
  image {| type := ty; value := String c EmptyString; lineno := line |}
  = written {| type := ty; value := String c EmptyString; lineno := line |}.
Proof.
  destruct c as [[] [] [] [] [] [] [] []]; vm_compute; intros H;
    try discriminate; injection H as <-; reflexivity.
Qed.

(** The image of a token of the lexer is the token as a value. *)
Lemma token_from_image s line t l' :
  token_from s line = LexTok t l' -> image t = written t.
Proof.
  revert line. induction s as [|c r IH]; intros line H; simpl in H.
  - discriminate.
  - destruct (t_ignore c). { eapply IH; eassumption. }
    destruct (code c =? 10). { eapply IH; eassumption. }
    destruct (is_lower c).
    { destruct (span is_word r) as [w r'] eqn:E. inversion H; subst.
      unfold t_IDENT. cbn [value].
      destruct (String c w =? "not")%string eqn:Q; [|reflexivity].
      apply String.eqb_eq in Q. unfold image, written. cbn [type value].
      rewrite Q. reflexivity. }
    destruct (is_upper c) eqn:U.
    { destruct (span is_word r) as [w r'] eqn:E. inversion H; subst.
      unfold image, written, term_of_atom. cbn [type value str_isdigit all_chars].
      rewrite (upper_not_digit _ U). reflexivity. }
    destruct (is_digit c) eqn:D.
    { destruct (span is_digit r) as [w r'] eqn:E. inversion H; subst.
      unfold image, written, term_of_atom. cbn [type value str_isdigit all_chars].
      rewrite D, (all_digits_span _ _ _ E). reflexivity. }
    destruct (single c) eqn:Sg.
    { inversion H; subst. apply single_image. exact Sg. }
    destruct (code c =? 58); [|discriminate].
    destruct r as [|d r']; [discriminate|].
    destruct (code d =? 45); [|discriminate].
    inversion H; subst. reflexivity.
Qed.

(** X15.  What a parse stores can be written back and gives the text
    again: token for token, the text is the stored facts, rules and
    queries, each list in its order, and declarations between them.  Only
    the blanks and the spelling of the numbers ([007] is stored as 7) are
    lost, and the order of clauses of different kinds.  In particular the
    arguments of every predicate are stored in the order they are written,
    and the antecedents of every rule last first. *)
Theorem X15_store_spells_the_text text st st' :
  parseProgram text st = Parsed st' ->
  exists toks d,
    tokenize text = Some toks /\
    adds st st' d /\
    spells (map written toks) d.
Proof.
  intros H. apply parseProgram_derives in H.
  destruct H as (toks & v & Htok & Hok & Hd).
  apply derives_unparse in Hd. specialize (Hd Hok).
  destruct Hd as (d & Hadds & Hsp). exists toks, d.
  split; [exact Htok|]. split; [exact Hadds|].
  assert (Himg : map image toks = map written toks).
  { pose proof (scan_lexer_Forall (fun t => image t = written t)
                  token_from_image (lex_input text)) as Hall.
    fold (scan text) in Hall. unfold tokenize in Htok.
    destruct (scan text) as [ts e]. destruct e; [|discriminate].
    inversion Htok; subst ts. simpl in Hall.
    apply map_ext_in. apply Forall_forall. exact Hall. }
  rewrite <- Himg. exact Hsp.
Qed.

Lemma X15_store_spells_the_text_witness :
  exists toks d,
    tokenize "f(1). h(X) :- f(X), not g(X+1, 2)." = Some toks /\
    adds Program_initial
      (add_rule
         (PyTuple
            [PyTuple [PyInt 1; PyStr "h"; PyList [PyStr "X"]];
             PyList
               [PyTuple [PyInt (-1); PyStr "g";
                         PyList [PyTuple [PyStr "X"; PyStr "+"; PyInt 1];
                                 PyInt 2]];
                PyTuple [PyInt 1; PyStr "f"; PyList [PyStr "X"]]]])
         (add_fact (PyTuple [PyInt 1; PyStr "f"; PyList [PyInt 1]])
            Program_initial)) d /\
    spells (map written toks) d.
Proof.
  apply (X15_store_spells_the_text
           "f(1). h(X) :- f(X), not g(X+1, 2)." Program_initial).
  vm_compute. reflexivity.
Defined.

(** ** The characters [t_error] stops at *)

Lemma token_from_illegal_kind s line ch l :
  token_from s line = LexIllegal ch l ->
  is_blank ch = false /\ starts_no_token ch = true.
Proof.
  revert line. induction s as [|c r IH]; intros line H; simpl in H.
  - discriminate.
  - destruct (t_ignore c) eqn:Hig. { eapply IH; eassumption. }
    destruct (code c =? 10) eqn:Hnl. { eapply IH; eassumption. }
    destruct (is_lower c) eqn:Hlo.
    { destruct (span is_word r); discriminate. }
    destruct (is_upper c) eqn:Hup.
    { destruct (span is_word r); discriminate. }
    destruct (is_digit c) eqn:Hdi.
    { destruct (span is_digit r); discriminate. }
    destruct (single c) eqn:Hsi; [discriminate|].
    assert (Hc : ch = c).
    { destruct (code c =? 58).
      - destruct r as [|d r']; [inversion H; auto|].
        destruct (code d =? 45); [discriminate|inversion H; auto].
      - inversion H; auto. }
    subst ch. unfold is_blank, starts_no_token.
    rewrite Hig, Hnl, Hlo, Hup, Hdi, Hsi. auto.
Qed.

Lemma scan_illegal_call l :
  forall toks c line,
    scan_lexer l = (toks, AtIllegal c line) ->
    exists l', token l' = LexIllegal c line.
Proof.
  remember (String.length (lexdata l)) as n eqn:Hn.
  revert l Hn. induction n as [n IH] using lt_wf_ind.
  intros l Hn toks c line Hs.
  destruct (token l) as [t0 l'| |c0 line0] eqn:E.
  - rewrite (scan_lexer_tok _ _ _ E) in Hs. inversion Hs.
    pose proof (token_from_shorter _ _ _ _ E) as Hlt. rewrite <- Hn in Hlt.
    apply (IH _ Hlt l' eq_refl (fst (scan_lexer l')) c line).
    destruct (scan_lexer l') as [ts e]. simpl in *. congruence.
  - rewrite (scan_lexer_eof _ E) in Hs. discriminate.
  - rewrite (scan_lexer_illegal _ _ _ E) in Hs. inversion Hs; subst.
    exists l. exact E.
Qed.

(** X16.  [t_error] stops at a character that starts no token: it is no
    blank, no letter, no digit and none of the one-character tokens.  An
    underscore, which may stand inside a name, and a colon, which starts
    the arrow, are such characters. *)
Theorem X16_illegal_character_kind text st ch line :
  parseProgram text st = IllegalCharacter ch line ->
  is_blank ch = false /\ starts_no_token ch = true.
Proof.
  rewrite parseProgram_stream. intros H.
  destruct (scan text) as [toks e] eqn:Hscan.
  pose proof (run_done_where st toks e (4 * String.length text + 4) _
                (start_inv toks e st)) as Hw.
  rewrite H in Hw. subst e.
  destruct (scan_illegal_call _ _ _ _ Hscan) as [l' Hl'].
  exact (token_from_illegal_kind _ _ _ _ Hl').
Qed.

Lemma X16_illegal_character_kind_witness :
  is_blank "_" = false /\ starts_no_token "_" = true.
Proof.
  apply (X16_illegal_character_kind "_x(1)." Program_initial "_" 1).
  vm_compute. reflexivity.
Defined.



